(** * AdaKGC extraction scorer: a shallow embedding of
    [adakgc/extraction/scorer.py] and the properties of its matching and
    scoring engine, with the label trees of [adakgc/utils/label_tree.py].

    Conventions of the embedding.
    - A Python tuple of strings and integer offsets is a list of [atom]s;
      a list of such tuples is a [list item].
    - The counters [tp], [gold_num], [pred_num] are Python floats that only
      ever receive [0.], [+= 1] and [+= len(..)]; they are integer valued and
      are kept in [Z].  The ratios of [compute_f1] are kept as exact
      rationals ([Qc]); the rounding of binary floating point is not
      modelled.
    - A method that mutates [self] and may raise returns the accumulator as
      it stands when control leaves the method, together with the exception
      raised, if any.
    - [verbose] adds output on stdout/stderr, which is not modelled.  The
      scorers are embedded with [verbose=False], the default, and a second
      time with the flag, where [warning_tp_increment] subscripts the two
      instances and may raise [KeyError] (section "The scorers with
      [verbose]").
    - [match_mode] is one of the three strings that the assertion in
      [Metric.__init__] admits. *)

From Stdlib Require Import ZArith QArith Qcanon Lia.
From stdpp Require Import base list strings gmap gmultiset fin_maps sorting.
From Stdlib Require Import Lqa.

Local Open Scope Z_scope.

(** ** Python values that reach the accumulators *)

(** A field of a comparable tuple: a label or text ([str]) or a span offset
    normalised by [tuple_offset] (a tuple of [int]). *)
Inductive atom :=
| AStr (s : string)
| AOff (o : list Z).

#[global] Instance atom_eq_dec : EqDecision atom.
Proof. solve_decision. Defined.

#[global] Instance atom_countable : Countable atom.
Proof.
  refine (inj_countable'
            (fun a => match a with AStr s => inl s | AOff o => inr o end)
            (fun x => match x with inl s => AStr s | inr o => AOff o end) _).
  by intros [].
Defined.

(** A comparable tuple such as [("PER", (0, 1))] or
    [("REL", "PER", "Bob", "ORG", "ACME")]. *)
Definition item := list atom.

(** [tuple_offset]: a tuple is returned as it is, any other sequence is
    converted; both are the same list of integers here. *)
Definition tuple_offset (offset : list Z) : list Z := offset.

(** ** Exceptions and the error monad *)

(** [OutOfFuel] is no Python exception: it marks a loop of the model that
    reached its bound before its iterator was exhausted. *)
Inductive exn :=
| AssertionError
| NotImplementedError
| IndexError
| ValueError
| TypeError
| ZeroDivisionError
| OutOfFuel.

#[global] Instance exn_eq_dec : EqDecision exn.
Proof. solve_decision. Defined.

Inductive res (A : Type) :=
| Ok (a : A)
| Raise (e : exn).
Arguments Ok {A} a.
Arguments Raise {A} e.

Definition res_bind {A B} (m : res A) (k : A -> res B) : res B :=
  match m with
  | Ok a => k a
  | Raise e => Raise e
  end.

Notation "x <-! m ; k" := (res_bind m (fun x => k))
  (at level 100, m at next level, right associativity,
   format "x  <-!  m ;  '/' k").

Fixpoint res_mapM {A B} (f : A -> res B) (l : list A) : res (list B) :=
  match l with
  | [] => Ok []
  | x :: l' => y <-! f x; ys <-! res_mapM f l'; Ok (y :: ys)
  end.

(** ** The accumulator: class [Metric] *)

Inductive MatchMode := ModeSet | ModeNormal | ModeMultimatch.

#[global] Instance match_mode_eq_dec : EqDecision MatchMode.
Proof. solve_decision. Defined.

Record Metric := mkMetric {
  tp : Z;
  gold_num : Z;
  pred_num : Z;
  match_mode : MatchMode;
}.

(** [list.remove(x)]: drops the first element equal to [x]; [None] stands
    for the [ValueError] Python raises when there is none. *)
Fixpoint list_remove (x : item) (l : list item) : option (list item) :=
  match l with
  | [] => None
  | y :: l' =>
      if decide (x = y) then Some l'
      else l'' ← list_remove x l'; Some (y :: l'')
  end.

Module Metric.

(** [Metric.__init__] *)
Definition init (mm : MatchMode) : Metric :=
  {| tp := 0; gold_num := 0; pred_num := 0; match_mode := mm |}.

Definition add_tp (self : Metric) (n : Z) : Metric :=
  {| tp := tp self + n; gold_num := gold_num self;
     pred_num := pred_num self; match_mode := match_mode self |}.

Definition add_gold_num (self : Metric) (n : Z) : Metric :=
  {| tp := tp self; gold_num := gold_num self + n;
     pred_num := pred_num self; match_mode := match_mode self |}.

Definition add_pred_num (self : Metric) (n : Z) : Metric :=
  {| tp := tp self; gold_num := gold_num self;
     pred_num := pred_num self + n; match_mode := match_mode self |}.

(** [if len(gold_list) > 0 and len(pred_list) > 0:
       assert len(gold_list[0]) == len(pred_list[0])] *)
Definition same_arity (gold_list pred_list : list item) : bool :=
  match gold_list, pred_list with
  | g :: _, p :: _ => bool_decide (length g = length p)
  | _, _ => true
  end.

(** The loop [for pred in pred_list] of the else branch; [dup_gold_list]
    is the working copy made by [deepcopy]. *)
Fixpoint match_loop (pred_list dup_gold_list : list item) (self : Metric)
  : Metric * list item * option exn :=
  match pred_list with
  | [] => (self, dup_gold_list, None)
  | pred :: rest =>
      if bool_decide (pred ∈ dup_gold_list) then
        let self := add_tp self 1 in
        match match_mode self with
        | ModeNormal =>
            match list_remove pred dup_gold_list with
            | Some dup' => match_loop rest dup' self
            | None => (self, dup_gold_list, Some ValueError)
            end
        | _ => match_loop rest dup_gold_list self
        end
      else match_loop rest dup_gold_list self
  end.

(** [Metric.count_instance] *)
Definition count_instance (self : Metric) (gold_list pred_list : list item)
  : Metric * option exn :=
  match match_mode self with
  | ModeSet =>
      let gold_set : gset item := list_to_set gold_list in
      let pred_set : gset item := list_to_set pred_list in
      let self := add_gold_num self (Z.of_nat (size gold_set)) in
      let self := add_pred_num self (Z.of_nat (size pred_set)) in
      (add_tp self (Z.of_nat (size (gold_set ∩ pred_set))), None)
  | _ =>
      let self := add_gold_num self (Z.of_nat (length gold_list)) in
      let self := add_pred_num self (Z.of_nat (length pred_list)) in
      if same_arity gold_list pred_list then
        let '(self, _, e) := match_loop pred_list gold_list self in
        (self, e)
      else (self, Some AssertionError)
  end.

(** [Metric.count_batch_instance]: a raise ends the batch. *)
Fixpoint count_batch_instance (self : Metric)
  (batch_gold_list batch_pred_list : list (list item)) : Metric * option exn :=
  match batch_gold_list, batch_pred_list with
  | gold_list :: gs, pred_list :: ps =>
      match count_instance self gold_list pred_list with
      | (self, None) => count_batch_instance self gs ps
      | r => r
      end
  | _, _ => (self, None)
  end.

(** [Metric.safe_div]; [py_truediv] is Python's [/], which raises on a
    zero divisor. *)
Definition py_truediv (a b : Qc) : res Qc :=
  if decide (b = 0%Qc) then Raise ZeroDivisionError else Ok (a / b)%Qc.

Definition safe_div (a b : Qc) : res Qc :=
  if decide (b = 0%Qc) then Ok 0%Qc else py_truediv a b.

Definition of_count (z : Z) : Qc := Q2Qc (inject_Z z).

(** [Metric.compute_f1]: the dict display inserts its six entries from
    left to right. *)
Definition compute_f1 (self : Metric) (prefix : string)
  : res (gmap string Qc) :=
  let tp := of_count (tp self) in
  let pred_num := of_count (pred_num self) in
  let gold_num := of_count (gold_num self) in
  p <-! safe_div tp pred_num;
  r <-! safe_div tp gold_num;
  f <-! safe_div (of_count 2 * p * r)%Qc (p + r)%Qc;
  Ok (<[prefix +:+ "F1" := (f * of_count 100)%Qc]>
      (<[prefix +:+ "R" := (r * of_count 100)%Qc]>
       (<[prefix +:+ "P" := (p * of_count 100)%Qc]>
        (<[prefix +:+ "pred" := pred_num]>
         (<[prefix +:+ "gold" := gold_num]>
          (<[prefix +:+ "tp" := tp]> ∅)))))).

End Metric.

(** ** Composite records: [RecordMetric] and [OrderedRecordMetric] *)

Section Records.

(** [V] is the type of the values of one axis (text, or offset tuples), on
    which Python's [<] is the total order [value_ltb]. *)
Context {V : Type} `{EqDecision V}.
Variable value_ltb : V -> V -> bool.

(** A record [{'type': .., 'spot': .., 'asocs': [(role_type, value), ..]}]. *)
Record record := mkRecord {
  r_type : string;
  r_spot : V;
  r_asocs : list (string * V);
}.

(** Python's [<] on the pairs [(role_type, value)]: lexicographic. *)
Definition role_ltb (a b : string * V) : bool :=
  if decide (a.1 = b.1) then value_ltb a.2 b.2 else String.ltb a.1 b.1.

Fixpoint insert_role (x : string * V) (l : list (string * V))
  : list (string * V) :=
  match l with
  | [] => [x]
  | y :: l' => if role_ltb y x then y :: insert_role x l' else x :: y :: l'
  end.

(** [sorted(..)]: a stable sort by [<]. *)
Definition sorted (l : list (string * V)) : list (string * V) :=
  foldr insert_role [] l.

(** [for gold_role, pred_role in zip(..): if gold_role != pred_role:
    return False] and the final [return True]. *)
Fixpoint roles_agree (pairs : list ((string * V) * (string * V))) : bool :=
  match pairs with
  | [] => true
  | (gold_role, pred_role) :: rest =>
      if decide (gold_role ≠ pred_role) then false else roles_agree rest
  end.

(** [RecordMetric.is_equal] *)
Definition record_is_equal (gold pred : record) : bool :=
  if decide (r_type gold ≠ r_type pred) then false
  else if decide (r_spot gold ≠ r_spot pred) then false
  else if decide (length (r_asocs gold) ≠ length (r_asocs pred)) then false
  else roles_agree (zip (sorted (r_asocs gold)) (sorted (r_asocs pred))).

(** [OrderedRecordMetric.is_equal] *)
Definition ordered_record_is_equal (gold pred : record) : bool :=
  if decide (r_type gold ≠ r_type pred) then false
  else if decide (r_spot gold ≠ r_spot pred) then false
  else if decide (length (r_asocs gold) ≠ length (r_asocs pred)) then false
  else roles_agree (zip (r_asocs gold) (r_asocs pred)).

(** The class of the accumulator decides which [is_equal] the call
    [self.is_equal] reaches. *)
Inductive record_class := RecordMetricClass | OrderedRecordMetricClass.

Definition is_equal (cls : record_class) : record -> record -> bool :=
  match cls with
  | RecordMetricClass => record_is_equal
  | OrderedRecordMetricClass => ordered_record_is_equal
  end.

(** Gold record [i] is not consumed yet and is structurally equal to
    [pred]: the condition of the [if] in the inner loop. *)
Definition matchable (cls : record_class) (gold_list : list record)
  (pred : record) (non_found : list bool) (i : nat) : bool :=
  match non_found !! i, gold_list !! i with
  | Some true, Some gold => is_equal cls gold pred
  | _, _ => false
  end.

(** The inner loop [for gold_index in gold_indexes] for one [pred]. *)
Fixpoint scan_gold (cls : record_class) (gold_list : list record)
  (pred : record) (gold_indexes : list nat) (non_found : list bool)
  (self : Metric) : Metric * list bool * option exn :=
  match gold_indexes with
  | [] => (self, non_found, None)
  | gold_index :: rest =>
      match non_found !! gold_index with
      | None => (self, non_found, Some IndexError)
      | Some false => scan_gold cls gold_list pred rest non_found self
      | Some true =>
          match gold_list !! gold_index with
          | None => (self, non_found, Some IndexError)
          | Some gold =>
              if is_equal cls gold pred then
                let self := Metric.add_tp self 1 in
                let non_found := <[gold_index := false]> non_found in
                match match_mode self with
                | ModeNormal => (self, non_found, None)
                | _ => scan_gold cls gold_list pred rest non_found self
                end
              else scan_gold cls gold_list pred rest non_found self
          end
      end
  end.

(** The outer loop [for pred in pred_list]. *)
Fixpoint scan_preds (cls : record_class) (gold_list pred_list : list record)
  (gold_indexes : list nat) (non_found : list bool) (self : Metric)
  : Metric * list bool * option exn :=
  match pred_list with
  | [] => (self, non_found, None)
  | pred :: rest =>
      match scan_gold cls gold_list pred gold_indexes non_found self with
      | (self, non_found, None) =>
          scan_preds cls gold_list rest gold_indexes non_found self
      | r => r
      end
  end.

(** [RecordMetric.count_instance], inherited by [OrderedRecordMetric]. *)
Definition record_count_instance (cls : record_class) (self : Metric)
  (gold_list pred_list : list record) : Metric * option exn :=
  match match_mode self with
  | ModeSet => (self, Some NotImplementedError)
  | _ =>
      let self := Metric.add_gold_num self (Z.of_nat (length gold_list)) in
      let self := Metric.add_pred_num self (Z.of_nat (length pred_list)) in
      let gold_indexes := seq 0 (length gold_list) in
      let non_found := replicate (length gold_list) true in
      let '(self, _, e) :=
        scan_preds cls gold_list pred_list gold_indexes non_found self in
      (self, e)
  end.

End Records.

Arguments record V : clear implicits.
Arguments mkRecord {V} _ _ _.

Module RecordMetric.
Definition is_equal {V} `{EqDecision V} (value_ltb : V -> V -> bool) :=
  record_is_equal value_ltb.
Definition count_instance {V} `{EqDecision V} (value_ltb : V -> V -> bool) :=
  record_count_instance value_ltb RecordMetricClass.
End RecordMetric.

Module OrderedRecordMetric.
Definition is_equal {V} `{EqDecision V} :=
  ordered_record_is_equal (V := V).
Definition count_instance {V} `{EqDecision V} (value_ltb : V -> V -> bool) :=
  record_count_instance value_ltb OrderedRecordMetricClass.
End OrderedRecordMetric.

(** ** The scorers *)

(** A gold or predicted instance: a dict from an axis name to the list of
    comparable tuples of one example. *)
Abbreviation instance := (gmap string (list item)).

(** [d.get(key, [])] *)
Definition get (d : instance) (key : string) : list item :=
  default [] (d !! key).

(** A call [m.count_instance(..)] inside a scorer: an exception leaves the
    scorer, whose accumulators are local to it. *)
Definition count (m : Metric) (gold_list pred_list : list item) : res Metric :=
  match Metric.count_instance m gold_list pred_list with
  | (m', None) => Ok m'
  | (_, Some e) => Raise e
  end.

(** The dict [{'offset': Metric(..), 'string': Metric(..)}]. *)
Record axes := mkAxes {
  for_offset : Metric;
  for_string : Metric;
}.

Definition fresh_axes (mm : MatchMode) : axes :=
  mkAxes (Metric.init mm) (Metric.init mm).

(** [for pred, gold in zip(..)] with a body that may raise. *)
Fixpoint for_pairs {S} (body : S -> instance -> instance -> res S)
  (s : S) (pairs : list (instance * instance)) : res S :=
  match pairs with
  | [] => Ok s
  | (pred, gold) :: rest => s' <-! body s pred gold; for_pairs body s' rest
  end.

Module EntityScorer.

(** The body of the loop: [metrics] is iterated in insertion order,
    ['string'] first. *)
Definition count_pair (metrics : axes) (pred gold : instance) : res axes :=
  s <-! count (for_string metrics) (get gold "string") (get pred "string");
  o <-! count (for_offset metrics) (get gold "offset") (get pred "offset");
  Ok (mkAxes o s).

Definition run (mm : MatchMode)
  (gold_instance_list pred_instance_list : list instance) : res axes :=
  for_pairs count_pair (fresh_axes mm)
    (zip pred_instance_list gold_instance_list).

(** [results.update(d)] is [d ∪ results]: the entries of [d] win. *)
Definition results (metrics : axes) : res (gmap string Qc) :=
  rs <-! Metric.compute_f1 (for_string metrics) ("string" +:+ "-ent-");
  ro <-! Metric.compute_f1 (for_offset metrics) ("offset" +:+ "-ent-");
  Ok (ro ∪ (rs ∪ ∅)).

Definition eval_instance_list (mm : MatchMode)
  (gold_instance_list pred_instance_list : list instance)
  : res (gmap string Qc) :=
  metrics <-! run mm gold_instance_list pred_instance_list;
  results metrics.

End EntityScorer.

(** A raw gold relation record [{'type': .., 'args': [{'type': ..,
    'offset': .., 'text': ..}, ..]}]. *)
Record argument := mkArgument {
  a_type : string;
  a_offset : list Z;
  a_text : string;
}.

Record relation := mkRelation {
  rel_type : string;
  rel_args : list argument;
}.

Module RelationScorer.

(** [gold_instance[key] += [t]] on a [defaultdict(list)]. *)
Definition append_to (gold_instance : instance) (key : string) (t : item)
  : instance :=
  <[key := get gold_instance key ++ [t]]> gold_instance.

(** The body of [for record in gold]: the assertion on the number of
    arguments, then the two 5-tuples. *)
Definition load_record (gold_instance : instance) (record : relation)
  : res instance :=
  if bool_decide (length (rel_args record) = 2%nat) then
    match rel_args record with
    | a0 :: a1 :: _ =>
        let gold_instance :=
          append_to gold_instance "offset"
            [AStr (rel_type record);
             AStr (a_type a0); AOff (tuple_offset (a_offset a0));
             AStr (a_type a1); AOff (tuple_offset (a_offset a1))] in
        Ok (append_to gold_instance "string"
              [AStr (rel_type record);
               AStr (a_type a0); AStr (a_text a0);
               AStr (a_type a1); AStr (a_text a1)])
    | _ => Raise IndexError
    end
  else Raise AssertionError.

Fixpoint load_records (gold_instance : instance) (gold : list relation)
  : res instance :=
  match gold with
  | [] => Ok gold_instance
  | record :: rest =>
      gold_instance <-! load_record gold_instance record;
      load_records gold_instance rest
  end.

(** [RelationScorer.load_gold_list] *)
Definition load_gold_list (gold_list : list (list relation))
  : res (list instance) :=
  res_mapM (load_records ∅) gold_list.

(** [(x[0], x[2], x[4])]: the boundary view of a relation tuple. *)
Definition boundary (x : item) : res item :=
  match x !! 0%nat, x !! 2%nat, x !! 4%nat with
  | Some x0, Some x2, Some x4 => Ok [x0; x2; x4]
  | _, _, _ => Raise IndexError
  end.

(** The strict accumulators [metrics] and the boundary accumulators
    [boundary_metrics]. *)
Record relation_metrics := mkRelationMetrics {
  metrics : axes;
  boundary_metrics : axes;
}.

Definition count_boundary (m : Metric) (gold_list pred_list : list item)
  : res Metric :=
  g <-! res_mapM boundary gold_list;
  p <-! res_mapM boundary pred_list;
  count m g p.

(** The body of the loop: both dicts are iterated ['offset'] first. *)
Definition count_pair (ms : relation_metrics) (pred gold : instance)
  : res relation_metrics :=
  o <-! count (for_offset (metrics ms)) (get gold "offset") (get pred "offset");
  s <-! count (for_string (metrics ms)) (get gold "string") (get pred "string");
  bo <-! count_boundary (for_offset (boundary_metrics ms))
           (get gold "offset") (get pred "offset");
  bs <-! count_boundary (for_string (boundary_metrics ms))
           (get gold "string") (get pred "string");
  Ok (mkRelationMetrics (mkAxes o s) (mkAxes bo bs)).

Definition run (mm : MatchMode)
  (gold_instance_list pred_instance_list : list instance)
  : res relation_metrics :=
  for_pairs count_pair (mkRelationMetrics (fresh_axes mm) (fresh_axes mm))
    (zip pred_instance_list gold_instance_list).

Definition results (ms : relation_metrics) : res (gmap string Qc) :=
  ro <-! Metric.compute_f1 (for_offset (metrics ms))
           ("offset" +:+ "-rel-strict-");
  rs <-! Metric.compute_f1 (for_string (metrics ms))
           ("string" +:+ "-rel-strict-");
  bo <-! Metric.compute_f1 (for_offset (boundary_metrics ms))
           ("offset" +:+ "-rel-boundary-");
  bs <-! Metric.compute_f1 (for_string (boundary_metrics ms))
           ("string" +:+ "-rel-boundary-");
  Ok (bs ∪ (bo ∪ (rs ∪ (ro ∪ ∅)))).

Definition eval_instance_list (mm : MatchMode)
  (gold_instance_list pred_instance_list : list instance)
  : res (gmap string Qc) :=
  ms <-! run mm gold_instance_list pred_instance_list;
  results ms.

End RelationScorer.

Module EventScorer.

Record event_metrics := mkEventMetrics {
  trigger_metrics : axes;
  role_metrics : axes;
}.

Definition count_pair (ms : event_metrics) (pred gold : instance)
  : res event_metrics :=
  tof <-! count (for_offset (trigger_metrics ms))
            (get gold ("offset" +:+ "_trigger"))
            (get pred ("offset" +:+ "_trigger"));
  ts <-! count (for_string (trigger_metrics ms))
           (get gold ("string" +:+ "_trigger"))
           (get pred ("string" +:+ "_trigger"));
  rof <-! count (for_offset (role_metrics ms))
            (get gold ("offset" +:+ "_role"))
            (get pred ("offset" +:+ "_role"));
  rs <-! count (for_string (role_metrics ms))
           (get gold ("string" +:+ "_role"))
           (get pred ("string" +:+ "_role"));
  Ok (mkEventMetrics (mkAxes tof ts) (mkAxes rof rs)).

Definition run (mm : MatchMode)
  (gold_instance_list pred_instance_list : list instance)
  : res event_metrics :=
  for_pairs count_pair (mkEventMetrics (fresh_axes mm) (fresh_axes mm))
    (zip pred_instance_list gold_instance_list).

Definition results (ms : event_metrics) : res (gmap string Qc) :=
  tof <-! Metric.compute_f1 (for_offset (trigger_metrics ms))
            ("offset" +:+ "-evt-trigger-");
  ts <-! Metric.compute_f1 (for_string (trigger_metrics ms))
           ("string" +:+ "-evt-trigger-");
  rof <-! Metric.compute_f1 (for_offset (role_metrics ms))
            ("offset" +:+ "-evt-role-");
  rs <-! Metric.compute_f1 (for_string (role_metrics ms))
           ("string" +:+ "-evt-role-");
  Ok (rs ∪ (rof ∪ (ts ∪ (tof ∪ ∅)))).

Definition eval_instance_list (mm : MatchMode)
  (gold_instance_list pred_instance_list : list instance)
  : res (gmap string Qc) :=
  ms <-! run mm gold_instance_list pred_instance_list;
  results ms.

End EventScorer.

(** ** The store: lists as shared, mutable objects

    The functions above take the contents of the lists they are given.
    To say what a call does to the list objects of its caller, the
    functions below work on a store of objects: an argument is a location,
    [deepcopy], [set(..)], [list(range(..))] and [[True] * n] allocate, and
    [remove] and the assignment to [non_found[..]] write. *)

Definition loc := positive.

(** A new object at a location the store does not use yet. *)
Definition alloc {T} (h : gmap loc T) (o : T) : loc * gmap loc T :=
  let l := fresh (dom h) in (l, <[l := o]> h).

Inductive ctrl :=
| Next
| Break
| Throw (e : exn).

(** [for x in xs: body] over a list object: the iterator keeps an index
    and reads the object again at every step.  [fuel] bounds the number of
    steps. *)
Fixpoint for_in {St A} (fuel index : nat) (iter : St -> res (list A))
  (body : A -> St -> St * ctrl) (s : St) : St * option exn :=
  match fuel with
  | O => (s, Some OutOfFuel)
  | S fuel' =>
      match iter s with
      | Raise e => (s, Some e)
      | Ok xs =>
          match xs !! index with
          | None => (s, None)
          | Some x =>
              match body x s with
              | (s', Next) => for_in fuel' (S index) iter body s'
              | (s', Break) => (s', None)
              | (s', Throw e) => (s', Some e)
              end
          end
      end
  end.

(** The same loop over the elements of a list value. *)
Fixpoint for_list {St A} (xs : list A) (body : A -> St -> St * ctrl) (s : St)
  : St * option exn :=
  match xs with
  | [] => (s, None)
  | x :: xs' =>
      match body x s with
      | (s', Next) => for_list xs' body s'
      | (s', Break) => (s', None)
      | (s', Throw e) => (s', Some e)
      end
  end.

(** The objects [Metric.count_instance] meets. *)
Inductive pyobj :=
| PyList (l : list item)
| PySet (s : gset item).

Definition read_list (h : gmap loc pyobj) (l : loc) : res (list item) :=
  match h !! l with
  | Some (PyList xs) => Ok xs
  | _ => Raise TypeError
  end.

Module MetricStore.

(** The body of [for pred in pred_list]; [dup_gold_list] is the location of
    the working copy. *)
Definition match_body (dup_gold_list : loc) (pred : item)
  (s : Metric * gmap loc pyobj) : (Metric * gmap loc pyobj) * ctrl :=
  match read_list s.2 dup_gold_list with
  | Raise e => (s, Throw e)
  | Ok dup =>
      if bool_decide (pred ∈ dup) then
        let self := Metric.add_tp s.1 1 in
        match match_mode self with
        | ModeNormal =>
            match list_remove pred dup with
            | Some dup' =>
                ((self, <[dup_gold_list := PyList dup']> s.2), Next)
            | None => ((self, s.2), Throw ValueError)
            end
        | _ => ((self, s.2), Next)
        end
      else (s, Next)
  end.

(** [Metric.count_instance] on the store. *)
Definition count_instance (self : Metric) (gold_list pred_list : loc)
  (h : gmap loc pyobj) : (Metric * gmap loc pyobj) * option exn :=
  match match_mode self with
  | ModeSet =>
      match read_list h gold_list with
      | Raise e => ((self, h), Some e)
      | Ok g =>
          let '(_, h) := alloc h (PySet (list_to_set g)) in
          match read_list h pred_list with
          | Raise e => ((self, h), Some e)
          | Ok p =>
              let '(_, h) := alloc h (PySet (list_to_set p)) in
              let gold_set : gset item := list_to_set g in
              let pred_set : gset item := list_to_set p in
              let self := Metric.add_gold_num self (Z.of_nat (size gold_set)) in
              let self := Metric.add_pred_num self (Z.of_nat (size pred_set)) in
              let '(_, h) := alloc h (PySet (gold_set ∩ pred_set)) in
              ((Metric.add_tp self (Z.of_nat (size (gold_set ∩ pred_set))), h),
               None)
          end
      end
  | _ =>
      match read_list h gold_list with
      | Raise e => ((self, h), Some e)
      | Ok g =>
          let self := Metric.add_gold_num self (Z.of_nat (length g)) in
          match read_list h pred_list with
          | Raise e => ((self, h), Some e)
          | Ok p =>
              let self := Metric.add_pred_num self (Z.of_nat (length p)) in
              if Metric.same_arity g p then
                let '(dup_gold_list, h) := alloc h (PyList g) in
                for_in (S (length p)) 0 (λ s, read_list s.2 pred_list)
                  (match_body dup_gold_list) (self, h)
              else ((self, h), Some AssertionError)
          end
      end
  end.

End MetricStore.

(** The objects [RecordMetric.count_instance] meets. *)
Inductive recobj (V : Type) :=
| RecList (l : list (record V))
| BoolList (l : list bool)
| IndexList (l : list nat).
Arguments RecList {V} l.
Arguments BoolList {V} l.
Arguments IndexList {V} l.

Module RecordStore.
Section RecordStore.

Context {V : Type} `{EqDecision V}.
Variable value_ltb : V -> V -> bool.
Variable cls : record_class.

Definition read_records (h : gmap loc (recobj V)) (l : loc)
  : res (list (record V)) :=
  match h !! l with
  | Some (RecList xs) => Ok xs
  | _ => Raise TypeError
  end.

Definition read_bools (h : gmap loc (recobj V)) (l : loc) : res (list bool) :=
  match h !! l with
  | Some (BoolList xs) => Ok xs
  | _ => Raise TypeError
  end.

Definition read_indexes (h : gmap loc (recobj V)) (l : loc) : res (list nat) :=
  match h !! l with
  | Some (IndexList xs) => Ok xs
  | _ => Raise TypeError
  end.

(** The body of [for gold_index in gold_indexes]. *)
Definition scan_body (gold_list non_found : loc) (pred : record V)
  (gold_index : nat) (s : Metric * gmap loc (recobj V))
  : (Metric * gmap loc (recobj V)) * ctrl :=
  match read_bools s.2 non_found with
  | Raise e => (s, Throw e)
  | Ok nf =>
      match nf !! gold_index with
      | None => (s, Throw IndexError)
      | Some false => (s, Next)
      | Some true =>
          match read_records s.2 gold_list with
          | Raise e => (s, Throw e)
          | Ok g =>
              match g !! gold_index with
              | None => (s, Throw IndexError)
              | Some gold =>
                  if is_equal value_ltb cls gold pred then
                    let self := Metric.add_tp s.1 1 in
                    let h :=
                      <[non_found := BoolList (<[gold_index := false]> nf)]>
                        s.2 in
                    match match_mode self with
                    | ModeNormal => ((self, h), Break)
                    | _ => ((self, h), Next)
                    end
                  else (s, Next)
              end
          end
      end
  end.

(** The body of [for pred in pred_list]: the inner loop. *)
Definition pred_body (gold_list gold_indexes non_found : loc)
  (pred : record V) (s : Metric * gmap loc (recobj V))
  : (Metric * gmap loc (recobj V)) * ctrl :=
  match read_indexes s.2 gold_indexes with
  | Raise e => (s, Throw e)
  | Ok indexes =>
      match for_in (S (length indexes)) 0
              (λ s, read_indexes s.2 gold_indexes)
              (scan_body gold_list non_found pred) s with
      | (s', None) => (s', Next)
      | (s', Some e) => (s', Throw e)
      end
  end.

(** [RecordMetric.count_instance] on the store. *)
Definition count_instance (self : Metric) (gold_list pred_list : loc)
  (h : gmap loc (recobj V)) : (Metric * gmap loc (recobj V)) * option exn :=
  match match_mode self with
  | ModeSet => ((self, h), Some NotImplementedError)
  | _ =>
      match read_records h gold_list with
      | Raise e => ((self, h), Some e)
      | Ok g =>
          let self := Metric.add_gold_num self (Z.of_nat (length g)) in
          match read_records h pred_list with
          | Raise e => ((self, h), Some e)
          | Ok p =>
              let self := Metric.add_pred_num self (Z.of_nat (length p)) in
              let '(gold_indexes, h) :=
                alloc h (IndexList (seq 0 (length g))) in
              let '(non_found, h) :=
                alloc h (BoolList (replicate (length g) true)) in
              for_in (S (length p)) 0 (λ s, read_records s.2 pred_list)
                (pred_body gold_list gold_indexes non_found) (self, h)
          end
      end
  end.

End RecordStore.
End RecordStore.

(** ** The canonicalisers of the entity and event scorers *)

Module EntityLoader.

(** The body of [for gold in gold_list] of [EntityScorer.load_gold_list]:
    a span is a dict with the keys ['type'], ['offset'] and ['text'], the
    shape of a relation argument. *)
Definition load_gold (gold : list argument) : instance :=
  let '(gold_offset, gold_string) :=
    fold_left
      (λ '(gold_offset, gold_string) span,
         (gold_offset ++ [[AStr (a_type span);
                           AOff (tuple_offset (a_offset span))]],
          gold_string ++ [[AStr (a_type span); AStr (a_text span)]]))
      gold ([], []) in
  <["string" := gold_string]> (<["offset" := gold_offset]> ∅).

(** [EntityScorer.load_gold_list] *)
Definition load_gold_list (gold_list : list (list argument)) : list instance :=
  fold_left (λ gold_instance_list gold, gold_instance_list ++ [load_gold gold])
    gold_list [].

End EntityLoader.

(** A raw gold event record [{'type': .., 'offset': .., 'text': ..,
    'args': [{'type': .., 'offset': .., 'text': ..}, ..]}]. *)
Record event := mkEvent {
  e_type : string;
  e_offset : list Z;
  e_text : string;
  e_args : list argument;
}.

(** A predicted event of the offset axis and of the string axis:
    [{'type': .., 'trigger': .., 'roles': [(role_type, role_value), ..]}]. *)
Record offset_event := mkOffsetEvent {
  oe_type : string;
  oe_trigger : list Z;
  oe_roles : list (string * list Z);
}.

Record string_event := mkStringEvent {
  se_type : string;
  se_trigger : string;
  se_roles : list (string * string);
}.

(** A predicted example [{'offset': [..], 'string': [..]}]. *)
Record event_pred := mkEventPred {
  ep_offset : list offset_event;
  ep_string : list string_event;
}.

Module EventLoader.

(** The body of [for record in gold] of [EventScorer.load_gold_list]. *)
Definition load_record (gold_instance : instance) (record : event)
  : instance :=
  let gold_instance :=
    RelationScorer.append_to gold_instance "offset_trigger"
      [AStr (e_type record); AOff (tuple_offset (e_offset record))] in
  let gold_instance :=
    RelationScorer.append_to gold_instance "string_trigger"
      [AStr (e_type record); AStr (e_text record)] in
  fold_left
    (λ gold_instance arg,
       let gold_instance :=
         RelationScorer.append_to gold_instance "offset_role"
           [AStr (e_type record); AStr (a_type arg);
            AOff (tuple_offset (a_offset arg))] in
       RelationScorer.append_to gold_instance "string_role"
         [AStr (e_type record); AStr (a_type arg); AStr (a_text arg)])
    (e_args record) gold_instance.

(** [EventScorer.load_gold_list] *)
Definition load_gold_list (gold_list : list (list event)) : list instance :=
  fold_left
    (λ gold_instance_list gold,
       gold_instance_list ++ [fold_left load_record gold ∅])
    gold_list [].

(** The body of [for offset_pred in pred['offset']]. *)
Definition load_offset_pred (pred_instance : instance)
  (offset_pred : offset_event) : instance :=
  let pred_instance :=
    RelationScorer.append_to pred_instance "offset_trigger"
      [AStr (oe_type offset_pred);
       AOff (tuple_offset (oe_trigger offset_pred))] in
  fold_left
    (λ pred_instance '(role_type, role_offset),
       RelationScorer.append_to pred_instance "offset_role"
         [AStr (oe_type offset_pred); AStr role_type;
          AOff (tuple_offset role_offset)])
    (oe_roles offset_pred) pred_instance.

(** The body of [for string_pred in pred['string']]. *)
Definition load_string_pred (pred_instance : instance)
  (string_pred : string_event) : instance :=
  let pred_instance :=
    RelationScorer.append_to pred_instance "string_trigger"
      [AStr (se_type string_pred); AStr (se_trigger string_pred)] in
  fold_left
    (λ pred_instance '(role_type, role_string),
       RelationScorer.append_to pred_instance "string_role"
         [AStr (se_type string_pred); AStr role_type; AStr role_string])
    (se_roles string_pred) pred_instance.

(** The body of [for pred in pred_list]. *)
Definition load_pred (pred : event_pred) : instance :=
  let pred_instance := fold_left load_offset_pred (ep_offset pred) ∅ in
  fold_left load_string_pred (ep_string pred) pred_instance.

(** [EventScorer.load_pred_list] *)
Definition load_pred_list (pred_list : list event_pred) : list instance :=
  fold_left (λ pred_instance_list pred, pred_instance_list ++ [load_pred pred])
    pred_list [].

End EventLoader.

(** The prediction that says what the gold events say, in the shape
    [EventScorer.load_pred_list] takes. *)
Definition offset_event_of (record : event) : offset_event :=
  mkOffsetEvent (e_type record) (e_offset record)
    ((λ arg, (a_type arg, a_offset arg)) <$> e_args record).

Definition string_event_of (record : event) : string_event :=
  mkStringEvent (e_type record) (e_text record)
    ((λ arg, (a_type arg, a_text arg)) <$> e_args record).

Definition event_pred_of_gold (gold : list event) : event_pred :=
  mkEventPred (offset_event_of <$> gold) (string_event_of <$> gold).

(** What the body of [for record in gold] of [EventScorer.load_gold_list]
    appends to the entry [k] of the instance. *)
Definition event_items (record : event) (k : string) : list item :=
  (if decide ("offset_trigger" = k)
   then [[AStr (e_type record); AOff (tuple_offset (e_offset record))]]
   else [])
  ++ (if decide ("string_trigger" = k)
      then [[AStr (e_type record); AStr (e_text record)]] else [])
  ++ concat ((λ arg,
                (if decide ("offset_role" = k)
                 then [[AStr (e_type record); AStr (a_type arg);
                        AOff (tuple_offset (a_offset arg))]]
                 else [])
                ++ (if decide ("string_role" = k)
                    then [[AStr (e_type record); AStr (a_type arg);
                           AStr (a_text arg)]]
                    else [])) <$> e_args record).

(** The same for the two loops of [EventScorer.load_pred_list]. *)
Definition offset_event_items (offset_pred : offset_event) (k : string)
  : list item :=
  (if decide ("offset_trigger" = k)
   then [[AStr (oe_type offset_pred);
          AOff (tuple_offset (oe_trigger offset_pred))]]
   else [])
  ++ concat ((λ role : string * list Z,
                if decide ("offset_role" = k)
                then [[AStr (oe_type offset_pred); AStr role.1;
                       AOff (tuple_offset role.2)]]
                else []) <$> oe_roles offset_pred).

Definition string_event_items (string_pred : string_event) (k : string)
  : list item :=
  (if decide ("string_trigger" = k)
   then [[AStr (se_type string_pred); AStr (se_trigger string_pred)]]
   else [])
  ++ concat ((λ role : string * string,
                if decide ("string_role" = k)
                then [[AStr (se_type string_pred); AStr role.1; AStr role.2]]
                else []) <$> se_roles string_pred).

(** Every tuple of every axis of the instance is a pair, as
    [EntityScorer.load_gold_list] builds them. *)
Definition pairs (inst : instance) : Prop :=
  ∀ key, Forall (λ x : item, length x = 2%nat) (get inst key).

(** The triggers of the instance are pairs and its roles are triples, as
    the loaders of [EventScorer] build them. *)
Definition event_tuples (inst : instance) : Prop :=
  Forall (λ x : item, length x = 2%nat) (get inst "offset_trigger")
  ∧ Forall (λ x : item, length x = 2%nat) (get inst "string_trigger")
  ∧ Forall (λ x : item, length x = 3%nat) (get inst "offset_role")
  ∧ Forall (λ x : item, length x = 3%nat) (get inst "string_role").

(** The dict display that ends [Metric.compute_f1], for given values. *)
Definition score_entries (prefix : string) (tp gold pred P R F1 : Qc)
  : gmap string Qc :=
  <[prefix +:+ "F1" := F1]>
    (<[prefix +:+ "R" := R]>
       (<[prefix +:+ "P" := P]>
          (<[prefix +:+ "pred" := pred]>
             (<[prefix +:+ "gold" := gold]>
                (<[prefix +:+ "tp" := tp]> ∅))))).

(** An accumulator that counted every gold item and every prediction as
    matched. *)
Definition balanced (m : Metric) : Prop :=
  tp m = gold_num m ∧ tp m = pred_num m.

(** ** The scorers with [verbose] *)

(** An instance as a scorer receives it: a [dict], or a [defaultdict(list)]
    such as the loaders of [RelationScorer] and [EventScorer] build. *)
Inductive dict_kind := PlainDict | DefaultDict.

Record py_instance := mkPyInstance {
  dict_kind_of : dict_kind;
  entries : instance;
}.

(** The exceptions of a scorer that may warn: those of the scorer with
    [verbose=False], and the [KeyError] of a subscript. *)
Inductive scorer_exn :=
| Exn (e : exn)
| KeyError.

(** A computation of the scorer with [verbose=False] inside the scorer
    with [verbose]. *)
Definition quiet {A} (m : res A) : scorer_exn + A :=
  match m with
  | Ok a => inr a
  | Raise e => inl (Exn e)
  end.

Definition scorer_bind {A B} (m : scorer_exn + A) (k : A → scorer_exn + B)
  : scorer_exn + B :=
  match m with
  | inr a => k a
  | inl e => inl e
  end.

Notation "x <-? m ; k" := (scorer_bind m (fun x => k))
  (at level 100, m at next level, right associativity,
   format "x  <-?  m ;  '/' k").

(** The subscript [d[key]] returns: on a [dict] without the key it raises
    [KeyError]; on a [defaultdict(list)] it enters the key with an empty
    list, which [d.get(key, [])] does not tell from the absence of the
    key. *)
Definition subscript_ok (d : py_instance) (key : string) : bool :=
  match dict_kind_of d with
  | DefaultDict => true
  | PlainDict => bool_decide (is_Some (entries d !! key))
  end.

(** [warning_tp_increment]: the four subscripts, in the order of the four
    writes to [stderr]. *)
Definition warning_tp_increment (gold pred : py_instance)
  : scorer_exn + unit :=
  if subscript_ok gold "offset" then
    if subscript_ok pred "offset" then
      if subscript_ok gold "string" then
        if subscript_ok pred "string" then inr () else inl KeyError
      else inl KeyError
    else inl KeyError
  else inl KeyError.

(** [if verbose and post_offset_tp - pre_offset_tp
        != post_string_tp - pre_string_tp:
      warning_tp_increment(gold=gold, pred=pred, prefix=..)] *)
Definition warn (verbose : bool) (pre post : axes) (gold pred : py_instance)
  : scorer_exn + unit :=
  if verbose
     && bool_decide (tp (for_offset post) - tp (for_offset pre)
                     ≠ tp (for_string post) - tp (for_string pre))
  then warning_tp_increment gold pred
  else inr ().

(** [for pred, gold in zip(..)] *)
Fixpoint for_py_pairs {S}
  (body : S → py_instance → py_instance → scorer_exn + S)
  (s : S) (pairs : list (py_instance * py_instance)) : scorer_exn + S :=
  match pairs with
  | [] => inr s
  | (pred, gold) :: rest => s' <-? body s pred gold; for_py_pairs body s' rest
  end.

Module VerboseEntityScorer.

Definition count_pair (verbose : bool) (metrics : axes)
  (pred gold : py_instance) : scorer_exn + axes :=
  post <-? quiet (EntityScorer.count_pair metrics
                    (entries pred) (entries gold));
  _ <-? warn verbose metrics post gold pred;
  inr post.

Definition run (verbose : bool) (mm : MatchMode)
  (gold_instance_list pred_instance_list : list py_instance)
  : scorer_exn + axes :=
  for_py_pairs (count_pair verbose) (fresh_axes mm)
    (zip pred_instance_list gold_instance_list).

(** [EntityScorer.eval_instance_list] *)
Definition eval_instance_list (verbose : bool) (mm : MatchMode)
  (gold_instance_list pred_instance_list : list py_instance)
  : scorer_exn + gmap string Qc :=
  metrics <-? run verbose mm gold_instance_list pred_instance_list;
  quiet (EntityScorer.results metrics).

End VerboseEntityScorer.

Module VerboseRelationScorer.

Definition count_pair (verbose : bool)
  (ms : RelationScorer.relation_metrics) (pred gold : py_instance)
  : scorer_exn + RelationScorer.relation_metrics :=
  let pred_ := entries pred in
  let gold_ := entries gold in
  strict <-? quiet
    (o <-! count (for_offset (RelationScorer.metrics ms))
             (get gold_ "offset") (get pred_ "offset");
     s <-! count (for_string (RelationScorer.metrics ms))
             (get gold_ "string") (get pred_ "string");
     Ok (mkAxes o s));
  _ <-? warn verbose (RelationScorer.metrics ms) strict gold pred;
  boundary <-? quiet
    (bo <-! RelationScorer.count_boundary
              (for_offset (RelationScorer.boundary_metrics ms))
              (get gold_ "offset") (get pred_ "offset");
     bs <-! RelationScorer.count_boundary
              (for_string (RelationScorer.boundary_metrics ms))
              (get gold_ "string") (get pred_ "string");
     Ok (mkAxes bo bs));
  _ <-? warn verbose (RelationScorer.boundary_metrics ms) boundary gold pred;
  inr (RelationScorer.mkRelationMetrics strict boundary).

Definition run (verbose : bool) (mm : MatchMode)
  (gold_instance_list pred_instance_list : list py_instance)
  : scorer_exn + RelationScorer.relation_metrics :=
  for_py_pairs (count_pair verbose)
    (RelationScorer.mkRelationMetrics (fresh_axes mm) (fresh_axes mm))
    (zip pred_instance_list gold_instance_list).

(** [RelationScorer.eval_instance_list] *)
Definition eval_instance_list (verbose : bool) (mm : MatchMode)
  (gold_instance_list pred_instance_list : list py_instance)
  : scorer_exn + gmap string Qc :=
  ms <-? run verbose mm gold_instance_list pred_instance_list;
  quiet (RelationScorer.results ms).

End VerboseRelationScorer.

Module VerboseEventScorer.

Definition count_pair (verbose : bool) (ms : EventScorer.event_metrics)
  (pred gold : py_instance) : scorer_exn + EventScorer.event_metrics :=
  let pred_ := entries pred in
  let gold_ := entries gold in
  trigger <-? quiet
    (tof <-! count (for_offset (EventScorer.trigger_metrics ms))
               (get gold_ ("offset" +:+ "_trigger"))
               (get pred_ ("offset" +:+ "_trigger"));
     ts <-! count (for_string (EventScorer.trigger_metrics ms))
              (get gold_ ("string" +:+ "_trigger"))
              (get pred_ ("string" +:+ "_trigger"));
     Ok (mkAxes tof ts));
  _ <-? warn verbose (EventScorer.trigger_metrics ms) trigger gold pred;
  role <-? quiet
    (rof <-! count (for_offset (EventScorer.role_metrics ms))
               (get gold_ ("offset" +:+ "_role"))
               (get pred_ ("offset" +:+ "_role"));
     rs <-! count (for_string (EventScorer.role_metrics ms))
              (get gold_ ("string" +:+ "_role"))
              (get pred_ ("string" +:+ "_role"));
     Ok (mkAxes rof rs));
  _ <-? warn verbose (EventScorer.role_metrics ms) role gold pred;
  inr (EventScorer.mkEventMetrics trigger role).

Definition run (verbose : bool) (mm : MatchMode)
  (gold_instance_list pred_instance_list : list py_instance)
  : scorer_exn + EventScorer.event_metrics :=
  for_py_pairs (count_pair verbose)
    (EventScorer.mkEventMetrics (fresh_axes mm) (fresh_axes mm))
    (zip pred_instance_list gold_instance_list).

(** [EventScorer.eval_instance_list] *)
Definition eval_instance_list (verbose : bool) (mm : MatchMode)
  (gold_instance_list pred_instance_list : list py_instance)
  : scorer_exn + gmap string Qc :=
  ms <-? run verbose mm gold_instance_list pred_instance_list;
  quiet (EventScorer.results ms).

End VerboseEventScorer.

(** No subscript of [warning_tp_increment] fails on the instance. *)
Definition warnable (d : py_instance) : Prop :=
  subscript_ok d "offset" = true ∧ subscript_ok d "string" = true.

(** ** Sequences of calls *)

(** The accumulator after a sequence of [count_instance] calls on one
    object; the caller goes on after a call that raised, and what that call
    had already added stays. *)
Fixpoint after_calls {G} (count_instance : Metric -> G -> G -> Metric * option exn)
  (self : Metric) (calls : list (G * G)) : Metric :=
  match calls with
  | [] => self
  | (gold_list, pred_list) :: rest =>
      after_calls count_instance (count_instance self gold_list pred_list).1 rest
  end.

(** The number of gold records that are not consumed yet. *)
Fixpoint count_true (non_found : list bool) : nat :=
  match non_found with
  | [] => 0
  | b :: l => (if b then 1 else 0) + count_true l
  end.

(** The four accumulators of [RelationScorer.eval_instance_list] were all
    built with the same [match_mode]. *)
Definition relation_modes (mm : MatchMode)
  (ms : RelationScorer.relation_metrics) : Prop :=
  match_mode (for_offset (RelationScorer.metrics ms)) = mm
  ∧ match_mode (for_string (RelationScorer.metrics ms)) = mm
  ∧ match_mode (for_offset (RelationScorer.boundary_metrics ms)) = mm
  ∧ match_mode (for_string (RelationScorer.boundary_metrics ms)) = mm.

(** Every tuple of every axis of the instance is a 5-tuple, as
    [RelationScorer.load_gold_list] builds them. *)
Definition five_tuples (inst : instance) : Prop :=
  ∀ key, Forall (λ x : item, length x = 5%nat) (get inst key).

(** What one call that passes the arity assertion adds to [tp] in
    ['normal'] and ['multimatch'] mode. *)
Definition tp_increment (mm : MatchMode) (gold_list pred_list : list item)
  : nat :=
  match mm with
  | ModeMultimatch => length (filter (λ x, x ∈ gold_list) pred_list)
  | _ => size (list_to_set_disj pred_list ∩ list_to_set_disj gold_list
               : gmultiset item)
  end.

(** ** Example data *)

(** The tuple [("PER", "a")]. *)
Definition PER_a : item := [AStr "PER"; AStr "a"].

(** An event record on the text axis. *)
Definition attack_record : record string :=
  mkRecord "Attack" "fired" [("Attacker", "Bob"); ("Target", "Al")].

(** The same event with its two arguments in the other order. *)
Definition attack_record_swapped : record string :=
  mkRecord "Attack" "fired" [("Target", "Al"); ("Attacker", "Bob")].

(** Two gold relations between the same two spans, with different
    argument-type labels, on the offset axis. *)
Definition rel_per_org : item :=
  [AStr "REL"; AStr "PER"; AOff [0; 1]; AStr "ORG"; AOff [2; 3]].

Definition rel_org_per : item :=
  [AStr "REL"; AStr "ORG"; AOff [0; 1]; AStr "PER"; AOff [2; 3]].

(** A store with the gold list [[("PER","a"), ("PER","a")]] at location 1
    and the predicted list [[("PER","a")]] at location 2. *)
Definition two_lists : gmap loc pyobj :=
  <[2%positive := PyList [PER_a]]>
    (<[1%positive := PyList [PER_a; PER_a]]> ∅).

(** ** Predictions as they arrive: lists and tuples *)

(** The values a raw prediction is made of: [str], [int], [list] and
    [tuple]; other values ([float], [None], [dict], ..) do not occur in the
    predictions the scorers are given.  A [str] is a sequence of
    one-character strings; its characters are those of the Rocq string, one
    per byte, which are Python's for ASCII text. *)
#[local] Unset Elimination Schemes.
Inductive pyval :=
| PStr (s : string)
| PInt (z : Z)
| PList (l : list pyval)
| PTuple (l : list pyval).
#[local] Set Elimination Schemes.

(** The items of a [str] as a sequence. *)
Definition chars (s : string) : list pyval :=
  (λ c, PStr (String c EmptyString)) <$> String.list_ascii_of_string s.

(** [tuple_offset] on a raw value: [tuple(offset)] raises [TypeError] on a
    value that is not iterable. *)
Definition tuple_offset_raw (offset : pyval) : res pyval :=
  match offset with
  | PTuple _ => Ok offset
  | PList l => Ok (PTuple l)
  | PStr s => Ok (PTuple (chars s))
  | PInt _ => Raise TypeError
  end.

(** [x[i]] *)
Definition subscript (x : pyval) (i : nat) : res pyval :=
  match x with
  | PList l | PTuple l =>
      match l !! i with Some v => Ok v | None => Raise IndexError end
  | PStr s =>
      match chars s !! i with Some v => Ok v | None => Raise IndexError end
  | PInt _ => Raise TypeError
  end.

(** [x[i] = v]: only a list supports item assignment. *)
Definition assign (x : pyval) (i : nat) (v : pyval) : res pyval :=
  match x with
  | PList l =>
      if decide (i < length l)%nat then Ok (PList (<[i := v]> l))
      else Raise IndexError
  | _ => Raise TypeError
  end.

(** [if not isinstance(offset_pred[i], tuple):
       offset_pred[i] = tuple_offset(offset_pred[i])]; the result is
    [offset_pred] as the statement leaves it. *)
Definition normalise_field (i : nat) (offset_pred : pyval) : res pyval :=
  x <-! subscript offset_pred i;
  match x with
  | PTuple _ => Ok offset_pred
  | _ => t <-! tuple_offset_raw x; assign offset_pred i t
  end.

(** A raw predicted example [{'offset': [..], 'string': [..]}]; its entries
    are objects of their own, as after [json.loads].  The loaders update
    the dict they are given and return it; [load_pred] returns the dict as
    it is updated. *)
Record raw_pred := mkRawPred {
  raw_offset : list pyval;
  raw_string : list pyval;
}.

Module EntityPredLoader.

(** The body of [for pred in pred_list] of [EntityScorer.load_pred_list]:
    the loop over [pred['offset']], then the two list comprehensions. *)
Definition load_pred (pred : raw_pred) : res raw_pred :=
  offset <-! res_mapM (normalise_field 1) (raw_offset pred);
  offset <-! res_mapM tuple_offset_raw offset;
  string <-! res_mapM tuple_offset_raw (raw_string pred);
  Ok (mkRawPred offset string).

(** [EntityScorer.load_pred_list] *)
Definition load_pred_list (pred_list : list raw_pred) : res (list raw_pred) :=
  res_mapM load_pred pred_list.

End EntityPredLoader.

Module RelationPredLoader.

(** The body of [for pred in pred_list] of
    [RelationScorer.load_pred_list]. *)
Definition load_pred (pred : raw_pred) : res raw_pred :=
  offset <-! res_mapM
               (λ offset_pred,
                  offset_pred <-! normalise_field 2 offset_pred;
                  normalise_field 4 offset_pred)
               (raw_offset pred);
  offset <-! res_mapM tuple_offset_raw offset;
  string <-! res_mapM tuple_offset_raw (raw_string pred);
  Ok (mkRawPred offset string).

(** [RelationScorer.load_pred_list] *)
Definition load_pred_list (pred_list : list raw_pred) : res (list raw_pred) :=
  res_mapM load_pred pred_list.

End RelationPredLoader.

(** The Python value of a field and of a comparable tuple of the scorers. *)
Definition atom_value (a : atom) : pyval :=
  match a with
  | AStr s => PStr s
  | AOff o => PTuple (PInt <$> o)
  end.

Definition item_value (x : item) : pyval := PTuple (atom_value <$> x).

(** A value that [json.loads] can have made of the dump of a field: the
    tuples have become lists. *)
Definition atom_json (a : atom) : pyval :=
  match a with
  | AStr s => PStr s
  | AOff o => PList (PInt <$> o)
  end.

Definition item_json (x : item) : pyval := PList (atom_json <$> x).

(** The prediction [{'offset': [..], 'string': [..]}] whose entries are the
    tuples of the two lists, written with [to_py]. *)
Definition raw_pred_of (to_py : item → pyval)
  (axes : list item * list item) : raw_pred :=
  mkRawPred (to_py <$> axes.1) (to_py <$> axes.2).

(** The two axes of an instance that has the keys ['offset'] and
    ['string'].  Without one of them there is [None]: the dict that
    [json.loads] makes of its dump lacks the key as well, and the
    subscripts [pred['offset']] and [pred['string']] of [load_pred_list]
    need both. *)
Definition axes_of (inst : instance) : option (list item * list item) :=
  o ← inst !! "offset"; s ← inst !! "string"; Some (o, s).

(** The fields of [x] that are offsets are those at [positions]. *)
Definition offsets_at (positions : list nat) (x : item) : Prop :=
  ∀ i, match x !! i with
       | Some (AOff _) => i ∈ positions
       | _ => i ∉ positions
       end.

(** [y] is a list or a tuple whose field [i] is a tuple. *)
Definition tuple_at (i : nat) (y : pyval) : Prop :=
  ∃ l tl, (y = PList l ∨ y = PTuple l) ∧ l !! i = Some (PTuple tl).

(** The list [item_json x] holds once the fields at [done] have been made
    tuples. *)
Definition mixed (done : list nat) (x : item) : list pyval :=
  imap (λ i a, if decide (i ∈ done) then atom_value a else atom_json a) x.

(** ** Label trees ([utils/label_tree.py]) *)

Module LabelTree.

(** A node of the tree of sub-tokens: a dict whose [int] keys are token ids
    and hold the child dicts, and whose only other key is [end_symbol] (a
    [str], ['<end>'] by default), which holds [None].  [has_end] says
    whether [end_symbol] is a key. *)
#[local] Unset Elimination Schemes.
Inductive token_tree := TokenTree {
  has_end : bool;
  children : gmap Z token_tree;
}.
#[local] Set Elimination Schemes.

(** [dict()] *)
Definition empty_tree : token_tree := TokenTree false ∅.

(** [len(tree)] *)
Definition tree_len (tree : token_tree) : nat :=
  (size (children tree) + (if has_end tree then 1 else 0))%nat.

(** [d[key] = v] on a dict kept as the list of its items: a key that is
    present keeps its place. *)
Fixpoint dict_set {A} (d : list (string * A)) (key : string) (v : A)
  : list (string * A) :=
  match d with
  | [] => [(key, v)]
  | (k, w) :: d' =>
      if decide (k = key) then (k, v) :: d' else (k, w) :: dict_set d' key v
  end.

(** The walk [for value in sub_label_seq] from [parent] and the final
    [parent[end_symbol] = None], as the tree it leaves behind: the child
    dicts are shared with nothing else, so that writing into the node the
    walk ends at is rebuilding the path to it. *)
Fixpoint add_label (sub_label_seq : list Z) (parent : token_tree)
  : token_tree :=
  match sub_label_seq with
  | [] => TokenTree true (children parent)
  | value :: rest =>
      let child := default empty_tree (children parent !! value) in
      TokenTree (has_end parent)
        (<[value := add_label rest child]> (children parent))
  end.

Section Tokenizer.

(** [tokenizer.encode(typename, add_special_tokens=False)] *)
Variable encode : string → list Z.

(** [get_label_name_tree] *)
Definition get_label_name_tree (label_name_list : list string) : token_tree :=
  let label_tree :=
    fold_left (λ label_tree typename,
                 dict_set label_tree typename (encode typename))
      label_name_list [] in
  fold_left (λ sub_token_tree '(_, sub_label_seq),
               add_label sub_label_seq sub_token_tree)
    label_tree empty_tree.

(** The exceptions of the two subscripts of [get_type_role_tree]. *)
Inductive subscript_error := IndexError | KeyError.

(** [sub_token_tree.update({role_token[0]: role_tree[role_token[0]]})]: the
    key is evaluated first. *)
Definition add_role (role_tree : token_tree)
  (sub_token_tree : gmap Z token_tree) (role : string)
  : subscript_error + gmap Z token_tree :=
  match encode role with
  | [] => inl IndexError
  | role_token_0 :: _ =>
      match children role_tree !! role_token_0 with
      | None => inl KeyError
      | Some t => inr (<[role_token_0 := t]> sub_token_tree)
      end
  end.

(** [for role in role_list] *)
Fixpoint add_roles (role_tree : token_tree)
  (sub_token_tree : gmap Z token_tree) (role_list : list string)
  : subscript_error + gmap Z token_tree :=
  match role_list with
  | [] => inr sub_token_tree
  | role :: rest =>
      match add_role role_tree sub_token_tree role with
      | inl e => inl e
      | inr sub_token_tree => add_roles role_tree sub_token_tree rest
      end
  end.

(** [for typename, role_list in type_role_dict.items()], from the items
    that are left and the [type_role_tree] built so far. *)
Fixpoint add_types (items : list (string * list string))
  (role_tree : token_tree) (type_role_tree : gmap (list Z) token_tree)
  : subscript_error + gmap (list Z) token_tree :=
  match items with
  | [] => inr type_role_tree
  | (typename, role_list) :: rest =>
      let typetoken := encode typename in
      match add_roles role_tree ∅ role_list with
      | inl e => inl e
      | inr sub_token_tree =>
          add_types rest role_tree
            (<[typetoken := TokenTree false sub_token_tree]> type_role_tree)
      end
  end.

(** [get_type_role_tree]; [type_role_dict] is given by its items. *)
Definition get_type_role_tree (type_role_dict : list (string * list string))
  (role_tree : token_tree) : subscript_error + gmap (list Z) token_tree :=
  add_types type_role_dict role_tree ∅.

End Tokenizer.

(** [PrefixTree.is_end_of_tree] *)
Definition is_end_of_tree (tree : token_tree) : bool :=
  bool_decide (tree_len tree = 1%nat) && has_end tree.

(** The node reached from [tree] by the lookups [tree[t1][t2]..]. *)
Fixpoint walk (seq : list Z) (tree : token_tree) : option token_tree :=
  match seq with
  | [] => Some tree
  | value :: rest => children tree !! value ≫= walk rest
  end.

(** [seq] leads to a node that holds [end_symbol]. *)
Definition accepts (tree : token_tree) (seq : list Z) : Prop :=
  ∃ node, walk seq tree = Some node ∧ has_end node = true.

End LabelTree.

(** A stand-in for a tokenizer: one token per character, its code. *)
Definition char_codes (s : string) : list Z :=
  (λ c, Z.of_N (Ascii.N_of_ascii c)) <$> String.list_ascii_of_string s.

(** ** Proof automation *)

(** An entry of one of the six-entry maps is an entry of their union. *)
Ltac solve_entries :=
  apply map_subseteq_spec; intros ? ? Hk;
  repeat (apply lookup_insert_Some in Hk as [[<- <-]|[_ Hk]];
          [by vm_compute|]);
  by rewrite lookup_empty in Hk.

(** * Properties *)

(** ** [list.remove] *)

Lemma list_remove_None (x : item) (l : list item) :
  list_remove x l = None ↔ x ∉ l.
Proof.
  induction l as [|y l IH]; simpl.
  - split; [intros _; apply not_elem_of_nil | done].
  - destruct (decide (x = y)) as [->|Hne].
    + split; [done | intros []; left].
    + rewrite not_elem_of_cons. destruct (list_remove x l); simpl.
      * split; [done | intros [_ Hl]; by apply IH in Hl].
      * split; [intros _; split; [done | by apply IH] | done].
Qed.

Lemma list_remove_first (x : item) (l : list item) :
  x ∈ l →
  ∃ l1 l2, l = l1 ++ (x :: l2) ∧ (x ∉ l1) ∧ list_remove x l = Some (l1 ++ l2).
Proof.
  induction l as [|y l IH]; intros Hin.
  - by apply elem_of_nil in Hin.
  - simpl. destruct (decide (x = y)) as [->|Hne].
    + exists [], l. split_and!; [done | apply not_elem_of_nil | done].
    + apply elem_of_cons in Hin as [?|Hin]; [done|].
      destruct (IH Hin) as (l1 & l2 & -> & Hl1 & ->).
      exists (y :: l1), l2. split_and!; [done | | done].
      rewrite not_elem_of_cons. done.
Qed.

Lemma list_remove_disj (x : item) (l k : list item) :
  list_remove x l = Some k →
  list_to_set_disj l =@{gmultiset item} {[+ x +]} ⊎ list_to_set_disj k.
Proof.
  revert k. induction l as [|y l IH]; intros k; simpl; [done|].
  destruct (decide (x = y)) as [->|Hne].
  - by intros [= ->].
  - destruct (list_remove x l) as [l'|]; simpl; [|done].
    intros [= <-]. rewrite (IH l' eq_refl). simpl. multiset_solver.
Qed.

Lemma list_remove_sublist (x : item) (l k : list item) :
  list_remove x l = Some k → k `sublist_of` l.
Proof.
  revert k. induction l as [|y l IH]; intros k; simpl; [done|].
  destruct (decide (x = y)) as [->|Hne].
  - intros [= ->]. by apply sublist_cons.
  - destruct (list_remove x l) as [l'|]; simpl; [|done].
    intros [= <-]. by apply sublist_skip, IH.
Qed.

Lemma size_list_to_set_disj (l : list item) :
  size (list_to_set_disj l : gmultiset item) = length l.
Proof.
  induction l as [|x l IH].
  - apply (gmultiset_size_empty (A := item)).
  - rewrite list_to_set_disj_cons, gmultiset_size_disj_union.
    rewrite gmultiset_size_singleton, IH. done.
Qed.

(** ** The accumulator *)

Lemma add_tp_add_tp (self : Metric) (n k : Z) :
  Metric.add_tp (Metric.add_tp self n) k = Metric.add_tp self (n + k).
Proof. unfold Metric.add_tp; simpl. f_equal. lia. Qed.

Lemma add_tp_0 (self : Metric) : Metric.add_tp self 0 = self.
Proof. destruct self. unfold Metric.add_tp; simpl. f_equal. lia. Qed.

(** [normal] mode: the loop adds to [tp] the size of the intersection of
    the two lists as multisets, leaves the working copy with the
    predictions taken out of it, and never raises. *)
Lemma match_loop_normal (pred_list dup : list item) (self : Metric) :
  match_mode self = ModeNormal →
  ∃ dup',
    Metric.match_loop pred_list dup self
    = (Metric.add_tp self
         (Z.of_nat (size (list_to_set_disj pred_list ∩ list_to_set_disj dup
                          : gmultiset item))),
       dup', None)
    ∧ list_to_set_disj dup'
      =@{gmultiset item} list_to_set_disj dup ∖ list_to_set_disj pred_list.
Proof.
  revert dup self.
  induction pred_list as [|x p IH]; intros dup self Hmode; simpl.
  - exists dup. split; [|multiset_solver].
    replace (∅ ∩ list_to_set_disj dup : gmultiset item) with
      (∅ : gmultiset item) by multiset_solver.
    by rewrite gmultiset_size_empty, add_tp_0.
  - case_bool_decide as Hin.
    + rewrite Hmode.
      destruct (list_remove_first x dup Hin) as (l1 & l2 & Hd & _ & Hrm).
      rewrite Hrm.
      destruct (IH (l1 ++ l2) (Metric.add_tp self 1) Hmode) as (d' & -> & Hd').
      exists d'. pose proof (list_remove_disj _ _ _ Hrm) as HD.
      split.
      * rewrite add_tp_add_tp. do 3 f_equal.
        replace (({[+ x +]} ⊎ list_to_set_disj p) ∩ list_to_set_disj dup
                 : gmultiset item)
          with ({[+ x +]} ⊎ (list_to_set_disj p ∩ list_to_set_disj (l1 ++ l2))
                : gmultiset item)
          by (rewrite HD; multiset_solver).
        rewrite gmultiset_size_disj_union, gmultiset_size_singleton. lia.
      * rewrite Hd', HD. multiset_solver.
    + destruct (IH dup self Hmode) as (d' & -> & Hd').
      exists d'.
      assert (x ∉@{gmultiset item} list_to_set_disj dup) as Hx.
      { by rewrite elem_of_list_to_set_disj. }
      apply not_elem_of_multiplicity in Hx.
      split.
      * do 5 f_equal. apply gmultiset_eq; intros y.
        rewrite !multiplicity_intersection, multiplicity_disj_union.
        rewrite multiplicity_singleton. case_decide; subst; lia.
      * rewrite Hd'. apply gmultiset_eq; intros y.
        rewrite !multiplicity_difference, multiplicity_disj_union.
        rewrite multiplicity_singleton. case_decide; subst; lia.
Qed.

(** The working copy only ever loses elements. *)
Lemma match_loop_sublist (pred_list dup : list item) (self : Metric) :
  (Metric.match_loop pred_list dup self).1.2 `sublist_of` dup.
Proof.
  revert dup self. induction pred_list as [|x p IH]; intros dup self; simpl.
  - done.
  - case_bool_decide; [|apply IH]. simpl.
    destruct (match_mode self); [apply IH| |apply IH].
    destruct (list_remove x dup) as [d|] eqn:Hrm; [|done].
    etrans; [apply IH | by eapply list_remove_sublist].
Qed.

(** [multimatch] mode: the working copy is never changed, and [tp] grows
    by the number of predictions that occur in it. *)
Lemma match_loop_multimatch (pred_list dup : list item) (self : Metric) :
  match_mode self = ModeMultimatch →
  Metric.match_loop pred_list dup self
  = (Metric.add_tp self
       (Z.of_nat (length (filter (λ x, x ∈ dup) pred_list))), dup, None).
Proof.
  revert self. induction pred_list as [|x p IH]; intros self Hmode; simpl.
  - by rewrite add_tp_0.
  - rewrite filter_cons. case_bool_decide as Hin.
    + rewrite Hmode, decide_True by done.
      rewrite IH by done. rewrite add_tp_add_tp. simpl length.
      do 3 f_equal. lia.
    + rewrite decide_False by done. by apply IH.
Qed.

(** ** [compute_f1] *)

Lemma safe_div_Ok (a b : Qc) :
  Metric.safe_div a b = Ok (if decide (b = 0%Qc) then 0%Qc else (a / b)%Qc).
Proof.
  unfold Metric.safe_div, Metric.py_truediv. by repeat case_decide.
Qed.

Lemma key_ne (prefix s1 s2 : string) :
  s1 ≠ s2 → prefix +:+ s1 ≠ prefix +:+ s2.
Proof. intros Hne Heq. by apply (inj (String.app prefix)) in Heq. Qed.

(** [compute_f1] never raises; its result, written out. *)
Lemma compute_f1_Ok (self : Metric) (prefix : string) :
  let t := Metric.of_count (tp self) in
  let n := Metric.of_count (pred_num self) in
  let g := Metric.of_count (gold_num self) in
  let p := if decide (n = 0%Qc) then 0%Qc else (t / n)%Qc in
  let r := if decide (g = 0%Qc) then 0%Qc else (t / g)%Qc in
  let f := if decide ((p + r)%Qc = 0%Qc) then 0%Qc
           else (Metric.of_count 2 * p * r / (p + r))%Qc in
  Metric.compute_f1 self prefix
  = Ok (<[prefix +:+ "F1" := (f * Metric.of_count 100)%Qc]>
        (<[prefix +:+ "R" := (r * Metric.of_count 100)%Qc]>
         (<[prefix +:+ "P" := (p * Metric.of_count 100)%Qc]>
          (<[prefix +:+ "pred" := n]>
           (<[prefix +:+ "gold" := g]>
            (<[prefix +:+ "tp" := t]> ∅)))))).
Proof.
  intros. unfold Metric.compute_f1. rewrite !safe_div_Ok. simpl.
  rewrite safe_div_Ok. done.
Qed.

(** C5. [Metric.compute_f1(prefix)] never raises and returns a mapping with
    exactly the six keys [prefix+'tp'], [prefix+'gold'], [prefix+'pred'],
    [prefix+'P'], [prefix+'R'], [prefix+'F1'].  The three counts are stored
    as they are; [P = 100*tp/pred_num] and [R = 100*tp/gold_num], each 0
    when its denominator is 0; [F1 = 100*2pr/(p+r)] for the unscaled ratios
    [p] and [r], and 0 when [p + r = 0]. *)
Theorem compute_f1_six_keys (self : Metric) (prefix : string) :
  let t := Metric.of_count (tp self) in
  let n := Metric.of_count (pred_num self) in
  let g := Metric.of_count (gold_num self) in
  let p := if decide (n = 0%Qc) then 0%Qc else (t / n)%Qc in
  let r := if decide (g = 0%Qc) then 0%Qc else (t / g)%Qc in
  ∃ m : gmap string Qc,
    Metric.compute_f1 self prefix = Ok m
    ∧ dom m = {[ prefix +:+ "tp"; prefix +:+ "gold"; prefix +:+ "pred";
                 prefix +:+ "P"; prefix +:+ "R"; prefix +:+ "F1" ]}
    ∧ size m = 6%nat
    ∧ m !! (prefix +:+ "tp") = Some t
    ∧ m !! (prefix +:+ "gold") = Some g
    ∧ m !! (prefix +:+ "pred") = Some n
    ∧ m !! (prefix +:+ "P")
      = Some (if decide (n = 0%Qc) then 0%Qc
              else (Metric.of_count 100 * t / n)%Qc)
    ∧ m !! (prefix +:+ "R")
      = Some (if decide (g = 0%Qc) then 0%Qc
              else (Metric.of_count 100 * t / g)%Qc)
    ∧ m !! (prefix +:+ "F1")
      = Some (if decide ((p + r)%Qc = 0%Qc) then 0%Qc
              else (Metric.of_count 100 * (Metric.of_count 2 * p * r)
                    / (p + r))%Qc).
Proof.
  intros t n g p r. eexists. split; [apply compute_f1_Ok|].
  fold t n g p r.
  split; [rewrite !dom_insert_L, dom_empty_L; set_solver|].
  split.
  { rewrite !map_size_insert_None, map_size_empty; [done|..];
      rewrite ?lookup_insert_ne by (apply key_ne; discriminate); apply lookup_empty. }
  repeat split.
  - rewrite !lookup_insert_ne by (apply key_ne; discriminate). apply lookup_insert_eq.
  - rewrite !lookup_insert_ne by (apply key_ne; discriminate). apply lookup_insert_eq.
  - rewrite !lookup_insert_ne by (apply key_ne; discriminate). apply lookup_insert_eq.
  - rewrite !lookup_insert_ne by (apply key_ne; discriminate). rewrite lookup_insert_eq.
    f_equal. subst p. case_decide; [ring | field; done].
  - rewrite !lookup_insert_ne by (apply key_ne; discriminate). rewrite lookup_insert_eq.
    f_equal. subst r. case_decide; [ring | field; done].
  - rewrite lookup_insert_eq. f_equal. case_decide; [ring | field; done].
Qed.

(** ** [Metric.count_instance], mode by mode *)

Lemma count_instance_set (self : Metric) (gold_list pred_list : list item) :
  match_mode self = ModeSet →
  Metric.count_instance self gold_list pred_list
  = (mkMetric
       (tp self + Z.of_nat (size (list_to_set gold_list ∩ list_to_set pred_list
                                  : gset item)))
       (gold_num self + Z.of_nat (size (list_to_set gold_list : gset item)))
       (pred_num self + Z.of_nat (size (list_to_set pred_list : gset item)))
       ModeSet, None).
Proof.
  intros Hm. unfold Metric.count_instance. rewrite Hm.
  unfold Metric.add_tp, Metric.add_pred_num, Metric.add_gold_num; simpl.
  by rewrite Hm.
Qed.

Lemma count_instance_normal (self : Metric) (gold_list pred_list : list item) :
  match_mode self = ModeNormal →
  Metric.same_arity gold_list pred_list = true →
  Metric.count_instance self gold_list pred_list
  = (mkMetric
       (tp self + Z.of_nat (size (list_to_set_disj pred_list
                                  ∩ list_to_set_disj gold_list
                                  : gmultiset item)))
       (gold_num self + Z.of_nat (length gold_list))
       (pred_num self + Z.of_nat (length pred_list))
       ModeNormal, None).
Proof.
  intros Hm Ha. unfold Metric.count_instance. rewrite Hm, Ha.
  edestruct (match_loop_normal pred_list gold_list) as (d' & -> & _);
    [|unfold Metric.add_tp; simpl; by rewrite Hm].
  done.
Qed.

Lemma count_instance_multimatch (self : Metric)
  (gold_list pred_list : list item) :
  match_mode self = ModeMultimatch →
  Metric.same_arity gold_list pred_list = true →
  Metric.count_instance self gold_list pred_list
  = (mkMetric
       (tp self
        + Z.of_nat (length (filter (λ x, x ∈ gold_list) pred_list)))
       (gold_num self + Z.of_nat (length gold_list))
       (pred_num self + Z.of_nat (length pred_list))
       ModeMultimatch, None).
Proof.
  intros Hm Ha. unfold Metric.count_instance. rewrite Hm, Ha.
  rewrite match_loop_multimatch by done.
  unfold Metric.add_tp; simpl; by rewrite Hm.
Qed.

Lemma count_instance_arity (self : Metric) (gold_list pred_list : list item) :
  match_mode self ≠ ModeSet →
  Metric.same_arity gold_list pred_list = false →
  Metric.count_instance self gold_list pred_list
  = (mkMetric (tp self)
       (gold_num self + Z.of_nat (length gold_list))
       (pred_num self + Z.of_nat (length pred_list))
       (match_mode self), Some AssertionError).
Proof.
  intros Hm Ha. unfold Metric.count_instance. rewrite Ha.
  unfold Metric.add_pred_num, Metric.add_gold_num; simpl.
  by destruct (match_mode self).
Qed.

(** The only exception of [Metric.count_instance] is the failed
    assertion. *)
Lemma count_instance_exn (self : Metric) (gold_list pred_list : list item)
  (e : exn) :
  (Metric.count_instance self gold_list pred_list).2 = Some e →
  e = AssertionError.
Proof.
  destruct (Metric.same_arity gold_list pred_list) eqn:Ha;
    destruct (match_mode self) eqn:Hm.
  - by rewrite count_instance_set.
  - by rewrite count_instance_normal.
  - by rewrite count_instance_multimatch.
  - by rewrite count_instance_set.
  - rewrite count_instance_arity by (done || congruence). by intros [= <-].
  - rewrite count_instance_arity by (done || congruence). by intros [= <-].
Qed.

(** What one call adds, whether it returns or raises. *)
Lemma count_instance_step (self : Metric) (gold_list pred_list : list item) :
  let self' := (Metric.count_instance self gold_list pred_list).1 in
  match_mode self' = match_mode self
  ∧ tp self ≤ tp self'
  ∧ gold_num self ≤ gold_num self'
  ∧ tp self' - tp self ≤ pred_num self' - pred_num self
  ∧ (match_mode self ≠ ModeMultimatch →
     tp self' - tp self ≤ gold_num self' - gold_num self).
Proof.
  destruct (Metric.same_arity gold_list pred_list) eqn:Ha;
    destruct (match_mode self) eqn:Hm; simpl;
    try (rewrite count_instance_arity by (done || congruence); simpl;
         split_and!; try done; lia).
  - rewrite count_instance_set by done; simpl.
    pose proof (subseteq_size
      (list_to_set gold_list ∩ list_to_set pred_list : gset item)
      (list_to_set gold_list)) as H1.
    pose proof (subseteq_size
      (list_to_set gold_list ∩ list_to_set pred_list : gset item)
      (list_to_set pred_list)) as H2.
    split_and!; try done; try lia.
    + specialize (H2 ltac:(set_solver)). lia.
    + specialize (H1 ltac:(set_solver)). lia.
  - rewrite count_instance_normal by done; simpl.
    pose proof (gmultiset_subseteq_size
      (list_to_set_disj pred_list ∩ list_to_set_disj gold_list
       : gmultiset item) (list_to_set_disj pred_list)) as H1.
    pose proof (gmultiset_subseteq_size
      (list_to_set_disj pred_list ∩ list_to_set_disj gold_list
       : gmultiset item) (list_to_set_disj gold_list)) as H2.
    rewrite size_list_to_set_disj in H1, H2.
    split_and!; try done; try lia.
    + specialize (H1 ltac:(multiset_solver)). lia.
    + specialize (H2 ltac:(multiset_solver)). lia.
  - rewrite count_instance_multimatch by done; simpl.
    pose proof (length_filter (λ x, x ∈ gold_list) pred_list).
    split_and!; try done; lia.
  - rewrite count_instance_set by done; simpl.
    pose proof (subseteq_size
      (list_to_set gold_list ∩ list_to_set pred_list : gset item)
      (list_to_set gold_list)) as H1.
    pose proof (subseteq_size
      (list_to_set gold_list ∩ list_to_set pred_list : gset item)
      (list_to_set pred_list)) as H2.
    split_and!; try done; try lia.
    + specialize (H2 ltac:(set_solver)). lia.
    + specialize (H1 ltac:(set_solver)). lia.
Qed.

(** ** Structural equality of records *)

Section RecordFacts.

Context {V : Type} `{EqDecision V}.
Variable value_ltb : V -> V -> bool.

Implicit Types (gold pred : record V) (l k : list (string * V)).

Lemma length_insert_role (x : string * V) l :
  length (insert_role value_ltb x l) = S (length l).
Proof.
  induction l as [|y l IH]; simpl; [done|].
  destruct (role_ltb value_ltb y x); simpl; by rewrite ?IH.
Qed.

Lemma length_sorted l : length (sorted value_ltb l) = length l.
Proof.
  induction l as [|x l IH]; simpl; [done|].
  by rewrite length_insert_role, IH.
Qed.

Lemma insert_role_Permutation (x : string * V) l :
  insert_role value_ltb x l ≡ₚ x :: l.
Proof.
  induction l as [|y l IH]; simpl; [done|].
  destruct (role_ltb value_ltb y x); [|done].
  rewrite IH. apply Permutation_swap.
Qed.

(** [sorted] rearranges, it neither drops nor adds a pair. *)
Lemma sorted_Permutation l : sorted value_ltb l ≡ₚ l.
Proof.
  induction l as [|x l IH]; simpl; [done|].
  by rewrite insert_role_Permutation, IH.
Qed.

(** The loop over [zip(..)] returns [True] iff the pairs at every common
    position are equal. *)
Lemma roles_agree_spec l k :
  roles_agree (zip l k) = true
  ↔ ∀ i a b, l !! i = Some a → k !! i = Some b → a = b.
Proof.
  revert k. induction l as [|x l IH]; intros [|y k]; simpl;
    try (split; [intros _ i a b; by rewrite ?lookup_nil | done]).
  destruct (decide (x ≠ y)) as [Hne|Heq].
  - split; [done|]. intros Hall. destruct Hne. by apply (Hall 0%nat).
  - apply dec_stable in Heq as ->. rewrite IH. split.
    + intros Hall [|i] a b; simpl; [congruence | apply Hall].
    + intros Hall i a b. apply (Hall (S i)).
Qed.

Lemma roles_agree_eq l k :
  length l = length k → roles_agree (zip l k) = true ↔ l = k.
Proof.
  intros Hlen. rewrite roles_agree_spec. split.
  - intros Hall. apply list_eq_same_length with (length l); [done..|].
    intros i a b _. apply Hall.
  - intros -> i a b. congruence.
Qed.

Lemma record_is_equal_spec gold pred :
  record_is_equal value_ltb gold pred = true
  ↔ r_type gold = r_type pred
    ∧ r_spot gold = r_spot pred
    ∧ length (r_asocs gold) = length (r_asocs pred)
    ∧ (∀ i a b, sorted value_ltb (r_asocs gold) !! i = Some a →
                sorted value_ltb (r_asocs pred) !! i = Some b → a = b).
Proof.
  unfold record_is_equal. repeat case_decide.
  - split; [done | intros (? & _); done].
  - split; [done | intros (_ & ? & _); done].
  - split; [done | intros (_ & _ & ? & _); done].
  - rewrite roles_agree_spec.
    split; [|by intros (_ & _ & _ & ?)].
    intros Hall. by split_and!.
Qed.

(** With equal lengths the pairwise test is equality of the sorted
    lists. *)
Lemma record_is_equal_sorted_eq gold pred :
  record_is_equal value_ltb gold pred = true
  ↔ r_type gold = r_type pred
    ∧ r_spot gold = r_spot pred
    ∧ sorted value_ltb (r_asocs gold) = sorted value_ltb (r_asocs pred).
Proof.
  rewrite record_is_equal_spec. split.
  - intros (? & ? & Hlen & Hall). split_and!; [done..|].
    apply roles_agree_eq; [by rewrite !length_sorted|].
    by apply roles_agree_spec.
  - intros (? & ? & Heq). split_and!; [done..| |].
    + by rewrite <- (length_sorted (r_asocs gold)), Heq, length_sorted.
    + rewrite Heq. intros i a b. congruence.
Qed.

Lemma ordered_record_is_equal_spec gold pred :
  ordered_record_is_equal gold pred = true
  ↔ r_type gold = r_type pred
    ∧ r_spot gold = r_spot pred
    ∧ length (r_asocs gold) = length (r_asocs pred)
    ∧ (∀ i a b, r_asocs gold !! i = Some a →
                r_asocs pred !! i = Some b → a = b).
Proof.
  unfold ordered_record_is_equal. repeat case_decide.
  - split; [done | intros (? & _); done].
  - split; [done | intros (_ & ? & _); done].
  - split; [done | intros (_ & _ & ? & _); done].
  - rewrite roles_agree_spec.
    split; [|by intros (_ & _ & _ & ?)].
    intros Hall. by split_and!.
Qed.

End RecordFacts.

(** ** The scan of [RecordMetric.count_instance] *)

Lemma count_true_replicate (n : nat) : count_true (replicate n true) = n.
Proof. induction n as [|n IH]; simpl; by rewrite ?IH. Qed.

Lemma count_true_consume (non_found : list bool) (i : nat) :
  non_found !! i = Some true →
  S (count_true (<[i := false]> non_found)) = count_true non_found.
Proof.
  revert i. induction non_found as [|b l IH]; intros [|i]; simpl; try done.
  - by intros [= ->].
  - intros Hi. rewrite <- (IH i Hi). lia.
Qed.

Lemma filter_ext_in {A} (P Q : A → Prop) `{!∀ x, Decision (P x)}
  `{!∀ x, Decision (Q x)} (l : list A) :
  (∀ x, x ∈ l → P x ↔ Q x) → filter P l = filter Q l.
Proof.
  induction l as [|x l IH]; intros Hpq; [done|].
  rewrite !filter_cons.
  rewrite IH by (intros y Hy; apply Hpq; by right).
  destruct (decide (P x)) as [HP|HP], (decide (Q x)) as [HQ|HQ]; try done.
  - destruct HQ. apply Hpq; [left | done].
  - destruct HP. apply Hpq; [left | done].
Qed.

Section ScanFacts.

Local Open Scope nat_scope.

Context {V : Type} `{EqDecision V}.
Variable value_ltb : V -> V -> bool.
Variable cls : record_class.

Implicit Types (gold_list : list (record V)) (pred : record V).
Implicit Types (non_found : list bool) (self : Metric).

(** What one scan adds: every increment of [tp] consumes one flag. *)
Lemma scan_gold_step gold_list pred (gold_indexes : list nat) non_found self
  self' non_found' e :
  scan_gold value_ltb cls gold_list pred gold_indexes non_found self
  = (self', non_found', e) →
  match_mode self' = match_mode self
  ∧ gold_num self' = gold_num self
  ∧ pred_num self' = pred_num self
  ∧ length non_found' = length non_found
  ∧ (tp self' + Z.of_nat (count_true non_found')
     = tp self + Z.of_nat (count_true non_found))%Z
  ∧ (tp self ≤ tp self')%Z
  ∧ (match_mode self = ModeNormal → (tp self' ≤ tp self + 1)%Z).
Proof.
  revert non_found self.
  induction gold_indexes as [|i rest IH]; intros non_found self; simpl.
  - intros [= <- <- <-]. split_and!; (done || lia).
  - destruct (non_found !! i) as [[|]|] eqn:Hi;
      [|apply IH|intros [= <- <- <-]; split_and!; (done || lia)].
    destruct (gold_list !! i) as [gold|];
      [|intros [= <- <- <-]; split_and!; (done || lia)].
    destruct (is_equal value_ltb cls gold pred); [|apply IH].
    pose proof (count_true_consume _ _ Hi) as Hc.
    simpl. destruct (match_mode self) eqn:Hm.
    + intros (? & ? & ? & Hl & ? & ? & ?)%IH. simpl in *.
      rewrite length_insert in Hl.
      split_and!; (done || lia || congruence).
    + intros [= <- <- <-]. simpl. rewrite length_insert.
      split_and!; (done || lia).
    + intros (? & ? & ? & Hl & ? & ? & ?)%IH. simpl in *.
      rewrite length_insert in Hl.
      split_and!; (done || lia || congruence).
Qed.

Lemma scan_preds_step gold_list (pred_list : list (record V)) (gold_indexes : list nat)
  non_found self self' non_found' e :
  scan_preds value_ltb cls gold_list pred_list gold_indexes non_found self
  = (self', non_found', e) →
  match_mode self' = match_mode self
  ∧ gold_num self' = gold_num self
  ∧ pred_num self' = pred_num self
  ∧ length non_found' = length non_found
  ∧ (tp self' + Z.of_nat (count_true non_found')
     = tp self + Z.of_nat (count_true non_found))%Z
  ∧ (tp self ≤ tp self')%Z
  ∧ (match_mode self = ModeNormal →
     (tp self' ≤ tp self + Z.of_nat (length pred_list))%Z).
Proof.
  revert non_found self.
  induction pred_list as [|pred rest IH]; intros non_found self; simpl.
  - intros [= <- <- <-]. split_and!; (done || lia || congruence).
  - destruct (scan_gold value_ltb cls gold_list pred gold_indexes
                non_found self) as [[self1 nf1] [e1|]] eqn:Hs;
      apply scan_gold_step in Hs as (Hm & ? & ? & ? & ? & ? & Hn).
    + intros [= <- <- <-]. split_and!; try (done || lia).
      intros Hmode. specialize (Hn Hmode). lia.
    + intros (Hm' & ? & ? & ? & ? & ? & Hn')%IH.
      split_and!; try (congruence || lia).
      intros Hmode. specialize (Hn Hmode).
      rewrite Hm in Hn'. specialize (Hn' Hmode). lia.
Qed.

(** What one call of [RecordMetric.count_instance] adds, whether it
    returns or raises. *)
Lemma record_count_instance_step self (gold_l pred_l : list (record V)) :
  let self' := (record_count_instance value_ltb cls self gold_l pred_l).1 in
  match_mode self' = match_mode self
  ∧ (tp self ≤ tp self')%Z
  ∧ (pred_num self ≤ pred_num self')%Z
  ∧ (tp self' - tp self ≤ gold_num self' - gold_num self)%Z
  ∧ (match_mode self ≠ ModeMultimatch →
     (tp self' - tp self ≤ pred_num self' - pred_num self)%Z).
Proof.
  unfold record_count_instance.
  destruct (match_mode self) eqn:Hm; simpl; [split_and!; (done || lia)|..].
  all: destruct (scan_preds _ _ _ _ _ _ _) as [[self1 nf1] e1] eqn:Hs.
  all: apply scan_preds_step in Hs as (Hm' & Hg & Hp & Hl & Hc & Hle & Hn).
  all: simpl in *; rewrite count_true_replicate in Hc.
  all: split_and!; try (congruence || lia).
  intros _. specialize (Hn Hm). lia.
Qed.

(** No gold record in the scanned range matches: nothing changes. *)
Lemma scan_gold_none gold_list pred non_found self (n k : nat) :
  length non_found = length gold_list →
  k + n ≤ length gold_list →
  (∀ j, k ≤ j < k + n →
        matchable value_ltb cls gold_list pred non_found j = false) →
  scan_gold value_ltb cls gold_list pred (seq k n) non_found self
  = (self, non_found, None).
Proof.
  intros Hlen. revert k. induction n as [|n IH]; intros k Hk Hno; [done|].
  simpl. pose proof (Hno k ltac:(lia)) as Hk0. unfold matchable in Hk0.
  destruct (lookup_lt_is_Some_2 non_found k ltac:(lia)) as [b Hb].
  destruct (lookup_lt_is_Some_2 gold_list k ltac:(lia)) as [g Hg].
  rewrite Hb, Hg in *. destruct b; [rewrite Hk0|];
    apply IH; try lia; intros j Hj; apply Hno; lia.
Qed.

(** [normal] mode: the first matchable gold record is consumed and the
    scan stops there. *)
Lemma scan_gold_normal_first gold_list pred non_found self (n k i : nat) :
  match_mode self = ModeNormal →
  k ≤ i < k + n →
  matchable value_ltb cls gold_list pred non_found i = true →
  (∀ j, k ≤ j < i →
        matchable value_ltb cls gold_list pred non_found j = false) →
  scan_gold value_ltb cls gold_list pred (seq k n) non_found self
  = (Metric.add_tp self 1, <[i := false]> non_found, None).
Proof.
  intros Hm. revert k. induction n as [|n IH]; intros k Hk Hi Hno; [lia|].
  simpl. destruct (decide (k = i)) as [->|Hne].
  - unfold matchable in Hi.
    destruct (non_found !! i) as [[|]|]; try done.
    destruct (gold_list !! i); [|done]. by rewrite Hi, Hm.
  - pose proof (Hno k ltac:(lia)) as Hk0. unfold matchable in Hk0.
    assert (scan_gold value_ltb cls gold_list pred (seq (S k) n) non_found
              self = (Metric.add_tp self 1, <[i := false]> non_found, None))
      as Hrest.
    { apply IH; [lia | done | intros j Hj; apply Hno; lia]. }
    destruct (non_found !! k) as [[|]|] eqn:Hb.
    + destruct (gold_list !! k) eqn:Hg.
      * by rewrite Hk0.
      * unfold matchable in Hi.
        assert (is_Some (gold_list !! i)) as Hsome.
        { destruct (non_found !! i) as [[|]|]; try done.
          destruct (gold_list !! i); [eauto | done]. }
        apply lookup_lt_is_Some in Hsome.
        apply lookup_ge_None in Hg. lia.
    + done.
    + unfold matchable in Hi.
      assert (is_Some (non_found !! i)) as Hsome.
      { destruct (non_found !! i) as [[|]|]; try done; eauto. }
      apply lookup_lt_is_Some in Hsome.
      apply lookup_ge_None in Hb. lia.
Qed.

(** Outside [normal] mode the scan goes on to the end: every matchable
    gold record of the range is consumed and counted. *)
Lemma scan_gold_all gold_list pred non_found self (n k : nat) :
  match_mode self ≠ ModeNormal →
  length non_found = length gold_list →
  k + n ≤ length gold_list →
  ∃ non_found',
    scan_gold value_ltb cls gold_list pred (seq k n) non_found self
    = (Metric.add_tp self
         (Z.of_nat (length (filter
            (λ j, matchable value_ltb cls gold_list pred non_found j = true)
            (seq k n)))),
       non_found', None)
    ∧ length non_found' = length non_found
    ∧ ∀ j, non_found' !! j
           = if decide (k ≤ j < k + n
                        ∧ matchable value_ltb cls gold_list pred non_found j
                          = true)
             then Some false else non_found !! j.
Proof.
  intros Hm. revert k non_found self Hm.
  induction n as [|n IH]; intros k non_found self Hm Hlen Hk.
  - exists non_found. simpl. rewrite add_tp_0. split_and!; [done..|].
    intros j. rewrite decide_False; [done | lia].
  - simpl seq. rewrite filter_cons. simpl scan_gold.
    destruct (lookup_lt_is_Some_2 non_found k ltac:(lia)) as [b Hb].
    destruct (lookup_lt_is_Some_2 gold_list k ltac:(lia)) as [g Hg].
    assert (matchable value_ltb cls gold_list pred non_found k
            = if b then is_equal value_ltb cls g pred else false) as Hmk.
    { unfold matchable. rewrite Hb, Hg. by destruct b. }
    rewrite Hb, Hmk.
    destruct b; [rewrite Hg; destruct (is_equal value_ltb cls g pred) eqn:He|].
    + rewrite decide_True by done.
      assert (match_mode (Metric.add_tp self 1) ≠ ModeNormal) as Hm1 by done.
      destruct (IH (S k) (<[k := false]> non_found) (Metric.add_tp self 1)
                  Hm1) as (nf' & Hs & Hl & Hnf');
        [by rewrite length_insert | lia |].
      assert (∀ j, j ≠ k →
        matchable value_ltb cls gold_list pred (<[k := false]> non_found) j
        = matchable value_ltb cls gold_list pred non_found j) as Hsame.
      { intros j Hj. unfold matchable.
        by rewrite list_lookup_insert_ne. }
      exists nf'. split_and!.
      * simpl match_mode in *. destruct (match_mode self) eqn:Hmode; [|done|];
          rewrite Hs, add_tp_add_tp; simpl length; repeat f_equal;
          (rewrite (filter_ext_in _
             (λ j, matchable value_ltb cls gold_list pred non_found j = true));
           [lia | intros j Hj%elem_of_seq; rewrite Hsame; [done | lia]]).
      * by rewrite Hl, length_insert.
      * intros j. rewrite Hnf'. destruct (decide (j = k)) as [->|Hj].
        -- rewrite decide_False by lia. rewrite decide_True.
           ++ apply list_lookup_insert_eq. lia.
           ++ split; [lia|]. by rewrite Hmk.
        -- rewrite Hsame, list_lookup_insert_ne by done.
           repeat case_decide; try done; exfalso; naive_solver lia.
    + rewrite decide_False by done.
      destruct (IH (S k) non_found self Hm) as (nf' & Hs & Hl & Hnf');
        [done | lia |].
      exists nf'. split_and!; [done..|].
      intros j. rewrite Hnf'. destruct (decide (j = k)) as [->|Hj].
      * rewrite !decide_False; [done | rewrite Hmk; naive_solver | lia].
      * repeat case_decide; try done; exfalso; naive_solver lia.
    + rewrite decide_False by done.
      destruct (IH (S k) non_found self Hm) as (nf' & Hs & Hl & Hnf');
        [done | lia |].
      exists nf'. split_and!; [done..|].
      intros j. rewrite Hnf'. destruct (decide (j = k)) as [->|Hj].
      * rewrite !decide_False; [done | rewrite Hmk; naive_solver | lia].
      * repeat case_decide; try done; exfalso; naive_solver lia.
Qed.

End ScanFacts.

(** ** Bounds on [tp] *)

Lemma after_calls_metric (calls : list (list item * list item)) (self : Metric) :
  let m := after_calls Metric.count_instance self calls in
  match_mode m = match_mode self
  ∧ (tp self ≤ pred_num self → tp m ≤ pred_num m)
  ∧ (match_mode self ≠ ModeMultimatch → tp self ≤ gold_num self →
     tp m ≤ gold_num m).
Proof.
  revert self. induction calls as [|[g p] calls IH]; intros self; simpl.
  - done.
  - destruct (IH (Metric.count_instance self g p).1) as (Hm & Hp & Hg).
    destruct (count_instance_step self g p) as (Hm1 & ? & ? & ? & Hg1).
    simpl in *. rewrite Hm1 in *. split_and!; [done|..].
    + intros ?. apply Hp. lia.
    + intros Hmm ?. apply Hg; [done|]. specialize (Hg1 Hmm). lia.
Qed.

Lemma after_calls_record {V : Type} `{EqDecision V}
  (value_ltb : V → V → bool) (cls : record_class)
  (calls : list (list (record V) * list (record V))) (self : Metric) :
  let m := after_calls (record_count_instance value_ltb cls) self calls in
  match_mode m = match_mode self
  ∧ (tp self ≤ gold_num self → tp m ≤ gold_num m)
  ∧ (match_mode self ≠ ModeMultimatch → tp self ≤ pred_num self →
     tp m ≤ pred_num m).
Proof.
  revert self. induction calls as [|[g p] calls IH]; intros self; simpl.
  - done.
  - destruct (IH (record_count_instance value_ltb cls self g p).1)
      as (Hm & Hg & Hp).
    destruct (record_count_instance_step value_ltb cls self g p)
      as (Hm1 & ? & ? & ? & Hp1).
    simpl in *. rewrite Hm1 in *. split_and!; [done|..].
    + intros ?. apply Hg. lia.
    + intros Hmm ?. apply Hp; [done|]. specialize (Hp1 Hmm). lia.
Qed.

(** C1, as amended.  After any sequence of [count_instance] calls on a
    fresh accumulator, [tp <= min(gold_num, pred_num)] holds in the modes
    ['set'] and ['normal'], for [Metric], [RecordMetric] and
    [OrderedRecordMetric].  In ['multimatch'] mode only one of the two
    bounds is kept: [tp <= pred_num] for [Metric], [tp <= gold_num] for the
    record metrics. *)
Theorem tp_bounded_by_counts (mm : MatchMode) :
  (∀ calls : list (list item * list item),
     let m := after_calls Metric.count_instance (Metric.init mm) calls in
     tp m ≤ pred_num m
     ∧ (mm ≠ ModeMultimatch → tp m ≤ Z.min (gold_num m) (pred_num m)))
  ∧ (∀ (V : Type) (eq_dec : EqDecision V) (value_ltb : V → V → bool)
       (cls : record_class)
       (calls : list (list (record V) * list (record V))),
       let m := after_calls (record_count_instance value_ltb cls)
                  (Metric.init mm) calls in
       tp m ≤ gold_num m
       ∧ (mm ≠ ModeMultimatch → tp m ≤ Z.min (gold_num m) (pred_num m))).
Proof.
  split.
  - intros calls m.
    destruct (after_calls_metric calls (Metric.init mm)) as (_ & Hp & Hg).
    fold m in Hp, Hg. simpl in Hp, Hg. split; [by apply Hp|].
    intros Hmm. apply Z.min_glb; [by apply Hg | by apply Hp].
  - intros V eq_dec value_ltb cls calls m.
    destruct (after_calls_record value_ltb cls calls (Metric.init mm))
      as (_ & Hg & Hp).
    fold m in Hp, Hg. simpl in Hp, Hg. split; [by apply Hg|].
    intros Hmm. apply Z.min_glb; [by apply Hg | by apply Hp].
Qed.

(** The bounds of C1 at concrete calls in ['normal'] mode. *)
Lemma tp_bounded_by_counts_witness :
  tp (after_calls Metric.count_instance (Metric.init ModeNormal)
        [([PER_a; PER_a], [PER_a]); ([PER_a], [PER_a; PER_a])])
  ≤ Z.min
      (gold_num (after_calls Metric.count_instance (Metric.init ModeNormal)
         [([PER_a; PER_a], [PER_a]); ([PER_a], [PER_a; PER_a])]))
      (pred_num (after_calls Metric.count_instance (Metric.init ModeNormal)
         [([PER_a; PER_a], [PER_a]); ([PER_a], [PER_a; PER_a])])).
Proof.
  apply (proj1 (tp_bounded_by_counts ModeNormal)
           [([PER_a; PER_a], [PER_a]); ([PER_a], [PER_a; PER_a])]).
  discriminate.
Defined.

(** C1 as stated fails in ['multimatch'] mode: with gold [[a]] and pred
    [[a, a]] a [Metric] ends with [tp = 2 > gold_num = 1]; with gold
    [[r, r]] and pred [[r]] a [RecordMetric] ends with
    [tp = 2 > pred_num = 1]. *)
Lemma tp_exceeds_min_in_multimatch :
  ¬ (tp (after_calls Metric.count_instance (Metric.init ModeMultimatch)
           [([PER_a], [PER_a; PER_a])])
     ≤ Z.min
         (gold_num (after_calls Metric.count_instance
            (Metric.init ModeMultimatch) [([PER_a], [PER_a; PER_a])]))
         (pred_num (after_calls Metric.count_instance
            (Metric.init ModeMultimatch) [([PER_a], [PER_a; PER_a])])))
  ∧ ¬ (tp (after_calls (RecordMetric.count_instance String.ltb)
             (Metric.init ModeMultimatch)
             [([attack_record; attack_record], [attack_record])])
       ≤ Z.min
           (gold_num (after_calls (RecordMetric.count_instance String.ltb)
              (Metric.init ModeMultimatch)
              [([attack_record; attack_record], [attack_record])]))
           (pred_num (after_calls (RecordMetric.count_instance String.ltb)
              (Metric.init ModeMultimatch)
              [([attack_record; attack_record], [attack_record])]))).
Proof. split; vm_compute; intros Hle; by apply Hle. Qed.

(** ** [set] mode *)

Lemma size_list_to_set_remove_dups (l : list item) :
  size (list_to_set l : gset item) = length (remove_dups l).
Proof.
  rewrite <- (size_list_to_set (C := gset item) (remove_dups l))
    by apply NoDup_remove_dups.
  f_equal. apply set_eq. intros x.
  by rewrite !elem_of_list_to_set, elem_of_remove_dups.
Qed.

Lemma size_intersection_filter (gold_list pred_list : list item) :
  size (list_to_set gold_list ∩ list_to_set pred_list : gset item)
  = length (filter (λ x, x ∈ pred_list) (remove_dups gold_list)).
Proof.
  rewrite <- (size_list_to_set (C := gset item)
                (filter (λ x, x ∈ pred_list) (remove_dups gold_list)))
    by apply NoDup_filter, NoDup_remove_dups.
  f_equal. apply set_eq. intros x.
  rewrite elem_of_intersection, !elem_of_list_to_set, list_elem_of_filter.
  rewrite elem_of_remove_dups. tauto.
Qed.

(** C6. In ['set'] mode [Metric.count_instance] never raises; it adds to
    [gold_num] and [pred_num] the numbers of distinct items of the two
    lists and to [tp] the size of the intersection of the two sets, which
    is the number of distinct gold items that occur among the predictions.
    Lists with the same elements, whatever their multiplicities, give the
    same result. *)
Theorem set_mode_counts_distinct_items (self : Metric)
  (gold_list pred_list : list item) :
  match_mode self = ModeSet →
  Metric.count_instance self gold_list pred_list
  = (mkMetric
       (tp self + Z.of_nat (size (list_to_set gold_list ∩ list_to_set pred_list
                                  : gset item)))
       (gold_num self + Z.of_nat (length (remove_dups gold_list)))
       (pred_num self + Z.of_nat (length (remove_dups pred_list)))
       ModeSet, None)
  ∧ size (list_to_set gold_list ∩ list_to_set pred_list : gset item)
    = length (filter (λ x, x ∈ pred_list) (remove_dups gold_list))
  ∧ ∀ gold_list' pred_list' : list item,
      (∀ x, x ∈ gold_list' ↔ x ∈ gold_list) →
      (∀ x, x ∈ pred_list' ↔ x ∈ pred_list) →
      Metric.count_instance self gold_list' pred_list'
      = Metric.count_instance self gold_list pred_list.
Proof.
  intros Hm. split_and!.
  - rewrite count_instance_set by done.
    by rewrite !size_list_to_set_remove_dups.
  - apply size_intersection_filter.
  - intros g' p' Hg Hp. rewrite !count_instance_set by done.
    assert (list_to_set g' =@{gset item} list_to_set gold_list) as ->.
    { apply set_eq. intros x. by rewrite !elem_of_list_to_set. }
    assert (list_to_set p' =@{gset item} list_to_set pred_list) as ->.
    { apply set_eq. intros x. by rewrite !elem_of_list_to_set. }
    done.
Qed.

(** C6 at gold [[a, a]] and pred [[a]], against the same lists with the
    duplicate dropped and added. *)
Lemma set_mode_counts_distinct_items_witness :
  Metric.count_instance (Metric.init ModeSet) [PER_a] [PER_a; PER_a]
  = Metric.count_instance (Metric.init ModeSet) [PER_a; PER_a] [PER_a].
Proof.
  apply (set_mode_counts_distinct_items (Metric.init ModeSet)
           [PER_a; PER_a] [PER_a] eq_refl).
  - intros x. rewrite !elem_of_cons. tauto.
  - intros x. rewrite !elem_of_cons. tauto.
Defined.

(** ** [normal] and [multimatch] modes *)

(** C3. In ['normal'] mode [Metric.count_instance] matches greedily and
    one to one.  A prediction that occurs in the working copy of the gold
    list adds 1 to [tp] and takes the first element equal to it out of the
    copy; any other prediction changes nothing.  So the call adds the raw
    lengths to [gold_num] and [pred_num], adds to [tp] the size of the
    intersection of the two lists as multisets, and every increment of
    [tp] costs the working copy one element.  With gold
    [[("PER","a"),("PER","a")]] and pred [[("PER","a")]]: [tp = 1],
    [gold_num = 2], [pred_num = 1], [P = 100] and [R = 50]. *)
Theorem normal_mode_greedy_one_to_one :
  (∀ (self : Metric) (pred : item) (rest dup : list item),
     match_mode self = ModeNormal →
     (pred ∉ dup →
      Metric.match_loop (pred :: rest) dup self
      = Metric.match_loop rest dup self)
     ∧ (pred ∈ dup →
        ∃ l1 l2, dup = l1 ++ (pred :: l2) ∧ (pred ∉ l1)
          ∧ Metric.match_loop (pred :: rest) dup self
            = Metric.match_loop rest (l1 ++ l2) (Metric.add_tp self 1)))
  ∧ (∀ (self : Metric) (gold_list pred_list : list item),
       match_mode self = ModeNormal →
       Metric.same_arity gold_list pred_list = true →
       ∃ (n : nat) (dup' : list item),
         Metric.match_loop pred_list gold_list
           (Metric.add_pred_num
              (Metric.add_gold_num self (Z.of_nat (length gold_list)))
              (Z.of_nat (length pred_list)))
         = (mkMetric (tp self + Z.of_nat n)
              (gold_num self + Z.of_nat (length gold_list))
              (pred_num self + Z.of_nat (length pred_list)) ModeNormal,
            dup', None)
         ∧ Metric.count_instance self gold_list pred_list
           = (mkMetric (tp self + Z.of_nat n)
                (gold_num self + Z.of_nat (length gold_list))
                (pred_num self + Z.of_nat (length pred_list)) ModeNormal,
              None)
         ∧ n = size (list_to_set_disj pred_list ∩ list_to_set_disj gold_list
                     : gmultiset item)
         ∧ (n + length dup')%nat = length gold_list
         ∧ dup' `sublist_of` gold_list)
  ∧ Metric.count_instance (Metric.init ModeNormal) [PER_a; PER_a] [PER_a]
    = (mkMetric 1 2 1 ModeNormal, None)
  ∧ ∃ m : gmap string Qc,
      Metric.compute_f1 (mkMetric 1 2 1 ModeNormal) "" = Ok m
      ∧ m !! "P" = Some (Metric.of_count 100)
      ∧ m !! "R" = Some (Metric.of_count 50).
Proof.
  split_and!.
  - intros self pred rest dup Hm. split.
    + intros Hin. simpl. by rewrite bool_decide_eq_false_2.
    + intros Hin. destruct (list_remove_first pred dup Hin)
        as (l1 & l2 & Hd & Hl1 & Hrm).
      exists l1, l2. split_and!; [done..|].
      simpl. by rewrite bool_decide_eq_true_2, Hm, Hrm.
  - intros self gold_list pred_list Hm Ha.
    destruct (match_loop_normal pred_list gold_list
                (Metric.add_pred_num
                   (Metric.add_gold_num self (Z.of_nat (length gold_list)))
                   (Z.of_nat (length pred_list))) Hm) as (dup' & Hl & Hd).
    exists (size (list_to_set_disj pred_list ∩ list_to_set_disj gold_list
                  : gmultiset item)), dup'.
    assert (list_to_set_disj gold_list
            =@{gmultiset item}
            (list_to_set_disj pred_list ∩ list_to_set_disj gold_list)
            ⊎ list_to_set_disj dup') as Hsplit.
    { rewrite Hd. multiset_solver. }
    split_and!.
    + rewrite Hl. unfold Metric.add_tp; simpl. by rewrite Hm.
    + by apply count_instance_normal.
    + done.
    + apply (f_equal size) in Hsplit.
      rewrite gmultiset_size_disj_union, !size_list_to_set_disj in Hsplit.
      done.
    + pose proof (match_loop_sublist pred_list gold_list
                    (Metric.add_pred_num
                       (Metric.add_gold_num self
                          (Z.of_nat (length gold_list)))
                       (Z.of_nat (length pred_list)))) as Hsub.
      by rewrite Hl in Hsub.
  - by vm_compute.
  - rewrite compute_f1_Ok. eexists. split; [reflexivity|].
    split.
    + rewrite !lookup_insert_ne by done. rewrite lookup_insert_eq.
      f_equal; apply Qc_is_canon; by vm_compute.
    + rewrite !lookup_insert_ne by done. rewrite lookup_insert_eq.
      f_equal; apply Qc_is_canon; by vm_compute.
Qed.

(** C4. In ['multimatch'] mode [Metric.count_instance] never removes a
    matched gold element: the working copy leaves the loop as it entered
    it, every prediction that occurs in the gold list adds 1 to [tp], and
    [gold_num] and [pred_num] grow by the raw lengths of the lists.  With
    gold [[("PER","a"),("PER","a")]], pred [[("PER","a")]] gives [tp = 1]
    and pred [[("PER","a"),("PER","a")]] gives [tp = 2]; one gold
    [("PER","a")] serves both of two equal predictions. *)
Theorem multimatch_never_consumes :
  (∀ (self : Metric) (pred_list dup : list item),
     match_mode self = ModeMultimatch →
     Metric.match_loop pred_list dup self
     = (Metric.add_tp self
          (Z.of_nat (length (filter (λ x, x ∈ dup) pred_list))), dup, None))
  ∧ (∀ (self : Metric) (gold_list pred_list : list item),
       match_mode self = ModeMultimatch →
       Metric.same_arity gold_list pred_list = true →
       Metric.count_instance self gold_list pred_list
       = (mkMetric
            (tp self
             + Z.of_nat (length (filter (λ x, x ∈ gold_list) pred_list)))
            (gold_num self + Z.of_nat (length gold_list))
            (pred_num self + Z.of_nat (length pred_list))
            ModeMultimatch, None))
  ∧ Metric.count_instance (Metric.init ModeMultimatch) [PER_a; PER_a] [PER_a]
    = (mkMetric 1 2 1 ModeMultimatch, None)
  ∧ Metric.count_instance (Metric.init ModeMultimatch)
      [PER_a; PER_a] [PER_a; PER_a]
    = (mkMetric 2 2 2 ModeMultimatch, None)
  ∧ Metric.count_instance (Metric.init ModeMultimatch) [PER_a] [PER_a; PER_a]
    = (mkMetric 2 1 2 ModeMultimatch, None).
Proof.
  split_and!; [| |by vm_compute..].
  - intros. by apply match_loop_multimatch.
  - intros. by apply count_instance_multimatch.
Qed.

(** ** Programming errors *)

Lemma load_record_cases (gold_instance : instance) (record : relation) :
  (length (rel_args record) = 2%nat
   ∧ ∃ gi, RelationScorer.load_record gold_instance record = Ok gi)
  ∨ (length (rel_args record) ≠ 2%nat
     ∧ RelationScorer.load_record gold_instance record = Raise AssertionError).
Proof.
  unfold RelationScorer.load_record. case_bool_decide as Hlen.
  - left. split; [done|].
    destruct (rel_args record) as [|a0 [|a1 l]]; try done. eauto.
  - by right.
Qed.

Lemma load_records_cases (gold : list relation) (gold_instance : instance) :
  (Forall (λ record, length (rel_args record) = 2%nat) gold
   ∧ ∃ gi, RelationScorer.load_records gold_instance gold = Ok gi)
  ∨ (Exists (λ record, length (rel_args record) ≠ 2%nat) gold
     ∧ RelationScorer.load_records gold_instance gold = Raise AssertionError).
Proof.
  revert gold_instance.
  induction gold as [|record gold IH]; intros gold_instance; simpl.
  - left. split; [constructor | eauto].
  - destruct (load_record_cases gold_instance record)
      as [(Hlen & gi & ->)|(Hlen & ->)]; simpl.
    + destruct (IH gi) as [(Hall & Hok)|(Hex & Hraise)].
      * left. split; [by constructor | done].
      * right. split; [by apply Exists_cons_tl | done].
    + right. split; [by apply Exists_cons_hd | done].
Qed.

Lemma load_gold_list_cases (gold_list : list (list relation)) :
  (Forall (Forall (λ record, length (rel_args record) = 2%nat)) gold_list
   ∧ ∃ gs, RelationScorer.load_gold_list gold_list = Ok gs)
  ∨ (Exists (Exists (λ record, length (rel_args record) ≠ 2%nat)) gold_list
     ∧ RelationScorer.load_gold_list gold_list = Raise AssertionError).
Proof.
  unfold RelationScorer.load_gold_list.
  induction gold_list as [|gold gold_list IH]; simpl.
  - left. split; [constructor | eauto].
  - destruct (load_records_cases gold ∅) as [(Hall & gi & ->)|(Hex & ->)];
      simpl.
    + destruct IH as [(Hall' & gs & ->)|(Hex & ->)]; simpl.
      * left. split; [by constructor | eauto].
      * right. split; [by apply Exists_cons_tl | done].
    + right. split; [by apply Exists_cons_hd | done].
Qed.

(** C8. The three programming errors fail fast.  In ['normal'] and
    ['multimatch'] mode [Metric.count_instance] raises [AssertionError]
    whenever both lists are non-empty and their first elements differ in
    length, and [tp] is left as it was.  [RelationScorer.load_gold_list]
    raises [AssertionError] as soon as some gold record has a number of
    ['args'] other than 2, and returns otherwise.
    [RecordMetric.count_instance] raises [NotImplementedError] on every
    call in ['set'] mode, for both record classes, and changes nothing. *)
Theorem programming_errors_fail_fast :
  (∀ (self : Metric) (g p : item) (gold_rest pred_rest : list item),
     match_mode self ≠ ModeSet →
     length g ≠ length p →
     (Metric.count_instance self (g :: gold_rest) (p :: pred_rest)).2
     = Some AssertionError
     ∧ tp (Metric.count_instance self (g :: gold_rest) (p :: pred_rest)).1
       = tp self)
  ∧ (∀ (gold_list : list (list relation)) (gold : list relation)
       (record : relation),
       gold ∈ gold_list → record ∈ gold →
       length (rel_args record) ≠ 2%nat →
       RelationScorer.load_gold_list gold_list = Raise AssertionError)
  ∧ (∀ gold_list : list (list relation),
       (∀ gold record, gold ∈ gold_list → record ∈ gold →
                       length (rel_args record) = 2%nat) →
       ∃ gs, RelationScorer.load_gold_list gold_list = Ok gs)
  ∧ (∀ (V : Type) (eq_dec : EqDecision V) (value_ltb : V → V → bool)
       (cls : record_class) (self : Metric)
       (gold_list pred_list : list (record V)),
       match_mode self = ModeSet →
       record_count_instance value_ltb cls self gold_list pred_list
       = (self, Some NotImplementedError)).
Proof.
  split_and!.
  - intros self g p gs ps Hm Hlen.
    rewrite count_instance_arity; [done..|].
    simpl. by rewrite bool_decide_eq_false_2.
  - intros gold_list gold record Hg Hr Hlen.
    destruct (load_gold_list_cases gold_list) as [(Hall & _)|(_ & ?)];
      [|done].
    rewrite Forall_forall in Hall. specialize (Hall gold Hg).
    rewrite Forall_forall in Hall. by specialize (Hall record Hr).
  - intros gold_list Hall.
    destruct (load_gold_list_cases gold_list) as [(_ & ?)|(Hex & _)];
      [done|].
    apply Exists_exists in Hex as (gold & Hg & Hex).
    apply Exists_exists in Hex as (record & Hr & Hlen).
    by specialize (Hall gold record Hg Hr).
  - intros V eq_dec value_ltb cls self gold_list pred_list Hm.
    unfold record_count_instance. by rewrite Hm.
Qed.

(** C8 at a gold pair against a predicted 1-tuple, and at a gold relation
    record with a single argument. *)
Lemma programming_errors_fail_fast_witness :
  (Metric.count_instance (Metric.init ModeNormal) [PER_a] [[AStr "PER"]]).2
  = Some AssertionError
  ∧ RelationScorer.load_gold_list
      [[mkRelation "REL" [mkArgument "PER" [0; 1] "Bob"]]]
    = Raise AssertionError.
Proof.
  split.
  - apply (proj1 programming_errors_fail_fast (Metric.init ModeNormal)
             PER_a [AStr "PER"] [] []); [discriminate|].
    simpl. lia.
  - apply (proj1 (proj2 programming_errors_fail_fast)
             [[mkRelation "REL" [mkArgument "PER" [0; 1] "Bob"]]]
             [mkRelation "REL" [mkArgument "PER" [0; 1] "Bob"]]
             (mkRelation "REL" [mkArgument "PER" [0; 1] "Bob"]));
      [left | left | simpl; lia].
Defined.

(** ** Matching of records *)

Lemma first_true (f : nat → bool) (n : nat) :
  (∀ j, (j < n)%nat → f j = false)
  ∨ ∃ i, (i < n)%nat ∧ f i = true ∧ ∀ j, (j < i)%nat → f j = false.
Proof.
  induction n as [|n [Hno|(i & Hi & Hf & Hfirst)]].
  - left. intros j Hj. lia.
  - destruct (f n) eqn:Hn.
    + right. exists n. split_and!; [lia | done | done].
    + left. intros j Hj. destruct (decide (j = n)) as [->|]; [done|].
      apply Hno. lia.
  - right. exists i. split_and!; [lia | done | done].
Qed.

Section ScanTotal.

Context {V : Type} `{EqDecision V}.
Variable value_ltb : V -> V -> bool.
Variable cls : record_class.

Implicit Types (gold_list pred_list : list (record V)) (pred : record V).
Implicit Types (non_found : list bool) (self : Metric).

(** A scan over all the indexes of the gold list never raises. *)
Lemma scan_gold_total gold_list pred non_found self :
  length non_found = length gold_list →
  ∃ self' non_found',
    scan_gold value_ltb cls gold_list pred (seq 0 (length gold_list))
      non_found self = (self', non_found', None)
    ∧ length non_found' = length gold_list.
Proof.
  intros Hlen. destruct (decide (match_mode self = ModeNormal)) as [Hm|Hm].
  - destruct (first_true
      (matchable value_ltb cls gold_list pred non_found) (length gold_list))
      as [Hno|(i & Hi & Hf & Hfirst)].
    + exists self, non_found. split; [|done].
      apply scan_gold_none; [done | lia |]. intros j Hj. apply Hno. lia.
    + exists (Metric.add_tp self 1), (<[i := false]> non_found).
      split; [|by rewrite length_insert].
      apply scan_gold_normal_first; [done | lia | done |].
      intros j Hj. apply Hfirst. lia.
  - destruct (scan_gold_all value_ltb cls gold_list pred non_found self
                (length gold_list) 0 Hm Hlen) as (nf' & Hs & Hl & _); [lia|].
    eexists _, nf'. split; [exact Hs | congruence].
Qed.

Lemma scan_preds_total gold_list pred_list non_found self :
  length non_found = length gold_list →
  ∃ self' non_found',
    scan_preds value_ltb cls gold_list pred_list (seq 0 (length gold_list))
      non_found self = (self', non_found', None).
Proof.
  revert non_found self.
  induction pred_list as [|pred rest IH]; intros non_found self Hlen; simpl.
  - eauto.
  - destruct (scan_gold_total gold_list pred non_found self Hlen)
      as (self1 & nf1 & -> & Hl1).
    by apply IH.
Qed.

Lemma record_count_instance_total self gold_list pred_list :
  match_mode self ≠ ModeSet →
  (record_count_instance value_ltb cls self gold_list pred_list).2 = None.
Proof.
  intros Hm. unfold record_count_instance.
  destruct (scan_preds_total gold_list pred_list
              (replicate (length gold_list) true)
              (Metric.add_pred_num
                 (Metric.add_gold_num self (Z.of_nat (length gold_list)))
                 (Z.of_nat (length pred_list))))
    as (self' & nf' & Hs); [by rewrite length_replicate|].
  destruct (match_mode self); [done|..]; by rewrite Hs.
Qed.

Lemma record_count_instance_exn self gold_list pred_list (e : exn) :
  (record_count_instance value_ltb cls self gold_list pred_list).2 = Some e →
  e = NotImplementedError.
Proof.
  destruct (decide (match_mode self = ModeSet)) as [Hm|Hm].
  - unfold record_count_instance. rewrite Hm. by intros [= <-].
  - by rewrite record_count_instance_total.
Qed.

End ScanTotal.

(** ** Python's [<] on [str] and on the roles *)

Lemma string_compare_refl (s : string) : String.compare s s = Eq.
Proof.
  pose proof (String.compare_antisym s s) as H.
  by destruct (String.compare s s).
Qed.

Lemma ascii_compare_refl (a : Ascii.ascii) : Ascii.compare a a = Eq.
Proof.
  pose proof (Ascii.compare_antisym a a) as H.
  by destruct (Ascii.compare a a).
Qed.

Lemma ascii_compare_lt_trans (a b c : Ascii.ascii) :
  Ascii.compare a b = Lt → Ascii.compare b c = Lt → Ascii.compare a c = Lt.
Proof.
  unfold Ascii.compare. rewrite !N.compare_lt_iff. lia.
Qed.

Lemma string_compare_lt_trans (s t u : string) :
  String.compare s t = Lt → String.compare t u = Lt →
  String.compare s u = Lt.
Proof.
  revert t u. induction s as [|a s IH]; intros [|b t] [|c u]; simpl;
    try done.
  destruct (Ascii.compare a b) eqn:Hab; try done.
  - apply Ascii.compare_eq_iff in Hab as ->.
    destruct (Ascii.compare b c) eqn:Hbc; try done. apply IH.
  - intros _. destruct (Ascii.compare b c) eqn:Hbc; try done.
    + apply Ascii.compare_eq_iff in Hbc as <-. by rewrite Hab.
    + by rewrite (ascii_compare_lt_trans a b c).
Qed.

Lemma string_ltb_irrefl (s : string) : String.ltb s s = false.
Proof. unfold String.ltb. by rewrite string_compare_refl. Qed.

Lemma string_ltb_trans (s t u : string) :
  String.ltb s t = true → String.ltb t u = true → String.ltb s u = true.
Proof.
  unfold String.ltb.
  destruct (String.compare s t) eqn:Hst; try done.
  destruct (String.compare t u) eqn:Htu; try done.
  by rewrite (string_compare_lt_trans s t u).
Qed.

Lemma string_ltb_total (s t : string) :
  s ≠ t → String.ltb s t = true ∨ String.ltb t s = true.
Proof.
  intros Hne. unfold String.ltb. rewrite (String.compare_antisym t s).
  destruct (String.compare s t) eqn:Hst; simpl; auto.
  by apply String.compare_eq_iff in Hst.
Qed.

Section RoleOrder.
Context {V : Type} `{EqDecision V}.
Variable value_ltb : V → V → bool.
Hypothesis value_irrefl : ∀ a, value_ltb a a = false.
Hypothesis value_trans :
  ∀ a b c, value_ltb a b = true → value_ltb b c = true →
           value_ltb a c = true.
Hypothesis value_total :
  ∀ a b, a ≠ b → value_ltb a b = true ∨ value_ltb b a = true.

Lemma role_ltb_irrefl (a : string * V) : role_ltb value_ltb a a = false.
Proof. unfold role_ltb. by rewrite decide_True. Qed.

Lemma role_ltb_trans (a b c : string * V) :
  role_ltb value_ltb a b = true → role_ltb value_ltb b c = true →
  role_ltb value_ltb a c = true.
Proof.
  destruct a as [a1 a2], b as [b1 b2], c as [c1 c2]. unfold role_ltb; simpl.
  repeat case_decide; simplify_eq; eauto using string_ltb_trans.
  - intros Hab Hba. pose proof (string_ltb_trans _ _ _ Hab Hba) as Haa.
    by rewrite string_ltb_irrefl in Haa.
Qed.

Lemma role_ltb_total (a b : string * V) :
  a ≠ b → role_ltb value_ltb a b = true ∨ role_ltb value_ltb b a = true.
Proof.
  destruct a as [a1 a2], b as [b1 b2]. unfold role_ltb; simpl.
  intros Hne. repeat case_decide; simplify_eq.
  - apply value_total. congruence.
  - by apply string_ltb_total.
Qed.

(** [a] does not come after [b]. *)
Lemma role_le_trans :
  Transitive (λ a b : string * V, role_ltb value_ltb b a = false).
Proof.
  intros a b c Hab Hbc. destruct (role_ltb value_ltb c a) eqn:Hca; [|done].
  destruct (decide (a = b)) as [->|Hne]; [congruence|].
  destruct (role_ltb_total a b Hne) as [Hlt|Hlt]; [|congruence].
  pose proof (role_ltb_trans _ _ _ Hca Hlt). congruence.
Qed.

Lemma role_le_antisym :
  AntiSymm (=) (λ a b : string * V, role_ltb value_ltb b a = false).
Proof.
  intros a b Hab Hba. destruct (decide (a = b)) as [|Hne]; [done|].
  destruct (role_ltb_total a b Hne); congruence.
Qed.

Lemma role_ltb_asym (a b : string * V) :
  role_ltb value_ltb a b = true → role_ltb value_ltb b a = false.
Proof.
  intros Hab. destruct (role_ltb value_ltb b a) eqn:Hba; [|done].
  pose proof (role_ltb_trans _ _ _ Hab Hba) as Haa.
  by rewrite role_ltb_irrefl in Haa.
Qed.

Lemma insert_role_Sorted (x : string * V) (l : list (string * V)) :
  Sorted (λ a b, role_ltb value_ltb b a = false) l →
  Sorted (λ a b, role_ltb value_ltb b a = false) (insert_role value_ltb x l).
Proof.
  induction 1 as [|y l Hl IH Hy]; simpl; [by repeat constructor|].
  destruct (role_ltb value_ltb y x) eqn:Hyx.
  - constructor; [done|].
    destruct Hy as [|z l Hz]; simpl.
    + constructor. by apply role_ltb_asym.
    + destruct (role_ltb value_ltb z x); constructor;
        [done | by apply role_ltb_asym].
  - by repeat constructor.
Qed.

Lemma sorted_Sorted (l : list (string * V)) :
  Sorted (λ a b, role_ltb value_ltb b a = false) (sorted value_ltb l).
Proof.
  induction l as [|x l IH]; simpl; [constructor|].
  by apply insert_role_Sorted.
Qed.

Lemma sorted_unique (l k : list (string * V)) :
  l ≡ₚ k → sorted value_ltb l = sorted value_ltb k.
Proof.
  intros Hlk.
  apply (Sorted_unique (λ a b, role_ltb value_ltb b a = false)
           (Transitive0 := role_le_trans) (AntiSymm0 := role_le_antisym)).
  - apply sorted_Sorted.
  - apply sorted_Sorted.
  - by rewrite !sorted_Permutation.
Qed.

End RoleOrder.

Lemma sorted_eq_Permutation {V} (value_ltb : V → V → bool)
  (l k : list (string * V)) :
  sorted value_ltb l = sorted value_ltb k → l ≡ₚ k.
Proof.
  intros Heq. rewrite <- (sorted_Permutation value_ltb l), Heq.
  apply sorted_Permutation.
Qed.

Example record_is_equal_ignores_order :
  RecordMetric.is_equal String.ltb attack_record attack_record_swapped = true
  ∧ OrderedRecordMetric.is_equal attack_record attack_record_swapped = false.
Proof. by vm_compute. Qed.

Example record_count_instance_example :
  RecordMetric.count_instance String.ltb (Metric.init ModeNormal)
    [attack_record; attack_record] [attack_record_swapped]
  = (mkMetric 1 2 1 ModeNormal, None)
  ∧ RecordMetric.count_instance String.ltb (Metric.init ModeMultimatch)
      [attack_record; attack_record] [attack_record_swapped]
    = (mkMetric 2 2 1 ModeMultimatch, None)
  ∧ OrderedRecordMetric.count_instance String.ltb (Metric.init ModeNormal)
      [attack_record; attack_record] [attack_record_swapped]
    = (mkMetric 0 2 1 ModeNormal, None).
Proof. by vm_compute. Qed.

(** C7. [RecordMetric.is_equal] and [OrderedRecordMetric.is_equal] hold
    iff the ['type'] fields are equal, the ['spot'] fields are equal, the
    ['asocs'] have equal length and the pairs at corresponding positions are
    equal, of the sorted ['asocs'] for [RecordMetric] and of the ['asocs'] as
    they stand for [OrderedRecordMetric].  [count_instance] never raises
    outside ['set'] mode and handles the predictions one after the other;
    for one prediction it scans the gold records in their order, with one
    flag per gold record.  In ['normal'] mode the first gold record that is
    unconsumed and equal to the prediction is consumed, [tp] grows by 1 and
    the scan stops; without such a record nothing changes.  In
    ['multimatch'] mode the scan does not stop: every such gold record is
    consumed and counted.  Outside ['set'] mode [count_instance] is this
    loop over the predictions, started with every flag [True], one flag per
    gold record, after [gold_num] and [pred_num] have grown by the lengths
    of the two lists; the scan for one prediction keeps that number of
    flags.  [sorted] returns a permutation of its argument, in
    non-decreasing order when [<] is a strict total order on the values, so
    that [RecordMetric.is_equal] then holds iff type and spot are equal and
    the ['asocs'] are equal up to their order.  For an event with its two
    arguments exchanged, [RecordMetric.is_equal] holds and
    [OrderedRecordMetric.is_equal] does not. *)
Theorem record_matching (V : Type) (eq_dec : EqDecision V)
  (value_ltb : V → V → bool) :
  (∀ gold pred : record V,
     RecordMetric.is_equal value_ltb gold pred = true
     ↔ r_type gold = r_type pred
       ∧ r_spot gold = r_spot pred
       ∧ length (r_asocs gold) = length (r_asocs pred)
       ∧ (∀ i a b, sorted value_ltb (r_asocs gold) !! i = Some a →
                   sorted value_ltb (r_asocs pred) !! i = Some b → a = b))
  ∧ (∀ gold pred : record V,
       OrderedRecordMetric.is_equal gold pred = true
       ↔ r_type gold = r_type pred
         ∧ r_spot gold = r_spot pred
         ∧ length (r_asocs gold) = length (r_asocs pred)
         ∧ (∀ i a b, r_asocs gold !! i = Some a →
                     r_asocs pred !! i = Some b → a = b))
  ∧ (∀ (cls : record_class) (self : Metric)
       (gold_list pred_list : list (record V)),
       match_mode self ≠ ModeSet →
       (record_count_instance value_ltb cls self gold_list pred_list).2
       = None)
  ∧ (∀ (cls : record_class) (self self' : Metric)
       (gold_list rest : list (record V)) (pred : record V)
       (gold_indexes : list nat) (non_found non_found' : list bool),
       scan_gold value_ltb cls gold_list pred gold_indexes non_found self
       = (self', non_found', None) →
       scan_preds value_ltb cls gold_list (pred :: rest) gold_indexes
         non_found self
       = scan_preds value_ltb cls gold_list rest gold_indexes
           non_found' self')
  ∧ (∀ (cls : record_class) (self : Metric) (gold_list : list (record V))
       (pred : record V) (non_found : list bool),
       match_mode self = ModeNormal →
       length non_found = length gold_list →
       (∀ i : nat,
          matchable value_ltb cls gold_list pred non_found i = true →
          (∀ j, (j < i)%nat →
                matchable value_ltb cls gold_list pred non_found j = false) →
          scan_gold value_ltb cls gold_list pred (seq 0 (length gold_list))
            non_found self
          = (Metric.add_tp self 1, <[i := false]> non_found, None))
       ∧ ((∀ j : nat,
             matchable value_ltb cls gold_list pred non_found j = false) →
          scan_gold value_ltb cls gold_list pred (seq 0 (length gold_list))
            non_found self
          = (self, non_found, None)))
  ∧ (∀ (cls : record_class) (self : Metric) (gold_list : list (record V))
       (pred : record V) (non_found : list bool),
       match_mode self = ModeMultimatch →
       length non_found = length gold_list →
       ∃ non_found' : list bool,
         scan_gold value_ltb cls gold_list pred (seq 0 (length gold_list))
           non_found self
         = (Metric.add_tp self
              (Z.of_nat (length (filter
                 (λ j, matchable value_ltb cls gold_list pred non_found j
                       = true)
                 (seq 0 (length gold_list))))),
            non_found', None)
         ∧ ∀ j : nat,
             non_found' !! j
             = if matchable value_ltb cls gold_list pred non_found j
               then Some false else non_found !! j)
  ∧ (∀ (cls : record_class) (self : Metric)
       (gold_list pred_list : list (record V)),
       match_mode self ≠ ModeSet →
       ∃ (self' : Metric) (non_found' : list bool),
         scan_preds value_ltb cls gold_list pred_list
           (seq 0 (length gold_list)) (replicate (length gold_list) true)
           (Metric.add_pred_num
              (Metric.add_gold_num self (Z.of_nat (length gold_list)))
              (Z.of_nat (length pred_list)))
         = (self', non_found', None)
         ∧ record_count_instance value_ltb cls self gold_list pred_list
           = (self', None))
  ∧ (∀ (cls : record_class) (self : Metric) (gold_list : list (record V))
       (gold_indexes : list nat) (non_found : list bool),
       scan_preds value_ltb cls gold_list [] gold_indexes non_found self
       = (self, non_found, None))
  ∧ (∀ (cls : record_class) (self : Metric) (gold_list : list (record V))
       (pred : record V) (non_found : list bool),
       length non_found = length gold_list →
       ∃ (self' : Metric) (non_found' : list bool),
         scan_gold value_ltb cls gold_list pred (seq 0 (length gold_list))
           non_found self
         = (self', non_found', None)
         ∧ length non_found' = length gold_list)
  ∧ (∀ l : list (string * V), sorted value_ltb l ≡ₚ l)
  ∧ ((∀ a, value_ltb a a = false) →
     (∀ a b c, value_ltb a b = true → value_ltb b c = true →
               value_ltb a c = true) →
     (∀ a b, a ≠ b → value_ltb a b = true ∨ value_ltb b a = true) →
     (∀ l : list (string * V),
        Sorted (λ a b, role_ltb value_ltb b a = false) (sorted value_ltb l))
     ∧ ∀ gold pred : record V,
         RecordMetric.is_equal value_ltb gold pred = true
         ↔ r_type gold = r_type pred
           ∧ r_spot gold = r_spot pred
           ∧ r_asocs gold ≡ₚ r_asocs pred)
  ∧ (RecordMetric.is_equal String.ltb attack_record attack_record_swapped
     = true
     ∧ OrderedRecordMetric.is_equal attack_record attack_record_swapped
       = false)
  ∧ (RecordMetric.count_instance String.ltb (Metric.init ModeNormal)
       [attack_record; attack_record] [attack_record_swapped]
     = (mkMetric 1 2 1 ModeNormal, None)
     ∧ RecordMetric.count_instance String.ltb (Metric.init ModeMultimatch)
         [attack_record; attack_record] [attack_record_swapped]
       = (mkMetric 2 2 1 ModeMultimatch, None)
     ∧ OrderedRecordMetric.count_instance String.ltb
         (Metric.init ModeNormal)
         [attack_record; attack_record] [attack_record_swapped]
       = (mkMetric 0 2 1 ModeNormal, None)).
Proof.
  split_and!.
  - apply record_is_equal_spec.
  - apply ordered_record_is_equal_spec.
  - intros. by apply record_count_instance_total.
  - intros * Hs. simpl. by rewrite Hs.
  - intros cls self gold_list pred non_found Hm Hlen. split.
    + intros i Hi Hfirst.
      assert (i < length gold_list)%nat as Hlt.
      { unfold matchable in Hi.
        destruct (non_found !! i) as [[|]|] eqn:Hnf; try done.
        apply lookup_lt_Some in Hnf. lia. }
      apply scan_gold_normal_first; [done | lia | done |].
      intros j Hj. apply Hfirst. lia.
    + intros Hno. apply scan_gold_none; [done | lia | by intros].
  - intros cls self gold_list pred non_found Hm Hlen.
    destruct (scan_gold_all value_ltb cls gold_list pred non_found self
                (length gold_list) 0) as (nf' & Hs & Hl & Hnf');
      [congruence | done | lia |].
    exists nf'. split; [done|].
    intros j. rewrite Hnf'.
    destruct (matchable value_ltb cls gold_list pred non_found j) eqn:Hj.
    + rewrite decide_True; [done|]. split; [|done].
      unfold matchable in Hj.
      destruct (non_found !! j) as [[|]|] eqn:Hnf; try done.
      apply lookup_lt_Some in Hnf. lia.
    + rewrite decide_False; [done|]. by intros [_ ?].
  - intros cls self gold_list pred_list Hm. unfold record_count_instance.
    destruct (scan_preds_total value_ltb cls gold_list pred_list
                (replicate (length gold_list) true)
                (Metric.add_pred_num
                   (Metric.add_gold_num self (Z.of_nat (length gold_list)))
                   (Z.of_nat (length pred_list))))
      as (self' & nf' & Hs); [by rewrite length_replicate|].
    exists self', nf'. split; [done|].
    destruct (match_mode self); [done|..]; by rewrite Hs.
  - done.
  - intros. by apply scan_gold_total.
  - apply sorted_Permutation.
  - intros Hirr Htrans Htot. split.
    + intros l. by apply sorted_Sorted.
    + intros gold pred. unfold RecordMetric.is_equal.
      rewrite record_is_equal_sorted_eq. split.
      * intros (? & ? & Heq). split_and!; [done..|].
        by eapply sorted_eq_Permutation.
      * intros (? & ? & Hperm). split_and!; [done..|].
        by apply sorted_unique.
  - apply record_is_equal_ignores_order.
  - apply record_is_equal_ignores_order.
  - apply record_count_instance_example.
  - apply record_count_instance_example.
  - apply record_count_instance_example.
Qed.

(** ** Corpora of different lengths *)



(** ** Strict and boundary views of relations *)

(** The boundary view as a total function; it is [boundary] wherever
    that returns. *)
Lemma boundary_mapM (l l' : list item) :
  res_mapM RelationScorer.boundary l = Ok l' →
  l' = (λ x, match RelationScorer.boundary x with
             | Ok y => y
             | Raise _ => []
             end) <$> l.
Proof.
  revert l'. induction l as [|x l IH]; intros l'; simpl.
  - by intros [= <-].
  - destruct (RelationScorer.boundary x) as [y|]; simpl; [|done].
    destruct (res_mapM RelationScorer.boundary l) as [ys|]; simpl; [|done].
    intros [= <-]. by rewrite (IH ys eq_refl).
Qed.

Lemma list_to_set_disj_fmap (f : item → item) (l : list item) :
  list_to_set_disj (f <$> l)
  =@{gmultiset item} gmultiset_map f (list_to_set_disj l).
Proof.
  induction l as [|x l IH]; [done|].
  rewrite fmap_cons, !list_to_set_disj_cons, gmultiset_map_disj_union.
  by rewrite gmultiset_map_singleton, IH.
Qed.

Lemma gmultiset_map_mono (f : item → item) (X Y : gmultiset item) :
  X ⊆ Y → gmultiset_map f X ⊆ gmultiset_map f Y.
Proof.
  intros Hsub. rewrite (gmultiset_disj_union_difference X Y Hsub).
  rewrite gmultiset_map_disj_union. apply gmultiset_disj_union_subseteq_l.
Qed.

Lemma size_gmultiset_map (f : item → item) (X : gmultiset item) :
  size (gmultiset_map f X) = size X.
Proof.
  induction X as [|x X IH] using gmultiset_ind; [done|].
  rewrite gmultiset_map_disj_union, gmultiset_map_singleton.
  by rewrite !gmultiset_size_disj_union, !gmultiset_size_singleton, IH.
Qed.

(** Mapping a function over both lists cannot shrink their intersection as
    multisets: what matched before the relabelling still matches. *)
Lemma size_intersection_fmap (f : item → item) (p g : list item) :
  (size (list_to_set_disj p ∩ list_to_set_disj g : gmultiset item)
   ≤ size (list_to_set_disj (f <$> p) ∩ list_to_set_disj (f <$> g)
           : gmultiset item))%nat.
Proof.
  rewrite !list_to_set_disj_fmap.
  rewrite <- (size_gmultiset_map f
                (list_to_set_disj p ∩ list_to_set_disj g)).
  apply gmultiset_subseteq_size.
  pose proof (gmultiset_map_mono f
    (list_to_set_disj p ∩ list_to_set_disj g) (list_to_set_disj p)
    ltac:(multiset_solver)).
  pose proof (gmultiset_map_mono f
    (list_to_set_disj p ∩ list_to_set_disj g) (list_to_set_disj g)
    ltac:(multiset_solver)).
  multiset_solver.
Qed.

Lemma length_filter_fmap (f : item → item) (p g : list item) :
  (length (filter (λ x, x ∈ g) p)
   ≤ length (filter (λ x, x ∈ f <$> g) (f <$> p)))%nat.
Proof.
  induction p as [|x p IH]; [done|].
  rewrite fmap_cons, !filter_cons.
  destruct (decide (x ∈ g)) as [Hin|Hin].
  - rewrite decide_True by (by apply list_elem_of_fmap_2). simpl. lia.
  - case_decide; simpl; lia.
Qed.

(** A call that returns, outside ['set'] mode. *)
Lemma count_Ok (m m' : Metric) (gold_list pred_list : list item) :
  count m gold_list pred_list = Ok m' →
  match_mode m' = match_mode m
  ∧ (match_mode m = ModeNormal →
     tp m' = tp m + Z.of_nat (size (list_to_set_disj pred_list
                                    ∩ list_to_set_disj gold_list
                                    : gmultiset item)))
  ∧ (match_mode m = ModeMultimatch →
     tp m' = tp m
             + Z.of_nat (length (filter (λ x, x ∈ gold_list) pred_list))).
Proof.
  unfold count.
  destruct (Metric.same_arity gold_list pred_list) eqn:Ha;
    destruct (match_mode m) eqn:Hm.
  - rewrite count_instance_set by done. by intros [= <-].
  - rewrite count_instance_normal by done. intros [= <-]. by split_and!.
  - rewrite count_instance_multimatch by done. intros [= <-]. by split_and!.
  - rewrite count_instance_set by done. by intros [= <-].
  - rewrite count_instance_arity by (done || congruence). done.
  - rewrite count_instance_arity by (done || congruence). done.
Qed.

(** One example pair on one axis: the boundary accumulator gains at least
    what the strict accumulator gains. *)
Lemma count_boundary_ge (m m' b b' : Metric) (gold_list pred_list : list item) :
  match_mode m ≠ ModeSet →
  match_mode b = match_mode m →
  count m gold_list pred_list = Ok m' →
  RelationScorer.count_boundary b gold_list pred_list = Ok b' →
  match_mode m' = match_mode m ∧ match_mode b' = match_mode m
  ∧ tp m' - tp m ≤ tp b' - tp b.
Proof.
  intros Hm Hb Hc. unfold RelationScorer.count_boundary.
  destruct (res_mapM RelationScorer.boundary gold_list) as [g|] eqn:Hg;
    simpl; [|done].
  destruct (res_mapM RelationScorer.boundary pred_list) as [p|] eqn:Hp;
    simpl; [|done].
  apply boundary_mapM in Hg as ->. apply boundary_mapM in Hp as ->.
  intros Hcb.
  apply count_Ok in Hc as (Hm1 & Hn & Hmm).
  apply count_Ok in Hcb as (Hb1 & Hbn & Hbmm).
  split_and!; [congruence..|].
  destruct (match_mode m) eqn:Hmode; [done|..].
  - rewrite Hn, Hbn by congruence.
    pose proof (size_intersection_fmap
      (λ x, match RelationScorer.boundary x with
            | Ok y => y
            | Raise _ => []
            end) pred_list gold_list). lia.
  - rewrite Hmm, Hbmm by congruence.
    pose proof (length_filter_fmap
      (λ x, match RelationScorer.boundary x with
            | Ok y => y
            | Raise _ => []
            end) pred_list gold_list). lia.
Qed.

Lemma count_pair_boundary_ge (mm : MatchMode)
  (ms ms' : RelationScorer.relation_metrics) (pred gold : instance) :
  mm ≠ ModeSet →
  relation_modes mm ms →
  RelationScorer.count_pair ms pred gold = Ok ms' →
  relation_modes mm ms'
  ∧ tp (for_offset (RelationScorer.metrics ms'))
      - tp (for_offset (RelationScorer.metrics ms))
    ≤ tp (for_offset (RelationScorer.boundary_metrics ms'))
      - tp (for_offset (RelationScorer.boundary_metrics ms))
  ∧ tp (for_string (RelationScorer.metrics ms'))
      - tp (for_string (RelationScorer.metrics ms))
    ≤ tp (for_string (RelationScorer.boundary_metrics ms'))
      - tp (for_string (RelationScorer.boundary_metrics ms)).
Proof.
  intros Hmm (Ho & Hs & Hbo & Hbs). unfold RelationScorer.count_pair.
  destruct (count (for_offset _) _ _) as [o|] eqn:Hco; simpl; [|done].
  destruct (count (for_string _) _ _) as [s|] eqn:Hcs; simpl; [|done].
  destruct (RelationScorer.count_boundary (for_offset _) _ _) as [bo|]
    eqn:Hcbo; simpl; [|done].
  destruct (RelationScorer.count_boundary (for_string _) _ _) as [bs|]
    eqn:Hcbs; simpl; [|done].
  intros [= <-]. simpl.
  destruct (count_boundary_ge
              (for_offset (RelationScorer.metrics ms)) o
              (for_offset (RelationScorer.boundary_metrics ms)) bo
              (get gold "offset") (get pred "offset")) as (? & ? & ?);
    [congruence | congruence | done | done |].
  destruct (count_boundary_ge
              (for_string (RelationScorer.metrics ms)) s
              (for_string (RelationScorer.boundary_metrics ms)) bs
              (get gold "string") (get pred "string")) as (? & ? & ?);
    [congruence | congruence | done | done |].
  unfold relation_modes; simpl. split_and!; (congruence || lia).
Qed.

Lemma for_pairs_boundary_ge (mm : MatchMode)
  (pairs : list (instance * instance))
  (ms ms' : RelationScorer.relation_metrics) :
  mm ≠ ModeSet →
  relation_modes mm ms →
  for_pairs RelationScorer.count_pair ms pairs = Ok ms' →
  tp (for_offset (RelationScorer.metrics ms'))
    - tp (for_offset (RelationScorer.metrics ms))
  ≤ tp (for_offset (RelationScorer.boundary_metrics ms'))
    - tp (for_offset (RelationScorer.boundary_metrics ms))
  ∧ tp (for_string (RelationScorer.metrics ms'))
      - tp (for_string (RelationScorer.metrics ms))
    ≤ tp (for_string (RelationScorer.boundary_metrics ms'))
      - tp (for_string (RelationScorer.boundary_metrics ms)).
Proof.
  intros Hmm. revert ms.
  induction pairs as [|[pred gold] pairs IH]; intros ms Hmodes; simpl.
  - intros [= <-]. lia.
  - destruct (RelationScorer.count_pair ms pred gold) as [ms1|] eqn:Hc;
      simpl; [|done].
    apply (count_pair_boundary_ge mm) in Hc as (Hmodes1 & ? & ?);
      [|done..].
    intros (? & ?)%IH; [lia | done].
Qed.

(** On 5-tuples no assertion fails and no index is out of range. *)
Lemma same_arity_Forall (n : nat) (g p : list item) :
  Forall (λ x : item, length x = n) g →
  Forall (λ x : item, length x = n) p →
  Metric.same_arity g p = true.
Proof.
  intros [|x g' Hx _] [|y p' Hy _]; simpl; try done.
  apply bool_decide_eq_true_2. congruence.
Qed.

Lemma count_total (m : Metric) (g p : list item) :
  Metric.same_arity g p = true →
  ∃ m', count m g p = Ok m'.
Proof.
  intros Ha. unfold count. destruct (match_mode m) eqn:Hm.
  - rewrite count_instance_set by done. eauto.
  - rewrite count_instance_normal by done. eauto.
  - rewrite count_instance_multimatch by done. eauto.
Qed.

Lemma boundary_mapM_total (l : list item) :
  Forall (λ x : item, length x = 5%nat) l →
  ∃ l', res_mapM RelationScorer.boundary l = Ok l'
        ∧ Forall (λ x : item, length x = 3%nat) l'.
Proof.
  induction 1 as [|x l Hx _ (l' & Hl' & Hall)]; simpl.
  - exists []. by split.
  - destruct x as [|x0 [|x1 [|x2 [|x3 [|x4 [|]]]]]]; try done.
    unfold RelationScorer.boundary at 1. simpl. rewrite Hl'. simpl.
    eexists. split; [done|]. by constructor.
Qed.

Lemma count_pair_total (ms : RelationScorer.relation_metrics)
  (pred gold : instance) :
  five_tuples pred → five_tuples gold →
  ∃ ms', RelationScorer.count_pair ms pred gold = Ok ms'.
Proof.
  intros Hp Hg. unfold RelationScorer.count_pair.
  destruct (count_total (for_offset (RelationScorer.metrics ms))
              (get gold "offset") (get pred "offset")) as [o ->];
    [by eapply same_arity_Forall|]. simpl.
  destruct (count_total (for_string (RelationScorer.metrics ms))
              (get gold "string") (get pred "string")) as [s ->];
    [by eapply same_arity_Forall|]. simpl.
  unfold RelationScorer.count_boundary.
  destruct (boundary_mapM_total (get gold "offset") (Hg "offset"))
    as (go & -> & Hgo).
  destruct (boundary_mapM_total (get pred "offset") (Hp "offset"))
    as (po & -> & Hpo). simpl.
  destruct (count_total (for_offset (RelationScorer.boundary_metrics ms))
              go po) as [bo ->]; [by eapply same_arity_Forall|]. simpl.
  destruct (boundary_mapM_total (get gold "string") (Hg "string"))
    as (gs & -> & Hgs).
  destruct (boundary_mapM_total (get pred "string") (Hp "string"))
    as (ps & -> & Hps). simpl.
  destruct (count_total (for_string (RelationScorer.boundary_metrics ms))
              gs ps) as [bs ->]; [by eapply same_arity_Forall|]. simpl.
  eauto.
Qed.

Lemma relation_run_total (mm : MatchMode)
  (gold_instance_list pred_instance_list : list instance) :
  Forall five_tuples gold_instance_list →
  Forall five_tuples pred_instance_list →
  ∃ ms, RelationScorer.run mm gold_instance_list pred_instance_list = Ok ms.
Proof.
  intros Hg Hp. unfold RelationScorer.run.
  generalize (RelationScorer.mkRelationMetrics (fresh_axes mm) (fresh_axes mm)).
  revert gold_instance_list Hg.
  induction Hp as [|pred ps Hpred _ IH]; intros gs Hg ms; simpl; [eauto|].
  destruct Hg as [|gold gs Hgold Hgs]; simpl; [eauto|].
  destruct (count_pair_total ms pred gold Hpred Hgold) as [ms' ->]. simpl.
  by apply IH.
Qed.

(** C2, as amended.  In ['normal'] and ['multimatch'] mode, whenever
    [RelationScorer.eval_instance_list] gets through an example pair, the
    boundary accumulator of each axis gains at least as much [tp] as the
    strict accumulator of that axis; and when it gets through the whole
    corpus, the boundary [tp] of each axis is at least the strict [tp].  On
    corpora of 5-tuples it always gets through. *)
Theorem boundary_tp_ge_strict_tp (mm : MatchMode) :
  mm ≠ ModeSet →
  (∀ (ms ms' : RelationScorer.relation_metrics) (pred gold : instance),
     relation_modes mm ms →
     RelationScorer.count_pair ms pred gold = Ok ms' →
     tp (for_offset (RelationScorer.metrics ms'))
       - tp (for_offset (RelationScorer.metrics ms))
     ≤ tp (for_offset (RelationScorer.boundary_metrics ms'))
       - tp (for_offset (RelationScorer.boundary_metrics ms))
     ∧ tp (for_string (RelationScorer.metrics ms'))
         - tp (for_string (RelationScorer.metrics ms))
       ≤ tp (for_string (RelationScorer.boundary_metrics ms'))
         - tp (for_string (RelationScorer.boundary_metrics ms)))
  ∧ (∀ (gold_instance_list pred_instance_list : list instance)
       (ms : RelationScorer.relation_metrics),
       RelationScorer.run mm gold_instance_list pred_instance_list = Ok ms →
       tp (for_offset (RelationScorer.metrics ms))
       ≤ tp (for_offset (RelationScorer.boundary_metrics ms))
       ∧ tp (for_string (RelationScorer.metrics ms))
         ≤ tp (for_string (RelationScorer.boundary_metrics ms)))
  ∧ (∀ gold_instance_list pred_instance_list : list instance,
       Forall five_tuples gold_instance_list →
       Forall five_tuples pred_instance_list →
       ∃ ms,
         RelationScorer.run mm gold_instance_list pred_instance_list = Ok ms).
Proof.
  intros Hmm. split_and!; [| |by apply relation_run_total].
  - intros ms ms' pred gold Hmodes Hc.
    by apply (count_pair_boundary_ge mm) in Hc as (_ & ? & ?).
  - intros gold_instance_list pred_instance_list ms Hrun.
    unfold RelationScorer.run in Hrun.
    apply (for_pairs_boundary_ge mm) in Hrun; [|done..].
    simpl in Hrun. lia.
Qed.

(** C2 at the scenario of the specification: one gold relation and the
    prediction with the two argument-type labels swapped, in ['normal']
    mode.  The strict [tp] is 0, the boundary [tp] is 1. *)
Lemma boundary_tp_ge_strict_tp_witness :
  RelationScorer.run ModeNormal
    [{[ "offset" := [rel_per_org] ]}] [{[ "offset" := [rel_org_per] ]}]
  = Ok (RelationScorer.mkRelationMetrics
          (mkAxes (mkMetric 0 1 1 ModeNormal) (mkMetric 0 0 0 ModeNormal))
          (mkAxes (mkMetric 1 1 1 ModeNormal) (mkMetric 0 0 0 ModeNormal)))
  ∧ tp (mkMetric 0 1 1 ModeNormal) ≤ tp (mkMetric 1 1 1 ModeNormal).
Proof.
  assert (RelationScorer.run ModeNormal
            [{[ "offset" := [rel_per_org] ]}] [{[ "offset" := [rel_org_per] ]}]
          = Ok (RelationScorer.mkRelationMetrics
                  (mkAxes (mkMetric 0 1 1 ModeNormal)
                     (mkMetric 0 0 0 ModeNormal))
                  (mkAxes (mkMetric 1 1 1 ModeNormal)
                     (mkMetric 0 0 0 ModeNormal)))) as Hrun
    by (vm_compute; reflexivity).
  split; [exact Hrun|].
  exact (proj1 (proj1 (proj2 (boundary_tp_ge_strict_tp ModeNormal
                                ltac:(discriminate))) _ _ _ Hrun)).
Defined.

(** C2 as stated fails in ['set'] mode: with the two gold relations
    [rel_per_org] and [rel_org_per] predicted exactly, the strict
    accumulator counts two distinct 5-tuples, while their boundary views
    are one and the same triple, so the boundary accumulator counts one. *)
Lemma boundary_tp_lt_strict_tp_in_set_mode :
  RelationScorer.run ModeSet
    [{[ "offset" := [rel_per_org; rel_org_per] ]}]
    [{[ "offset" := [rel_per_org; rel_org_per] ]}]
  = Ok (RelationScorer.mkRelationMetrics
          (mkAxes (mkMetric 2 2 2 ModeSet) (mkMetric 0 0 0 ModeSet))
          (mkAxes (mkMetric 1 1 1 ModeSet) (mkMetric 0 0 0 ModeSet)))
  ∧ ¬ (∀ (mm : MatchMode)
         (gold_instance_list pred_instance_list : list instance)
         (ms : RelationScorer.relation_metrics),
         RelationScorer.run mm gold_instance_list pred_instance_list = Ok ms →
         tp (for_offset (RelationScorer.metrics ms))
         ≤ tp (for_offset (RelationScorer.boundary_metrics ms))).
Proof.
  assert (RelationScorer.run ModeSet
            [{[ "offset" := [rel_per_org; rel_org_per] ]}]
            [{[ "offset" := [rel_per_org; rel_org_per] ]}]
          = Ok (RelationScorer.mkRelationMetrics
                  (mkAxes (mkMetric 2 2 2 ModeSet) (mkMetric 0 0 0 ModeSet))
                  (mkAxes (mkMetric 1 1 1 ModeSet) (mkMetric 0 0 0 ModeSet))))
    as Hrun by (vm_compute; reflexivity).
  split; [exact Hrun|].
  intros Hall. specialize (Hall _ _ _ _ Hrun). simpl in Hall. lia.
Qed.

(** ** Loops over list objects *)

(** A property of the state that every run of the body keeps is kept by
    the loop. *)
Lemma for_in_keeps {St A} (P : St → Prop) (iter : St → res (list A))
  (body : A → St → St * ctrl) (fuel index : nat) (s : St) :
  (∀ x s, P s → P (body x s).1) →
  P s → P (for_in fuel index iter body s).1.
Proof.
  intros Hbody. revert index s.
  induction fuel as [|fuel IH]; intros index s Hs; simpl; [done|].
  destruct (iter s) as [xs|]; [|done].
  destruct (xs !! index) as [x|]; [|done].
  specialize (Hbody x s Hs).
  destruct (body x s) as [s' [| |e]]; simpl in *; [by apply IH|done..].
Qed.

(** While the body leaves the iterated list object alone, the loop with
    enough fuel is the loop over the elements of the list. *)
Lemma for_in_for_list {St A} (I : St → Prop) (iter : St → res (list A))
  (body : A → St → St * ctrl) (xs : list A) (n index : nat) (s : St) :
  (∀ s, I s → iter s = Ok xs) →
  (∀ x s, I s → I (body x s).1) →
  (index + n)%nat = length xs →
  I s →
  for_in (S n) index iter body s = for_list (drop index xs) body s.
Proof.
  intros Hiter Hbody. revert index s.
  induction n as [|n IH]; intros index s Hlen Hs.
  - simpl. rewrite (Hiter s Hs).
    rewrite lookup_ge_None_2, drop_ge by lia. done.
  - change (for_in (S (S n)) index iter body s) with
      (match iter s with
       | Raise e => (s, Some e)
       | Ok xs =>
           match xs !! index with
           | None => (s, None)
           | Some x =>
               match body x s with
               | (s', Next) => for_in (S n) (S index) iter body s'
               | (s', Break) => (s', None)
               | (s', Throw e) => (s', Some e)
               end
           end
       end).
    rewrite (Hiter s Hs).
    destruct (lookup_lt_is_Some_2 xs index ltac:(lia)) as [x Hx].
    rewrite Hx, (drop_S _ _ _ Hx). simpl.
    specialize (Hbody x s Hs).
    destruct (body x s) as [s' [| |e]]; simpl in *; [|done..].
    apply IH; [lia | done].
Qed.

(** ** What a call does to the store *)

Lemma alloc_fresh {T} (h : gmap loc T) (o : T) :
  h !! (alloc h o).1 = None ∧ (alloc h o).2 = <[(alloc h o).1 := o]> h.
Proof.
  unfold alloc; simpl. split; [|done].
  apply not_elem_of_dom, is_fresh.
Qed.

Lemma alloc_keeps {T} (h : gmap loc T) (o o' : T) (l : loc) :
  h !! l = Some o' → (alloc h o).2 !! l = Some o'.
Proof.
  intros Hl. destruct (alloc_fresh h o) as [Hnew ->].
  rewrite lookup_insert_ne; [done | congruence].
Qed.

Section MetricStoreFacts.

Implicit Types (h : gmap loc pyobj) (self : Metric) (g p d : list item).

(** The body of the loop writes to the working copy and nowhere else. *)
Lemma match_body_keeps h0 (dup : loc) (pred : item)
  (s : Metric * gmap loc pyobj) :
  h0 !! dup = None →
  (∀ l o, h0 !! l = Some o → s.2 !! l = Some o) →
  ∀ l o, h0 !! l = Some o →
         (MetricStore.match_body dup pred s).1.2 !! l = Some o.
Proof.
  intros Hdup Hs l o Hl. unfold MetricStore.match_body.
  destruct (read_list s.2 dup) as [xs|]; [|by apply Hs].
  case_bool_decide; [|by apply Hs]. simpl.
  destruct (match_mode s.1); simpl; try by apply Hs.
  destruct (list_remove pred xs); simpl; [|by apply Hs].
  rewrite lookup_insert_ne by congruence. by apply Hs.
Qed.

(** Every object of the store is after the call what it was before it,
    whatever the arguments are and however the call ends. *)
Lemma metric_count_instance_frame self (gold_list pred_list : loc) h
  (l : loc) (o : pyobj) :
  h !! l = Some o →
  (MetricStore.count_instance self gold_list pred_list h).1.2 !! l = Some o.
Proof.
  intros Hl. unfold MetricStore.count_instance.
  destruct (match_mode self).
  - destruct (read_list h gold_list) as [g|]; [|done].
    destruct (alloc h (PySet (list_to_set g))) as [l1 h1] eqn:H1.
    assert (h1 !! l = Some o) as Hl1.
    { replace h1 with (alloc h (PySet (list_to_set g))).2 by by rewrite H1.
      by apply alloc_keeps. }
    destruct (read_list h1 pred_list) as [p|]; [|done].
    destruct (alloc h1 (PySet (list_to_set p))) as [l2 h2] eqn:H2.
    assert (h2 !! l = Some o) as Hl2.
    { replace h2 with (alloc h1 (PySet (list_to_set p))).2 by by rewrite H2.
      by apply alloc_keeps. }
    destruct (alloc h2 (PySet (list_to_set g ∩ list_to_set p)))
      as [l3 h3] eqn:H3.
    replace h3 with (alloc h2 (PySet (list_to_set g ∩ list_to_set p))).2
      by by rewrite H3.
    by apply alloc_keeps.
  - destruct (read_list h gold_list) as [g|]; [|done].
    destruct (read_list h pred_list) as [p|]; [|done].
    destruct (Metric.same_arity g p); [|done].
    destruct (alloc h (PyList g)) as [dup h1] eqn:H1.
    destruct (alloc_fresh h (PyList g)) as [Hnew Hh1].
    rewrite H1 in Hnew, Hh1; simpl in Hnew, Hh1.
    apply (for_in_keeps
             (λ s, ∀ l o, h !! l = Some o → s.2 !! l = Some o));
      [| |done].
    + intros x s Hs. by apply match_body_keeps.
    + simpl. intros l' o' Hl'. subst h1.
      rewrite lookup_insert_ne; [done | congruence].
  - destruct (read_list h gold_list) as [g|]; [|done].
    destruct (read_list h pred_list) as [p|]; [|done].
    destruct (Metric.same_arity g p); [|done].
    destruct (alloc h (PyList g)) as [dup h1] eqn:H1.
    destruct (alloc_fresh h (PyList g)) as [Hnew Hh1].
    rewrite H1 in Hnew, Hh1; simpl in Hnew, Hh1.
    apply (for_in_keeps
             (λ s, ∀ l o, h !! l = Some o → s.2 !! l = Some o));
      [| |done].
    + intros x s Hs. by apply match_body_keeps.
    + simpl. intros l' o' Hl'. subst h1.
      rewrite lookup_insert_ne; [done | congruence].
Qed.

(** The loop over the elements, on the store, is [Metric.match_loop] on
    the contents of the working copy. *)
Lemma for_list_match_loop (dup : loc) p d self h :
  h !! dup = Some (PyList d) →
  ∃ h',
    for_list p (MetricStore.match_body dup) (self, h)
    = (((Metric.match_loop p d self).1.1, h'),
       (Metric.match_loop p d self).2)
    ∧ (∀ l, l ≠ dup → h' !! l = h !! l).
Proof.
  revert d self h. induction p as [|x p IH]; intros d self h Hd; simpl.
  - by exists h.
  - unfold MetricStore.match_body at 1, read_list. simpl. rewrite Hd.
    case_bool_decide as Hin.
    + simpl. destruct (match_mode self) eqn:Hm.
      * by apply IH.
      * destruct (list_remove x d) as [d'|] eqn:Hrm; [|by exists h].
        destruct (IH d' (Metric.add_tp self 1) (<[dup := PyList d']> h))
          as (h' & -> & Hh'); [by rewrite lookup_insert_eq|].
        exists h'. split; [done|].
        intros l Hl. rewrite Hh' by done. by rewrite lookup_insert_ne.
      * by apply IH.
    + by apply IH.
Qed.

(** On list arguments the call on the store computes what
    [Metric.count_instance] computes on their contents, also when the two
    arguments are one and the same object. *)
Lemma metric_count_instance_refines self (gold_list pred_list : loc) h g p :
  h !! gold_list = Some (PyList g) →
  h !! pred_list = Some (PyList p) →
  ∃ h',
    MetricStore.count_instance self gold_list pred_list h
    = (((Metric.count_instance self g p).1, h'),
       (Metric.count_instance self g p).2).
Proof.
  intros Hg Hp. unfold MetricStore.count_instance, Metric.count_instance.
  assert (∀ self, match_mode self ≠ ModeSet → ∃ h',
    match read_list h gold_list with
    | Ok g0 =>
        let self0 := Metric.add_gold_num self (Z.of_nat (length g0)) in
        match read_list h pred_list with
        | Ok p0 =>
            let self1 := Metric.add_pred_num self0 (Z.of_nat (length p0)) in
            if Metric.same_arity g0 p0
            then
              let '(dup_gold_list, h0) := alloc h (PyList g0) in
              for_in (S (length p0)) 0 (λ s, read_list s.2 pred_list)
                (MetricStore.match_body dup_gold_list) (self1, h0)
            else (self1, h, Some AssertionError)
        | Raise e => (self0, h, Some e)
        end
    | Raise e => (self, h, Some e)
    end
    = ((let self0 := Metric.add_gold_num self (Z.of_nat (length g)) in
        let self1 := Metric.add_pred_num self0 (Z.of_nat (length p)) in
        if Metric.same_arity g p
        then let '(self2, _, e) := Metric.match_loop p g self1 in (self2, e)
        else (self1, Some AssertionError)).1, h',
       (let self0 := Metric.add_gold_num self (Z.of_nat (length g)) in
        let self1 := Metric.add_pred_num self0 (Z.of_nat (length p)) in
        if Metric.same_arity g p
        then let '(self2, _, e) := Metric.match_loop p g self1 in (self2, e)
        else (self1, Some AssertionError)).2)) as Hloop.
  { clear self. intros self _. unfold read_list at 1 2. rewrite Hg, Hp.
    cbv zeta. destruct (Metric.same_arity g p); [|by exists h].
    destruct (alloc h (PyList g)) as [dup h1] eqn:H1.
    destruct (alloc_fresh h (PyList g)) as [Hnew Hh1].
    rewrite H1 in Hnew, Hh1; simpl in Hnew, Hh1.
    rewrite (for_in_for_list
      (λ s, s.2 !! pred_list = Some (PyList p)
            ∧ ∃ d, s.2 !! dup = Some (PyList d)) _ _ p).
    - rewrite drop_0.
      destruct (for_list_match_loop dup p g
        (Metric.add_pred_num
           (Metric.add_gold_num self (Z.of_nat (length g)))
           (Z.of_nat (length p))) h1) as (h' & -> & _).
      { subst h1. apply lookup_insert_eq. }
      exists h'. by destruct (Metric.match_loop _ _ _) as [[??]?].
    - intros s [Hs _]. unfold read_list. by rewrite Hs.
    - intros x s [Hs [d Hd]]. unfold MetricStore.match_body, read_list.
      rewrite Hd. case_bool_decide; [|eauto]. simpl.
      destruct (match_mode s.1); simpl; eauto.
      destruct (list_remove x d); simpl; [|eauto].
      rewrite lookup_insert_ne by congruence.
      rewrite lookup_insert_eq. eauto.
    - simpl. lia.
    - simpl. subst h1. rewrite lookup_insert_eq.
      rewrite lookup_insert_ne by congruence. eauto. }
  destruct (match_mode self) eqn:Hm; [|apply Hloop; congruence..].
  unfold read_list at 1. rewrite Hg.
  destruct (alloc h (PySet (list_to_set g))) as [l1 h1] eqn:H1.
  assert (h1 !! pred_list = Some (PyList p)) as Hp1.
  { replace h1 with (alloc h (PySet (list_to_set g))).2 by by rewrite H1.
    by apply alloc_keeps. }
  unfold read_list. rewrite Hp1.
  destruct (alloc h1 (PySet (list_to_set p))) as [l2 h2].
  destruct (alloc h2 (PySet (list_to_set g ∩ list_to_set p))) as [l3 h3].
  by exists h3.
Qed.

Lemma read_list_Raise h (l : loc) (e : exn) :
  read_list h l = Raise e → e = TypeError.
Proof.
  unfold read_list. destruct (h !! l) as [[]|]; by intros [= <-].
Qed.

Lemma read_list_Ok h (l : loc) (xs : list item) :
  read_list h l = Ok xs → h !! l = Some (PyList xs).
Proof.
  unfold read_list. destruct (h !! l) as [[]|]; by intros [= <-].
Qed.

(** The call on the store raises [TypeError] on an argument that is no
    list and [AssertionError] on lists of different arity, and nothing
    else: its loop never reaches its bound. *)
Lemma metric_count_instance_st_exn self (gold_list pred_list : loc) h
  (e : exn) :
  (MetricStore.count_instance self gold_list pred_list h).2 = Some e →
  e = TypeError ∨ e = AssertionError.
Proof.
  destruct (read_list h gold_list) as [g|e1] eqn:Hg.
  - destruct (read_list h pred_list) as [p|e2] eqn:Hp.
    + destruct (metric_count_instance_refines self gold_list pred_list h g p)
        as (h' & ->); [by apply read_list_Ok..|].
      simpl. intros ?%count_instance_exn. by right.
    + unfold MetricStore.count_instance. rewrite Hg.
      destruct (match_mode self).
      * destruct (alloc h (PySet (list_to_set g))) as [l1 h1].
        destruct (read_list h1 pred_list) as [p|e3] eqn:Hp1.
        -- destruct (alloc h1 (PySet (list_to_set p))) as [l2 h2].
           by destruct (alloc h2 (PySet (list_to_set g ∩ list_to_set p))).
        -- simpl. intros [= <-]. left. by eapply read_list_Raise.
      * rewrite Hp. simpl. intros [= <-]. left. by eapply read_list_Raise.
      * rewrite Hp. simpl. intros [= <-]. left. by eapply read_list_Raise.
  - unfold MetricStore.count_instance. rewrite Hg.
    destruct (match_mode self); simpl; intros [= <-]; left;
      by eapply read_list_Raise.
Qed.

End MetricStoreFacts.

Section RecordStoreFacts.

Context {V : Type} `{EqDecision V}.
Variable value_ltb : V -> V -> bool.
Variable cls : record_class.

Implicit Types (h : gmap loc (recobj V)) (self : Metric).
Implicit Types (g p : list (record V)) (nf : list bool).

(** The body of the inner loop writes to the flags and nowhere else. *)
Lemma scan_body_keeps h0 (gold_list non_found : loc) (pred : record V)
  (gold_index : nat) (s : Metric * gmap loc (recobj V)) :
  h0 !! non_found = None →
  (∀ l o, h0 !! l = Some o → s.2 !! l = Some o) →
  ∀ l o, h0 !! l = Some o →
         (RecordStore.scan_body value_ltb cls gold_list non_found pred
            gold_index s).1.2 !! l = Some o.
Proof.
  intros Hnew Hs l o Hl. unfold RecordStore.scan_body.
  destruct (RecordStore.read_bools s.2 non_found) as [nf|]; [|by apply Hs].
  destruct (nf !! gold_index) as [[|]|]; try by apply Hs.
  destruct (RecordStore.read_records s.2 gold_list) as [g|]; [|by apply Hs].
  destruct (g !! gold_index) as [gold|]; [|by apply Hs].
  destruct (is_equal value_ltb cls gold pred); [|by apply Hs]. simpl.
  destruct (match_mode s.1); simpl;
    (rewrite lookup_insert_ne by congruence); by apply Hs.
Qed.

Lemma pred_body_keeps h0 (gold_list gold_indexes non_found : loc)
  (pred : record V) (s : Metric * gmap loc (recobj V)) :
  h0 !! non_found = None →
  (∀ l o, h0 !! l = Some o → s.2 !! l = Some o) →
  ∀ l o, h0 !! l = Some o →
         (RecordStore.pred_body value_ltb cls gold_list gold_indexes
            non_found pred s).1.2 !! l = Some o.
Proof.
  intros Hnew Hs. unfold RecordStore.pred_body.
  destruct (RecordStore.read_indexes s.2 gold_indexes) as [indexes|];
    [|done].
  pose proof (for_in_keeps
    (λ s, ∀ l o, h0 !! l = Some o → s.2 !! l = Some o)
    (λ s, RecordStore.read_indexes s.2 gold_indexes)
    (RecordStore.scan_body value_ltb cls gold_list non_found pred)
    (S (length indexes)) 0 s
    (λ x s Hs, scan_body_keeps h0 gold_list non_found pred x s Hnew Hs) Hs)
    as Hkeep.
  by destruct (for_in _ _ _ _ _) as [s' [e|]].
Qed.

(** Every object of the store is after the call what it was before it,
    whatever the arguments are and however the call ends. *)
Lemma record_count_instance_frame self (gold_list pred_list : loc) h
  (l : loc) (o : recobj V) :
  h !! l = Some o →
  (RecordStore.count_instance value_ltb cls self gold_list pred_list h).1.2
    !! l = Some o.
Proof.
  intros Hl. unfold RecordStore.count_instance.
  assert (∀ self, 
    (match RecordStore.read_records h gold_list with
     | Ok g =>
         let self0 := Metric.add_gold_num self (Z.of_nat (length g)) in
         match RecordStore.read_records h pred_list with
         | Ok p =>
             let self1 := Metric.add_pred_num self0 (Z.of_nat (length p)) in
             let '(gold_indexes, h0) :=
               alloc h (IndexList (seq 0 (length g))) in
             let '(non_found, h1) :=
               alloc h0 (BoolList (replicate (length g) true)) in
             for_in (S (length p)) 0
               (λ s, RecordStore.read_records s.2 pred_list)
               (RecordStore.pred_body value_ltb cls gold_list gold_indexes
                  non_found) (self1, h1)
         | Raise e => (self0, h, Some e)
         end
     | Raise e => (self, h, Some e)
     end).1.2 !! l = Some o) as Hloop.
  { clear self. intros self.
    destruct (RecordStore.read_records h gold_list) as [g|]; [|done].
    destruct (RecordStore.read_records h pred_list) as [p|]; [|done].
    cbv zeta.
    destruct (alloc h (IndexList (seq 0 (length g)))) as [il h1] eqn:H1.
    destruct (alloc_fresh h (IndexList (seq 0 (length g)))) as [Hn1 Hh1].
    rewrite H1 in Hn1, Hh1; simpl in Hn1, Hh1.
    destruct (alloc h1 (BoolList (replicate (length g) true)))
      as [nfl h2] eqn:H2.
    destruct (alloc_fresh h1 (BoolList (replicate (length g) true)))
      as [Hn2 Hh2].
    rewrite H2 in Hn2, Hh2; simpl in Hn2, Hh2.
    assert (h !! nfl = None) as Hnfl.
    { destruct (h !! nfl) eqn:Hx; [|done].
      subst h1. rewrite lookup_insert_ne in Hn2; congruence. }
    apply (for_in_keeps
             (λ s, ∀ l o, h !! l = Some o → s.2 !! l = Some o));
      [| |done].
    - intros x s Hs. by apply pred_body_keeps.
    - simpl. intros l' o' Hl'. subst h2 h1.
      rewrite !lookup_insert_ne; [done | congruence..]. }
  destruct (match_mode self); [done | apply Hloop..].
Qed.

(** The inner loop over the elements, on the store, is [scan_gold] on the
    contents of the gold list and of the flags. *)
Lemma for_list_scan_gold (gold_list non_found : loc) (pred : record V)
  (indexes : list nat) g nf self h :
  h !! gold_list = Some (RecList g) →
  h !! non_found = Some (BoolList nf) →
  ∃ h',
    for_list indexes
      (RecordStore.scan_body value_ltb cls gold_list non_found pred) (self, h)
    = (((scan_gold value_ltb cls g pred indexes nf self).1.1, h'),
       (scan_gold value_ltb cls g pred indexes nf self).2)
    ∧ h' !! non_found
      = Some (BoolList (scan_gold value_ltb cls g pred indexes nf self).1.2)
    ∧ (∀ l, l ≠ non_found → h' !! l = h !! l).
Proof.
  revert nf self h.
  induction indexes as [|i rest IH]; intros nf self h Hg Hnf; simpl.
  - by exists h.
  - unfold RecordStore.scan_body at 1.
    unfold RecordStore.read_bools, RecordStore.read_records. simpl.
    rewrite Hnf. destruct (nf !! i) as [[|]|] eqn:Hi;
      [|by apply IH|by exists h].
    rewrite Hg. destruct (g !! i) as [gold|]; [|by exists h].
    destruct (is_equal value_ltb cls gold pred); [|by apply IH]. simpl.
    assert (gold_list ≠ non_found) as Hne by congruence.
    destruct (match_mode self) eqn:Hm.
    + destruct (IH (<[i := false]> nf) (Metric.add_tp self 1)
                  (<[non_found := BoolList (<[i := false]> nf)]> h))
        as (h' & -> & Hnf' & Hh');
        [by rewrite lookup_insert_ne | by rewrite lookup_insert_eq |].
      exists h'. split_and!; [done..|].
      intros l Hl. rewrite Hh' by done. by rewrite lookup_insert_ne.
    + eexists. simpl. split_and!; [done | by rewrite lookup_insert_eq |].
      intros l Hl. by rewrite lookup_insert_ne.
    + destruct (IH (<[i := false]> nf) (Metric.add_tp self 1)
                  (<[non_found := BoolList (<[i := false]> nf)]> h))
        as (h' & -> & Hnf' & Hh');
        [by rewrite lookup_insert_ne | by rewrite lookup_insert_eq |].
      exists h'. split_and!; [done..|].
      intros l Hl. rewrite Hh' by done. by rewrite lookup_insert_ne.
Qed.

(** The body of the outer loop is one scan. *)
Lemma pred_body_scan_gold (gold_list gold_indexes non_found : loc)
  (pred : record V) (indexes : list nat) g nf self h :
  h !! gold_list = Some (RecList g) →
  h !! gold_indexes = Some (IndexList indexes) →
  h !! non_found = Some (BoolList nf) →
  ∃ h',
    RecordStore.pred_body value_ltb cls gold_list gold_indexes non_found
      pred (self, h)
    = (((scan_gold value_ltb cls g pred indexes nf self).1.1, h'),
       match (scan_gold value_ltb cls g pred indexes nf self).2 with
       | None => Next
       | Some e => Throw e
       end)
    ∧ h' !! non_found
      = Some (BoolList (scan_gold value_ltb cls g pred indexes nf self).1.2)
    ∧ (∀ l, l ≠ non_found → h' !! l = h !! l).
Proof.
  intros Hg Hi Hnf. unfold RecordStore.pred_body.
  unfold RecordStore.read_indexes at 1. cbn [snd]. rewrite Hi.
  rewrite (for_in_for_list
    (λ s, s.2 !! gold_indexes = Some (IndexList indexes)
          ∧ ∃ nf, s.2 !! non_found = Some (BoolList nf)) _ _ indexes).
  - rewrite drop_0.
    destruct (for_list_scan_gold gold_list non_found pred indexes g nf
                self h Hg Hnf) as (h' & -> & Hnf' & Hh').
    exists h'. by destruct (scan_gold _ _ _ _ _ _ _).2.
  - intros s [Hs _]. unfold RecordStore.read_indexes. by rewrite Hs.
  - intros x s [Hs [nf0 Hnf0]]. unfold RecordStore.scan_body.
    unfold RecordStore.read_bools. rewrite Hnf0.
    destruct (nf0 !! x) as [[|]|]; try by eauto.
    destruct (RecordStore.read_records s.2 gold_list) as [g0|]; [|by eauto].
    destruct (g0 !! x) as [gold|]; [|by eauto].
    destruct (is_equal value_ltb cls gold pred); [|by eauto]. simpl.
    destruct (match_mode s.1); simpl;
      (rewrite lookup_insert_ne by congruence);
      rewrite lookup_insert_eq; eauto.
  - simpl. lia.
  - simpl. eauto.
Qed.

(** The outer loop over the elements, on the store, is [scan_preds]. *)
Lemma for_list_scan_preds (gold_list gold_indexes non_found : loc)
  (indexes : list nat) g p nf self h :
  h !! gold_list = Some (RecList g) →
  h !! gold_indexes = Some (IndexList indexes) →
  h !! non_found = Some (BoolList nf) →
  ∃ h',
    for_list p
      (RecordStore.pred_body value_ltb cls gold_list gold_indexes non_found)
      (self, h)
    = (((scan_preds value_ltb cls g p indexes nf self).1.1, h'),
       (scan_preds value_ltb cls g p indexes nf self).2)
    ∧ (∀ l, l ≠ non_found → h' !! l = h !! l).
Proof.
  revert nf self h.
  induction p as [|pred rest IH]; intros nf self h Hg Hi Hnf; simpl.
  - by exists h.
  - destruct (pred_body_scan_gold gold_list gold_indexes non_found pred
                indexes g nf self h Hg Hi Hnf) as (h1 & -> & Hnf1 & Hh1).
    assert (gold_list ≠ non_found) as Hne1 by congruence.
    assert (gold_indexes ≠ non_found) as Hne2 by congruence.
    destruct (scan_gold value_ltb cls g pred indexes nf self)
      as [[self1 nf1] [e|]]; simpl in *.
    + by exists h1.
    + destruct (IH nf1 self1 h1) as (h' & -> & Hh');
        [by rewrite Hh1..|done|].
      exists h'. split; [done|].
      intros l Hl. by rewrite Hh', Hh1.
Qed.

(** On list arguments the call on the store computes what
    [record_count_instance] computes on their contents. *)
Lemma record_count_instance_refines self (gold_list pred_list : loc) h g p :
  h !! gold_list = Some (RecList g) →
  h !! pred_list = Some (RecList p) →
  ∃ h',
    RecordStore.count_instance value_ltb cls self gold_list pred_list h
    = (((record_count_instance value_ltb cls self g p).1, h'),
       (record_count_instance value_ltb cls self g p).2).
Proof.
  intros Hg Hp. unfold RecordStore.count_instance, record_count_instance.
  assert (∀ self, ∃ h',
    match RecordStore.read_records h gold_list with
    | Ok g0 =>
        let self0 := Metric.add_gold_num self (Z.of_nat (length g0)) in
        match RecordStore.read_records h pred_list with
        | Ok p0 =>
            let self1 := Metric.add_pred_num self0 (Z.of_nat (length p0)) in
            let '(gold_indexes, h0) :=
              alloc h (IndexList (seq 0 (length g0))) in
            let '(non_found, h1) :=
              alloc h0 (BoolList (replicate (length g0) true)) in
            for_in (S (length p0)) 0
              (λ s, RecordStore.read_records s.2 pred_list)
              (RecordStore.pred_body value_ltb cls gold_list gold_indexes
                 non_found) (self1, h1)
        | Raise e => (self0, h, Some e)
        end
    | Raise e => (self, h, Some e)
    end
    = ((let self0 := Metric.add_gold_num self (Z.of_nat (length g)) in
        let self1 := Metric.add_pred_num self0 (Z.of_nat (length p)) in
        let gold_indexes := seq 0 (length g) in
        let non_found := replicate (length g) true in
        let '(self2, _, e) :=
          scan_preds value_ltb cls g p gold_indexes non_found self1 in
        (self2, e)).1, h',
       (let self0 := Metric.add_gold_num self (Z.of_nat (length g)) in
        let self1 := Metric.add_pred_num self0 (Z.of_nat (length p)) in
        let gold_indexes := seq 0 (length g) in
        let non_found := replicate (length g) true in
        let '(self2, _, e) :=
          scan_preds value_ltb cls g p gold_indexes non_found self1 in
        (self2, e)).2)) as Hloop.
  { clear self. intros self.
    unfold RecordStore.read_records at 1 2. rewrite Hg, Hp. cbv zeta.
    destruct (alloc h (IndexList (seq 0 (length g)))) as [il h1] eqn:H1.
    destruct (alloc_fresh h (IndexList (seq 0 (length g)))) as [Hn1 Hh1].
    rewrite H1 in Hn1, Hh1; simpl in Hn1, Hh1.
    destruct (alloc h1 (BoolList (replicate (length g) true)))
      as [nfl h2] eqn:H2.
    destruct (alloc_fresh h1 (BoolList (replicate (length g) true)))
      as [Hn2 Hh2].
    rewrite H2 in Hn2, Hh2; simpl in Hn2, Hh2.
    assert (il ≠ gold_list ∧ il ≠ pred_list) as [Hil1 Hil2]
      by (split; congruence).
    assert (nfl ≠ il) as Hnfl0.
    { intros ->. subst h1. by rewrite lookup_insert_eq in Hn2. }
    assert (nfl ≠ gold_list ∧ nfl ≠ pred_list) as [Hnfl1 Hnfl2].
    { subst h1. split; intros ->;
        rewrite lookup_insert_ne in Hn2 by done; congruence. }
    assert (h2 !! gold_list = Some (RecList g)
            ∧ h2 !! pred_list = Some (RecList p)
            ∧ h2 !! il = Some (IndexList (seq 0 (length g)))
            ∧ h2 !! nfl = Some (BoolList (replicate (length g) true)))
      as (Hg2 & Hp2 & Hi2 & Hnf2).
    { subst h2 h1. rewrite lookup_insert_eq.
      rewrite !lookup_insert_ne by done. by rewrite lookup_insert_eq. }
    rewrite (for_in_for_list
      (λ s, s.2 !! pred_list = Some (RecList p)
            ∧ s.2 !! gold_list = Some (RecList g)
            ∧ s.2 !! il = Some (IndexList (seq 0 (length g)))
            ∧ ∃ nf, s.2 !! nfl = Some (BoolList nf)) _ _ p).
    - rewrite drop_0.
      destruct (for_list_scan_preds gold_list il nfl (seq 0 (length g)) g p
        (replicate (length g) true)
        (Metric.add_pred_num
           (Metric.add_gold_num self (Z.of_nat (length g)))
           (Z.of_nat (length p))) h2 Hg2 Hi2 Hnf2) as (h' & -> & _).
      exists h'. by destruct (scan_preds _ _ _ _ _ _ _) as [[??]?].
    - intros s [Hs _]. unfold RecordStore.read_records. by rewrite Hs.
    - intros x [self0 h0] (Hs1 & Hs2 & Hs3 & nf0 & Hs4). simpl in *.
      destruct (pred_body_scan_gold gold_list il nfl x (seq 0 (length g))
                  g nf0 self0 h0 Hs2 Hs3 Hs4) as (h' & -> & Hnf' & Hh').
      simpl. rewrite !Hh' by done. eauto.
    - simpl. lia.
    - simpl. eauto. }
  destruct (match_mode self); [by exists h | apply Hloop..].
Qed.

Lemma read_records_Raise h (l : loc) (e : exn) :
  RecordStore.read_records h l = Raise e → e = TypeError.
Proof.
  unfold RecordStore.read_records.
  destruct (h !! l) as [[]|]; by intros [= <-].
Qed.

Lemma read_records_Ok h (l : loc) (xs : list (record V)) :
  RecordStore.read_records h l = Ok xs → h !! l = Some (RecList xs).
Proof.
  unfold RecordStore.read_records.
  destruct (h !! l) as [[]|]; by intros [= <-].
Qed.

(** The call on the store raises [NotImplementedError] in ['set'] mode
    and [TypeError] on an argument that is no list, and nothing else: its
    loops never reach their bounds. *)
Lemma record_count_instance_st_exn self (gold_list pred_list : loc) h
  (e : exn) :
  (RecordStore.count_instance value_ltb cls self gold_list pred_list h).2
  = Some e →
  e = TypeError ∨ e = NotImplementedError.
Proof.
  destruct (RecordStore.read_records h gold_list) as [g|e1] eqn:Hg.
  - destruct (RecordStore.read_records h pred_list) as [p|e2] eqn:Hp.
    + destruct (record_count_instance_refines self gold_list pred_list h g p)
        as (h' & ->); [by apply read_records_Ok..|].
      simpl. intros ?%record_count_instance_exn. by right.
    + unfold RecordStore.count_instance. rewrite Hg, Hp.
      destruct (match_mode self); simpl; intros [= <-];
        [by right | left; by eapply read_records_Raise..].
  - unfold RecordStore.count_instance. rewrite Hg.
    destruct (match_mode self); simpl; intros [= <-];
      [by right | left; by eapply read_records_Raise..].
Qed.

End RecordStoreFacts.

(** C9. [Metric.count_instance] and [RecordMetric.count_instance] leave
    every object of the caller as it is, in every match mode and however
    the call ends: the removals of ['normal'] mode go to the copy that
    [deepcopy] allocated, the flags are a list of the call's own.  On list
    arguments the call computes what the functions on list contents
    compute, also when both arguments are the same object, so the same two
    lists can be given to one accumulator after the other and each sees
    them unchanged.  The loops of the store model never reach their
    bounds. *)
Theorem count_instance_leaves_arguments :
  (∀ (self : Metric) (gold_list pred_list : loc) (h : gmap loc pyobj),
     (∀ l o, h !! l = Some o →
        (MetricStore.count_instance self gold_list pred_list h).1.2 !! l
        = Some o)
     ∧ (MetricStore.count_instance self gold_list pred_list h).2
       ≠ Some OutOfFuel
     ∧ (∀ g p,
          h !! gold_list = Some (PyList g) →
          h !! pred_list = Some (PyList p) →
          ∃ h',
            MetricStore.count_instance self gold_list pred_list h
            = (((Metric.count_instance self g p).1, h'),
               (Metric.count_instance self g p).2)
            ∧ h' !! gold_list = Some (PyList g)
            ∧ h' !! pred_list = Some (PyList p)
            ∧ ∀ other : Metric,
                ∃ h'',
                  MetricStore.count_instance other gold_list pred_list h'
                  = (((Metric.count_instance other g p).1, h''),
                     (Metric.count_instance other g p).2)))
  ∧ (∀ (V : Type) (eq_dec : EqDecision V) (value_ltb : V → V → bool)
       (cls : record_class) (self : Metric) (gold_list pred_list : loc)
       (h : gmap loc (recobj V)),
       (∀ l o, h !! l = Some o →
          (RecordStore.count_instance value_ltb cls self
             gold_list pred_list h).1.2 !! l = Some o)
       ∧ (RecordStore.count_instance value_ltb cls self
            gold_list pred_list h).2 ≠ Some OutOfFuel
       ∧ (∀ g p,
            h !! gold_list = Some (RecList g) →
            h !! pred_list = Some (RecList p) →
            ∃ h',
              RecordStore.count_instance value_ltb cls self
                gold_list pred_list h
              = (((record_count_instance value_ltb cls self g p).1, h'),
                 (record_count_instance value_ltb cls self g p).2)
              ∧ h' !! gold_list = Some (RecList g)
              ∧ h' !! pred_list = Some (RecList p))).
Proof.
  split.
  - intros self gold_list pred_list h. split_and!.
    + intros l o. apply metric_count_instance_frame.
    + by intros [?|?]%metric_count_instance_st_exn.
    + intros g p Hg Hp.
      destruct (metric_count_instance_refines self gold_list pred_list h g p
                  Hg Hp) as [h' Hr].
      pose proof (metric_count_instance_frame self gold_list pred_list h
                    _ _ Hg) as Hg'.
      pose proof (metric_count_instance_frame self gold_list pred_list h
                    _ _ Hp) as Hp'.
      rewrite Hr in Hg', Hp'. simpl in Hg', Hp'.
      exists h'. split_and!; [done..|].
      intros other. by apply metric_count_instance_refines.
  - intros V eq_dec value_ltb cls self gold_list pred_list h. split_and!.
    + intros l o. apply record_count_instance_frame.
    + by intros [?|?]%record_count_instance_st_exn.
    + intros g p Hg Hp.
      destruct (record_count_instance_refines value_ltb cls self
                  gold_list pred_list h g p Hg Hp) as [h' Hr].
      pose proof (record_count_instance_frame value_ltb cls self
                    gold_list pred_list h _ _ Hg) as Hg'.
      pose proof (record_count_instance_frame value_ltb cls self
                    gold_list pred_list h _ _ Hp) as Hp'.
      rewrite Hr in Hg', Hp'. simpl in Hg', Hp'.
      by exists h'.
Qed.

(** C9 at the store [two_lists] in ['normal'] mode: the prediction consumes
    one gold element of the working copy, and the gold list at location 1
    still has its two elements. *)
Lemma count_instance_leaves_arguments_witness :
  (MetricStore.count_instance (Metric.init ModeNormal) 1%positive 2%positive
     two_lists).1.2 !! 1%positive
  = Some (PyList [PER_a; PER_a]).
Proof.
  apply (proj1 (proj1 count_instance_leaves_arguments
                  (Metric.init ModeNormal) 1%positive 2%positive two_lists)).
  reflexivity.
Defined.

(** * Further properties of the accumulator *)

Lemma same_arity_diag (g : list item) : Metric.same_arity g g = true.
Proof. destruct g; simpl; [done|]. by apply bool_decide_eq_true_2. Qed.

Lemma same_arity_sym (g p : list item) :
  Metric.same_arity g p = Metric.same_arity p g.
Proof.
  destruct g as [|x g], p as [|y p]; simpl; try done.
  apply bool_decide_ext. split; congruence.
Qed.

Lemma filter_elem_of_self (g : list item) : filter (λ x, x ∈ g) g = g.
Proof.
  assert (∀ l : list item, (∀ x, x ∈ l → x ∈ g) → filter (λ x, x ∈ g) l = l)
    as Hall.
  { induction l as [|x l IH]; intros Hsub; [done|].
    rewrite filter_cons, decide_True by (apply Hsub; left).
    f_equal. apply IH. intros y Hy. apply Hsub. by right. }
  by apply Hall.
Qed.

(** X1. A prediction list that is the gold list itself is counted as fully
    correct in every match mode, and the call never raises: [tp],
    [gold_num] and [pred_num] all grow by the same number, the number of
    distinct items in ['set'] mode and the length of the list in the other
    two modes. *)
Theorem count_instance_self (self : Metric) (gold_list : list item) :
  let n := match match_mode self with
           | ModeSet => length (remove_dups gold_list)
           | _ => length gold_list
           end in
  Metric.count_instance self gold_list gold_list
  = (mkMetric (tp self + Z.of_nat n) (gold_num self + Z.of_nat n)
       (pred_num self + Z.of_nat n) (match_mode self), None).
Proof.
  destruct (match_mode self) eqn:Hm; simpl.
  - rewrite count_instance_set by done.
    replace (list_to_set gold_list ∩ list_to_set gold_list : gset item)
      with (list_to_set gold_list : gset item) by set_solver.
    by rewrite size_list_to_set_remove_dups.
  - rewrite count_instance_normal by (done || apply same_arity_diag).
    replace (list_to_set_disj gold_list ∩ list_to_set_disj gold_list
             : gmultiset item)
      with (list_to_set_disj gold_list : gmultiset item) by multiset_solver.
    by rewrite size_list_to_set_disj.
  - rewrite count_instance_multimatch by (done || apply same_arity_diag).
    by rewrite filter_elem_of_self.
Qed.

(** X2. Outside ['multimatch'] mode the matching is symmetric: exchanging
    the gold list and the prediction list gives the same [tp] and the same
    exception, with what is added to [gold_num] and to [pred_num]
    exchanged. *)
Theorem count_instance_swap (self : Metric) (gold_list pred_list : list item) :
  match_mode self ≠ ModeMultimatch →
  tp (Metric.count_instance self pred_list gold_list).1
  = tp (Metric.count_instance self gold_list pred_list).1
  ∧ gold_num (Metric.count_instance self pred_list gold_list).1
      - gold_num self
    = pred_num (Metric.count_instance self gold_list pred_list).1
      - pred_num self
  ∧ pred_num (Metric.count_instance self pred_list gold_list).1
      - pred_num self
    = gold_num (Metric.count_instance self gold_list pred_list).1
      - gold_num self
  ∧ (Metric.count_instance self pred_list gold_list).2
    = (Metric.count_instance self gold_list pred_list).2.
Proof.
  intros Hmm. destruct (match_mode self) eqn:Hm; [| |done].
  - rewrite !count_instance_set by done. simpl.
    replace (list_to_set pred_list ∩ list_to_set gold_list : gset item)
      with (list_to_set gold_list ∩ list_to_set pred_list : gset item)
      by set_solver.
    split_and!; (done || lia).
  - destruct (Metric.same_arity gold_list pred_list) eqn:Ha.
    + rewrite (count_instance_normal self gold_list pred_list) by done.
      rewrite (count_instance_normal self pred_list gold_list)
        by (by rewrite 1?same_arity_sym).
      simpl.
      replace (list_to_set_disj gold_list ∩ list_to_set_disj pred_list
               : gmultiset item)
        with (list_to_set_disj pred_list ∩ list_to_set_disj gold_list
              : gmultiset item) by multiset_solver.
      split_and!; (done || lia).
    + rewrite (count_instance_arity self gold_list pred_list)
        by (done || congruence).
      rewrite (count_instance_arity self pred_list gold_list)
        by (congruence || by rewrite same_arity_sym).
      simpl. split_and!; (done || lia).
Qed.

(** X2 at gold [[a, a]] and pred [[a]] in ['normal'] mode. *)
Lemma count_instance_swap_witness :
  tp (Metric.count_instance (Metric.init ModeNormal) [PER_a] [PER_a; PER_a]).1
  = tp (Metric.count_instance (Metric.init ModeNormal)
          [PER_a; PER_a] [PER_a]).1.
Proof.
  apply (count_instance_swap (Metric.init ModeNormal) [PER_a; PER_a] [PER_a]).
  discriminate.
Defined.

(** X3. The result of a call does not depend on the order of the items
    in the two lists: rearranging the gold list and the prediction list
    changes nothing, in any match mode, as long as the arity assertion,
    which looks at the first items only, passes or fails as before. *)
Theorem count_instance_permutation (self : Metric)
  (gold_list gold_list' pred_list pred_list' : list item) :
  gold_list ≡ₚ gold_list' →
  pred_list ≡ₚ pred_list' →
  Metric.same_arity gold_list pred_list
  = Metric.same_arity gold_list' pred_list' →
  Metric.count_instance self gold_list' pred_list'
  = Metric.count_instance self gold_list pred_list.
Proof.
  intros Hg Hp Ha.
  pose proof (Permutation_length Hg) as Hlg.
  pose proof (Permutation_length Hp) as Hlp.
  destruct (match_mode self) eqn:Hm.
  - rewrite !count_instance_set by done.
    assert (list_to_set gold_list' =@{gset item} list_to_set gold_list) as ->.
    { apply set_eq. intros x. rewrite !elem_of_list_to_set. by rewrite Hg. }
    assert (list_to_set pred_list' =@{gset item} list_to_set pred_list) as ->.
    { apply set_eq. intros x. rewrite !elem_of_list_to_set. by rewrite Hp. }
    done.
  - destruct (Metric.same_arity gold_list pred_list) eqn:Ha1.
    + rewrite !count_instance_normal by done.
      by rewrite <- Hg, <- Hp, Hlg, Hlp.
    + rewrite !count_instance_arity by (done || congruence).
      by rewrite Hlg, Hlp.
  - destruct (Metric.same_arity gold_list pred_list) eqn:Ha1.
    + rewrite !count_instance_multimatch by done.
      rewrite <- Hlg, <- Hlp.
      rewrite (filter_ext_in (λ x, x ∈ gold_list') (λ x, x ∈ gold_list)
                 pred_list') by (intros x _; by rewrite Hg).
      by rewrite <- Hp.
    + rewrite !count_instance_arity by (done || congruence).
      by rewrite Hlg, Hlp.
Qed.

(** X3 at two orders of the same gold pair. *)
Lemma count_instance_permutation_witness :
  Metric.count_instance (Metric.init ModeNormal)
    [rel_org_per; rel_per_org] [rel_per_org]
  = Metric.count_instance (Metric.init ModeNormal)
      [rel_per_org; rel_org_per] [rel_per_org].
Proof.
  apply (count_instance_permutation (Metric.init ModeNormal)
           [rel_per_org; rel_org_per] [rel_org_per; rel_per_org]
           [rel_per_org] [rel_per_org]).
  - apply Permutation_swap.
  - reflexivity.
  - reflexivity.
Defined.

(** ** Batches *)

Lemma count_instance_uniform (self : Metric) (gold_list pred_list : list item) :
  match_mode self ≠ ModeSet →
  Metric.same_arity gold_list pred_list = true →
  Metric.count_instance self gold_list pred_list
  = (mkMetric
       (tp self
        + Z.of_nat (tp_increment (match_mode self) gold_list pred_list))
       (gold_num self + Z.of_nat (length gold_list))
       (pred_num self + Z.of_nat (length pred_list))
       (match_mode self), None).
Proof.
  intros Hm Ha. destruct (match_mode self) eqn:Hmode; [done|..].
  - by rewrite count_instance_normal.
  - by rewrite count_instance_multimatch.
Qed.

(** Matches inside two examples are still matches when the examples are
    pooled. *)
Lemma tp_increment_app (mm : MatchMode) (g1 g2 p1 p2 : list item) :
  (tp_increment mm g1 p1 + tp_increment mm g2 p2
   ≤ tp_increment mm (g1 ++ g2) (p1 ++ p2))%nat.
Proof.
  assert (size (list_to_set_disj p1 ∩ list_to_set_disj g1 : gmultiset item)
          + size (list_to_set_disj p2 ∩ list_to_set_disj g2 : gmultiset item)
          ≤ size (list_to_set_disj (p1 ++ p2) ∩ list_to_set_disj (g1 ++ g2)
                  : gmultiset item))%nat as Hpool.
  { rewrite <- gmultiset_size_disj_union. apply gmultiset_subseteq_size.
    rewrite !list_to_set_disj_app. multiset_solver. }
  destruct mm; simpl; [done..|].
  rewrite filter_app, length_app.
  assert (∀ p g g' : list item, (∀ x, x ∈ g → x ∈ g') →
            (length (filter (λ x, x ∈ g) p)
             ≤ length (filter (λ x, x ∈ g') p))%nat) as Hmono.
  { intros p g g' Hsub. induction p as [|x p IH]; [done|].
    rewrite !filter_cons. destruct (decide (x ∈ g)) as [Hx|Hx].
    - rewrite decide_True by by apply Hsub. simpl. lia.
    - case_decide; simpl; lia. }
  pose proof (Hmono p1 g1 (g1 ++ g2)
                ltac:(intros x Hx; apply elem_of_app; by left)).
  pose proof (Hmono p2 g2 (g1 ++ g2)
                ltac:(intros x Hx; apply elem_of_app; by right)).
  lia.
Qed.

Lemma Forall_concat_length (n : nat) (ls : list (list item)) :
  Forall (Forall (λ x : item, length x = n)) ls →
  Forall (λ x : item, length x = n) (concat ls).
Proof.
  induction 1 as [|l ls Hl _ IH]; simpl; [done|]. by apply Forall_app.
Qed.

(** X4. [count_batch_instance] matches inside each example and never
    across examples.  On batches of tuples of one arity, in ['normal'] and
    ['multimatch'] mode, it never raises, it is the sequence of the
    per-example calls, and against one call on the pooled lists it ends
    with the same [gold_num] and [pred_num] and with a [tp] that is at
    most the pooled [tp]. *)
Theorem count_batch_instance_no_cross_matching (n : nat) (self : Metric)
  (batch_gold_list batch_pred_list : list (list item)) :
  match_mode self ≠ ModeSet →
  length batch_gold_list = length batch_pred_list →
  Forall (Forall (λ x : item, length x = n)) batch_gold_list →
  Forall (Forall (λ x : item, length x = n)) batch_pred_list →
  (Metric.count_batch_instance self batch_gold_list batch_pred_list).2 = None
  ∧ (Metric.count_batch_instance self batch_gold_list batch_pred_list).1
    = after_calls Metric.count_instance self
        (zip batch_gold_list batch_pred_list)
  ∧ (Metric.count_instance self
       (concat batch_gold_list) (concat batch_pred_list)).2 = None
  ∧ gold_num (Metric.count_batch_instance self
                batch_gold_list batch_pred_list).1
    = gold_num (Metric.count_instance self
                  (concat batch_gold_list) (concat batch_pred_list)).1
  ∧ pred_num (Metric.count_batch_instance self
                batch_gold_list batch_pred_list).1
    = pred_num (Metric.count_instance self
                  (concat batch_gold_list) (concat batch_pred_list)).1
  ∧ tp (Metric.count_batch_instance self batch_gold_list batch_pred_list).1
    ≤ tp (Metric.count_instance self
            (concat batch_gold_list) (concat batch_pred_list)).1.
Proof.
  intros Hm Hlen Hg. revert self Hm batch_pred_list Hlen.
  induction Hg as [|g gs Hg0 Hgs IH]; intros self Hm [|p ps] Hlen Hp;
    try done.
  - simpl. rewrite count_instance_uniform by done. simpl.
    destruct (match_mode self); simpl;
      try replace (∅ ∩ ∅ : gmultiset item) with (∅ : gmultiset item)
        by multiset_solver;
      rewrite ?gmultiset_size_empty;
      split_and!; (done || lia).
  - apply Forall_cons in Hp as [Hp0 Hps]. simpl in Hlen.
    assert (Metric.same_arity g p = true) as Ha
      by by eapply same_arity_Forall.
    assert (Metric.same_arity (g ++ concat gs) (p ++ concat ps) = true) as Ha'.
    { eapply same_arity_Forall;
        apply Forall_app; split; (done || by apply Forall_concat_length). }
    simpl. rewrite (count_instance_uniform self g p) by done.
    rewrite (count_instance_uniform self (g ++ concat gs)) by done.
    set (self1 := mkMetric _ _ _ _).
    destruct (IH self1 Hm ps ltac:(lia) Hps)
      as (He & Hseq & Hce & Hgn & Hpn & Htp).
    assert (Metric.same_arity (concat gs) (concat ps) = true) as Ha1.
    { eapply same_arity_Forall; by apply Forall_concat_length. }
    pose proof (count_instance_uniform self1 (concat gs) (concat ps) Hm Ha1)
      as Heq.
    rewrite Heq in Hce, Hgn, Hpn, Htp. simpl in *.
    pose proof (tp_increment_app (match_mode self) g (concat gs) p
                  (concat ps)).
    rewrite !length_app.
    split_and!; (done || lia).
Qed.

(** X4 at two examples whose matches lie across the examples: the batch
    counts none of them. *)
Lemma count_batch_instance_no_cross_matching_witness :
  tp (Metric.count_batch_instance (Metric.init ModeNormal)
        [[PER_a]; []] [[]; [PER_a]]).1
  ≤ tp (Metric.count_instance (Metric.init ModeNormal)
          (concat [[PER_a]; []]) (concat [[]; [PER_a]])).1.
Proof.
  apply (count_batch_instance_no_cross_matching 2 (Metric.init ModeNormal)
           [[PER_a]; []] [[]; [PER_a]]).
  - discriminate.
  - reflexivity.
  - repeat constructor.
  - repeat constructor.
Defined.

(** ** The range of the percentages *)

Lemma Qc_le_iff (x y : Qc) : (x <= y)%Qc ↔ (this x <= this y)%Q.
Proof. reflexivity. Qed.

Lemma Qc_eq_iff (x y : Qc) : x = y ↔ (this x == this y)%Q.
Proof. split; [by intros -> | apply Qc_is_canon]. Qed.

Lemma this_div (a b : Qc) : (this (a / b)%Qc == this a / this b)%Q.
Proof. unfold Qcdiv, Qcmult, Qcinv, Q2Qc; simpl. by rewrite !Qred_correct. Qed.

Lemma this_mult (a b : Qc) : (this (a * b)%Qc == this a * this b)%Q.
Proof. unfold Qcmult, Q2Qc; simpl. by rewrite !Qred_correct. Qed.

Lemma this_plus (a b : Qc) : (this (a + b)%Qc == this a + this b)%Q.
Proof. unfold Qcplus, Q2Qc; simpl. by rewrite !Qred_correct. Qed.

Lemma this_of_count (z : Z) : (this (Metric.of_count z) == inject_Z z)%Q.
Proof. unfold Metric.of_count. simpl. apply Qred_correct. Qed.

(** A ratio of counts with [0 <= a <= b] lies between 0 and 1, and is 1
    exactly when [a = b] and [b] is not 0. *)
Lemma ratio_range (a b : Z) :
  0 ≤ a ≤ b →
  let p := if decide (Metric.of_count b = 0%Qc) then 0%Qc
           else (Metric.of_count a / Metric.of_count b)%Qc in
  (0 <= this p)%Q ∧ (this p <= 1)%Q
  ∧ ((this p == 1)%Q ↔ a = b ∧ b ≠ 0).
Proof.
  intros Hab p. subst p. case_decide as Hb.
  - rewrite Qc_eq_iff, this_of_count in Hb.
    assert (b = 0) as Hb0 by (apply inject_Z_injective; by rewrite Hb).
    split_and!; [by vm_compute..|]. split; [by vm_compute | by intros [_ ?]].
  - rewrite Qc_eq_iff, this_of_count in Hb.
    assert (b ≠ 0) as Hb0 by (intros ->; by apply Hb).
    assert (0 < inject_Z b)%Q as Hpos by (rewrite <- (Zlt_Qlt 0); lia).
    assert (0 <= inject_Z a)%Q as Ha0 by (rewrite <- (Zle_Qle 0); lia).
    assert (inject_Z a <= inject_Z b)%Q as Hle by (rewrite <- Zle_Qle; lia).
    rewrite this_div, !this_of_count.
    split_and!.
    + apply Qle_shift_div_l; [done | lra].
    + apply Qle_shift_div_r; [done | lra].
    + split.
      * intros H1. split; [|done].
        assert (inject_Z a == inject_Z b)%Q as Heq.
        { rewrite <- (Qmult_div_r (inject_Z a) (inject_Z b)) by lra.
          rewrite H1. lra. }
        by apply inject_Z_injective.
      * intros [-> _]. field. lra.
Qed.

(** The harmonic mean of two ratios between 0 and 1 lies between them, and
    is 1 exactly when both are. *)
Lemma harmonic_mean_range (p r : Q) :
  (0 <= p)%Q → (p <= 1)%Q → (0 <= r)%Q → (r <= 1)%Q → (0 < p + r)%Q →
  (0 <= 2 * p * r / (p + r))%Q
  ∧ (2 * p * r / (p + r) <= 1)%Q
  ∧ ((p <= r)%Q →
     (p <= 2 * p * r / (p + r))%Q ∧ (2 * p * r / (p + r) <= r)%Q)
  ∧ ((r <= p)%Q →
     (r <= 2 * p * r / (p + r))%Q ∧ (2 * p * r / (p + r) <= p)%Q)
  ∧ ((2 * p * r / (p + r) == 1)%Q ↔ (p == 1)%Q ∧ (r == 1)%Q).
Proof.
  intros Hp0 Hp1 Hr0 Hr1 Hs. split_and!.
  - apply Qle_shift_div_l; [done|]. nra.
  - apply Qle_shift_div_r; [done|]. nra.
  - intros Hpr. split.
    + apply Qle_shift_div_l; [done|]. nra.
    + apply Qle_shift_div_r; [done|]. nra.
  - intros Hpr. split.
    + apply Qle_shift_div_l; [done|]. nra.
    + apply Qle_shift_div_r; [done|]. nra.
  - split.
    + intros H1.
      assert (2 * p * r == p + r)%Q as H2.
      { rewrite <- (Qmult_div_r (2 * p * r) (p + r)) by lra.
        rewrite H1. lra. }
      assert (p * (1 - r) == 0)%Q as Ha by nra.
      destruct (Qeq_dec r 1) as [Hr|Hr].
      * split; [|done]. nra.
      * assert (p == 0)%Q as Hp.
        { apply Qmult_integral in Ha as [?|?]; [done|].
          exfalso. apply Hr. lra. }
        exfalso. nra.
    + intros [Hp Hr]. rewrite Hp, Hr. reflexivity.
Qed.

Lemma ratio_zero (a b : Z) :
  0 ≤ a ≤ b →
  let p := if decide (Metric.of_count b = 0%Qc) then 0%Qc
           else (Metric.of_count a / Metric.of_count b)%Qc in
  (this p == 0)%Q ↔ a = 0.
Proof.
  intros Hab p. subst p. case_decide as Hb.
  - rewrite Qc_eq_iff, this_of_count in Hb.
    assert (b = 0) as Hb0 by (apply inject_Z_injective; by rewrite Hb).
    split; [intros _; lia | by vm_compute].
  - rewrite Qc_eq_iff, this_of_count in Hb.
    assert (b ≠ 0) as Hb0 by (intros ->; by apply Hb).
    assert (0 < inject_Z b)%Q as Hpos by (rewrite <- (Zlt_Qlt 0); lia).
    rewrite this_div, !this_of_count. split.
    + intros H0.
      assert (inject_Z a == 0)%Q as Heq.
      { rewrite <- (Qmult_div_r (inject_Z a) (inject_Z b)) by lra.
        rewrite H0. lra. }
      apply inject_Z_injective. by rewrite Heq.
    + intros ->. field. lra.
Qed.

(** X5. When [0 <= tp <= gold_num] and [tp <= pred_num], the three
    percentages of [compute_f1] lie between 0 and 100; [F1] is 0 exactly
    when nothing was matched; and when every gold item and every prediction
    was matched and there was at least one, [P], [R] and [F1] are 100. *)
Theorem compute_f1_percentages (self : Metric) (prefix : string) :
  0 ≤ tp self ≤ gold_num self →
  tp self ≤ pred_num self →
  ∃ (m : gmap string Qc) (P R F1 : Qc),
    Metric.compute_f1 self prefix = Ok m
    ∧ m !! (prefix +:+ "P") = Some P
    ∧ m !! (prefix +:+ "R") = Some R
    ∧ m !! (prefix +:+ "F1") = Some F1
    ∧ (0 <= P)%Qc ∧ (P <= Metric.of_count 100)%Qc
    ∧ (0 <= R)%Qc ∧ (R <= Metric.of_count 100)%Qc
    ∧ (0 <= F1)%Qc ∧ (F1 <= Metric.of_count 100)%Qc
    ∧ (F1 = 0%Qc ↔ tp self = 0)
    ∧ (tp self = gold_num self → tp self = pred_num self → tp self ≠ 0 →
       P = Metric.of_count 100 ∧ R = Metric.of_count 100
       ∧ F1 = Metric.of_count 100).
Proof.
  intros Hg Hn. rewrite compute_f1_Ok.
  destruct (ratio_range (tp self) (pred_num self) ltac:(lia))
    as (Hp0 & Hp1 & Hpe).
  destruct (ratio_range (tp self) (gold_num self) ltac:(lia))
    as (Hr0 & Hr1 & Hre).
  pose proof (ratio_zero (tp self) (pred_num self) ltac:(lia)) as Hpz.
  pose proof (ratio_zero (tp self) (gold_num self) ltac:(lia)) as Hrz.
  cbv zeta in *.
  set (p := if decide (Metric.of_count (pred_num self) = 0%Qc) then 0%Qc
            else (Metric.of_count (tp self)
                  / Metric.of_count (pred_num self))%Qc) in *.
  set (r := if decide (Metric.of_count (gold_num self) = 0%Qc) then 0%Qc
            else (Metric.of_count (tp self)
                  / Metric.of_count (gold_num self))%Qc) in *.
  eexists _, _, _, _. split; [reflexivity|].
  split; [rewrite !lookup_insert_ne by (apply key_ne; discriminate);
          apply lookup_insert_eq|].
  split; [rewrite !lookup_insert_ne by (apply key_ne; discriminate);
          apply lookup_insert_eq|].
  split; [apply lookup_insert_eq|].
  assert (this (Metric.of_count 100) == 100)%Q as H100 by done.
  case_decide as Hz.
  - rewrite !Qc_le_iff, !Qc_eq_iff, !this_mult, !H100.
    change (this 0%Qc) with 0%Q.
    rewrite Qc_eq_iff, this_plus in Hz. change (this 0%Qc) with 0%Q in *.
    assert (this p == 0)%Q as Hp by lra.
    assert (this r == 0)%Q as Hr by lra.
    rewrite Hp, Hr. split_and!; try lra.
    + split; [intros _; by apply Hpz | lra].
    + intros Heq1 Heq2 Hne. exfalso. apply Hne. by apply Hpz.
  - rewrite !Qc_le_iff, !Qc_eq_iff, !this_mult, !H100.
    change (this 0%Qc) with 0%Q.
    rewrite Qc_eq_iff, this_plus in Hz. change (this 0%Qc) with 0%Q in *.
    assert (0 < this p + this r)%Q as Hs by lra.
    destruct (harmonic_mean_range (this p) (this r) Hp0 Hp1 Hr0 Hr1 Hs)
      as (Hf0 & Hf1 & Hfa & Hfb & Hfe).
    assert (this (Metric.of_count 2 * p * r / (p + r))%Qc
            == 2 * this p * this r / (this p + this r))%Q as Hf.
    { rewrite this_div, !this_mult, this_plus. by rewrite this_of_count. }
    rewrite Hf. split_and!; try lra.
    + split.
      * intros H0.
        assert (2 * this p * this r == 0)%Q as Hpr.
        { rewrite <- (Qmult_div_r (2 * this p * this r) (this p + this r))
            by lra.
          assert (2 * this p * this r / (this p + this r) == 0)%Q as ->
              by lra.
          lra. }
        assert (this p * this r == 0)%Q as Hpr' by lra.
        apply Qmult_integral in Hpr' as [Hp|Hr];
          [by apply Hpz | by apply Hrz].
      * intros Htp. assert (this p == 0)%Q as Hp by by apply Hpz.
        rewrite Hp. field. lra.
    + intros Heq1 Heq2 Hne.
      assert (this p == 1 ∧ this r == 1)%Q as [H1p H1r].
      { split; [apply Hpe | apply Hre]; split; lia. }
      assert (2 * this p * this r / (this p + this r) == 1)%Q as H1f
          by (apply Hfe; by split).
      split_and!; [lra | lra | rewrite H1f; lra].
Qed.

(** X5 at [tp = gold_num = pred_num = 2]. *)
Lemma compute_f1_percentages_witness :
  ∃ (m : gmap string Qc),
    Metric.compute_f1 (mkMetric 2 2 2 ModeNormal) "" = Ok m
    ∧ m !! ("" +:+ "F1") = Some (Metric.of_count 100).
Proof.
  destruct (compute_f1_percentages (mkMetric 2 2 2 ModeNormal) "")
    as (m & P & R & F1 & Hm & _ & _ & HF & _ & _ & _ & _ & _ & _ & _ & H100);
    [simpl; lia | simpl; lia |].
  destruct H100 as (_ & _ & ->); [done..|]. by exists m.
Defined.

Lemma after_calls_metric_nonneg (calls : list (list item * list item))
  (self : Metric) :
  0 ≤ tp self →
  0 ≤ tp (after_calls Metric.count_instance self calls).
Proof.
  revert self. induction calls as [|[g p] calls IH]; intros self Hs; simpl.
  - done.
  - apply IH. destruct (count_instance_step self g p) as (_ & ? & _).
    simpl in *. lia.
Qed.

Lemma after_calls_record_nonneg {V : Type} `{EqDecision V}
  (value_ltb : V → V → bool) (cls : record_class)
  (calls : list (list (record V) * list (record V))) (self : Metric) :
  0 ≤ tp self →
  0 ≤ tp (after_calls (record_count_instance value_ltb cls) self calls).
Proof.
  revert self. induction calls as [|[g p] calls IH]; intros self Hs; simpl.
  - done.
  - apply IH.
    destruct (record_count_instance_step value_ltb cls self g p)
      as (_ & ? & _).
    simpl in *. lia.
Qed.

(** The percentages of an accumulator with [0 <= tp <= gold_num] and
    [tp <= pred_num]. *)
Lemma compute_f1_in_range (self : Metric) (prefix : string) :
  0 ≤ tp self ≤ gold_num self →
  tp self ≤ pred_num self →
  ∃ (m : gmap string Qc) (P R F1 : Qc),
    Metric.compute_f1 self prefix = Ok m
    ∧ m !! (prefix +:+ "P") = Some P
    ∧ m !! (prefix +:+ "R") = Some R
    ∧ m !! (prefix +:+ "F1") = Some F1
    ∧ (0 <= P)%Qc ∧ (P <= Metric.of_count 100)%Qc
    ∧ (0 <= R)%Qc ∧ (R <= Metric.of_count 100)%Qc
    ∧ (0 <= F1)%Qc ∧ (F1 <= Metric.of_count 100)%Qc.
Proof.
  intros Hg Hn. rewrite compute_f1_Ok.
  destruct (ratio_range (tp self) (pred_num self) ltac:(lia))
    as (Hp0 & Hp1 & _).
  destruct (ratio_range (tp self) (gold_num self) ltac:(lia))
    as (Hr0 & Hr1 & _).
  cbv zeta in *.
  set (p := if decide (Metric.of_count (pred_num self) = 0%Qc) then 0%Qc
            else (Metric.of_count (tp self)
                  / Metric.of_count (pred_num self))%Qc) in *.
  set (r := if decide (Metric.of_count (gold_num self) = 0%Qc) then 0%Qc
            else (Metric.of_count (tp self)
                  / Metric.of_count (gold_num self))%Qc) in *.
  eexists _, _, _, _. split; [reflexivity|].
  split; [rewrite !lookup_insert_ne by (apply key_ne; discriminate);
          apply lookup_insert_eq|].
  split; [rewrite !lookup_insert_ne by (apply key_ne; discriminate);
          apply lookup_insert_eq|].
  split; [apply lookup_insert_eq|].
  assert (this (Metric.of_count 100) == 100)%Q as H100 by done.
  case_decide as Hz.
  - rewrite !Qc_le_iff, !this_mult, !H100. change (this 0%Qc) with 0%Q.
    split_and!; lra.
  - rewrite !Qc_le_iff, !this_mult, !H100. change (this 0%Qc) with 0%Q.
    rewrite Qc_eq_iff, this_plus in Hz. change (this 0%Qc) with 0%Q in *.
    assert (0 < this p + this r)%Q as Hs by lra.
    destruct (harmonic_mean_range (this p) (this r) Hp0 Hp1 Hr0 Hr1 Hs)
      as (Hf0 & Hf1 & _).
    assert (this (Metric.of_count 2 * p * r / (p + r))%Qc
            == 2 * this p * this r / (this p + this r))%Q as Hf.
    { rewrite this_div, !this_mult, this_plus. by rewrite this_of_count. }
    rewrite Hf. split_and!; lra.
Qed.

(** X6. In the modes ['set'] and ['normal'], whatever calls of
    [count_instance] an accumulator has seen since it was built, also calls
    that raised, [compute_f1] reports [P], [R] and [F1] between 0 and 100,
    for [Metric] and for both record metrics. *)
Theorem scores_are_percentages (mm : MatchMode) (prefix : string) :
  mm ≠ ModeMultimatch →
  (∀ calls : list (list item * list item),
     ∃ (m : gmap string Qc) (P R F1 : Qc),
       Metric.compute_f1
         (after_calls Metric.count_instance (Metric.init mm) calls) prefix
       = Ok m
       ∧ m !! (prefix +:+ "P") = Some P
       ∧ m !! (prefix +:+ "R") = Some R
       ∧ m !! (prefix +:+ "F1") = Some F1
       ∧ (0 <= P)%Qc ∧ (P <= Metric.of_count 100)%Qc
       ∧ (0 <= R)%Qc ∧ (R <= Metric.of_count 100)%Qc
       ∧ (0 <= F1)%Qc ∧ (F1 <= Metric.of_count 100)%Qc)
  ∧ (∀ (V : Type) (eq_dec : EqDecision V) (value_ltb : V → V → bool)
       (cls : record_class)
       (calls : list (list (record V) * list (record V))),
       ∃ (m : gmap string Qc) (P R F1 : Qc),
         Metric.compute_f1
           (after_calls (record_count_instance value_ltb cls)
              (Metric.init mm) calls) prefix
         = Ok m
         ∧ m !! (prefix +:+ "P") = Some P
         ∧ m !! (prefix +:+ "R") = Some R
         ∧ m !! (prefix +:+ "F1") = Some F1
         ∧ (0 <= P)%Qc ∧ (P <= Metric.of_count 100)%Qc
         ∧ (0 <= R)%Qc ∧ (R <= Metric.of_count 100)%Qc
         ∧ (0 <= F1)%Qc ∧ (F1 <= Metric.of_count 100)%Qc).
Proof.
  intros Hmm. split.
  - intros calls.
    destruct (after_calls_metric calls (Metric.init mm)) as (_ & Hp & Hg).
    pose proof (after_calls_metric_nonneg calls (Metric.init mm)
                  ltac:(done)).
    simpl in Hp, Hg. apply compute_f1_in_range.
    + split; [done | by apply Hg].
    + by apply Hp.
  - intros V eq_dec value_ltb cls calls.
    destruct (after_calls_record value_ltb cls calls (Metric.init mm))
      as (_ & Hg & Hp).
    pose proof (after_calls_record_nonneg value_ltb cls calls
                  (Metric.init mm) ltac:(done)).
    simpl in Hp, Hg. apply compute_f1_in_range.
    + split; [done | by apply Hg].
    + by apply Hp.
Qed.

(** X6 after the two calls of the example of C1. *)
Lemma scores_are_percentages_witness :
  ∃ (m : gmap string Qc) (P : Qc),
    Metric.compute_f1
      (after_calls Metric.count_instance (Metric.init ModeNormal)
         [([PER_a; PER_a], [PER_a]); ([PER_a], [PER_a; PER_a])]) ""
    = Ok m
    ∧ m !! ("" +:+ "P") = Some P
    ∧ (P <= Metric.of_count 100)%Qc.
Proof.
  destruct (proj1 (scores_are_percentages ModeNormal "" ltac:(discriminate))
              [([PER_a; PER_a], [PER_a]); ([PER_a], [PER_a; PER_a])])
    as (m & P & R & F1 & Hm & HP & _ & _ & _ & Hle & _).
  by exists m, P.
Defined.

(** * The loaders *)

Lemma get_empty (k : string) : get ∅ k = [].
Proof. unfold get. by rewrite lookup_empty. Qed.

Lemma get_append_to (d : instance) (key k : string) (t : item) :
  get (RelationScorer.append_to d key t) k
  = get d k ++ (if decide (key = k) then [t] else []).
Proof.
  unfold RelationScorer.append_to, get.
  destruct (decide (key = k)) as [->|Hne].
  - by rewrite lookup_insert_eq.
  - rewrite lookup_insert_ne by done. by rewrite app_nil_r.
Qed.

Lemma append_to_no_empty (d : instance) (key : string) (t : item) :
  (∀ k, d !! k ≠ Some []) →
  ∀ k, RelationScorer.append_to d key t !! k ≠ Some [].
Proof.
  intros Hd k. unfold RelationScorer.append_to.
  destruct (decide (key = k)) as [->|Hne].
  - rewrite lookup_insert_eq. intros [= Heq]. by destruct (get d k).
  - by rewrite lookup_insert_ne.
Qed.

(** Two instances without an empty entry are equal when [get] cannot tell
    them apart. *)
Lemma instance_eq (d1 d2 : instance) :
  (∀ k, d1 !! k ≠ Some []) → (∀ k, d2 !! k ≠ Some []) →
  (∀ k, get d1 k = get d2 k) → d1 = d2.
Proof.
  intros H1 H2 Hget. apply map_eq. intros k.
  specialize (H1 k). specialize (H2 k). specialize (Hget k).
  unfold get in Hget.
  destruct (d1 !! k) as [l1|], (d2 !! k) as [l2|]; simpl in Hget;
    congruence.
Qed.

(** A loop whose body appends [c x k] to every entry [k]. *)
Lemma fold_left_get {A} (step : instance → A → instance)
  (c : A → string → list item) (l : list A) (d : instance) (k : string) :
  (∀ d x k, get (step d x) k = get d k ++ c x k) →
  get (fold_left step l d) k = get d k ++ concat ((λ x, c x k) <$> l).
Proof.
  intros Hstep. revert d.
  induction l as [|x l IH]; intros d; simpl; [by rewrite app_nil_r|].
  by rewrite IH, Hstep, <-app_assoc.
Qed.

Lemma fold_left_no_empty {A} (step : instance → A → instance)
  (l : list A) (d : instance) :
  (∀ d x, (∀ k, d !! k ≠ Some []) → ∀ k, step d x !! k ≠ Some []) →
  (∀ k, d !! k ≠ Some []) → ∀ k, fold_left step l d !! k ≠ Some [].
Proof.
  intros Hstep. revert d.
  induction l as [|x l IH]; intros d Hd; simpl; [done|].
  apply IH. by apply Hstep.
Qed.

Lemma fold_left_snoc_fmap {A B} (f : A → B) (l : list A) (acc : list B) :
  fold_left (λ acc x, acc ++ [f x]) l acc = acc ++ (f <$> l).
Proof.
  revert acc. induction l as [|x l IH]; intros acc; simpl.
  - by rewrite app_nil_r.
  - by rewrite IH, <-app_assoc.
Qed.

Lemma load_record_get (d : instance) (record : event) (k : string) :
  get (EventLoader.load_record d record) k = get d k ++ event_items record k.
Proof.
  unfold EventLoader.load_record, event_items.
  rewrite fold_left_get with
    (c := λ arg k,
       (if decide ("offset_role" = k)
        then [[AStr (e_type record); AStr (a_type arg);
               AOff (tuple_offset (a_offset arg))]]
        else [])
       ++ (if decide ("string_role" = k)
           then [[AStr (e_type record); AStr (a_type arg);
                  AStr (a_text arg)]]
           else [])).
  - by rewrite !get_append_to, <- !app_assoc.
  - intros d' arg k'. by rewrite !get_append_to, <- !app_assoc.
Qed.

Lemma load_offset_pred_get (d : instance) (offset_pred : offset_event)
  (k : string) :
  get (EventLoader.load_offset_pred d offset_pred) k
  = get d k ++ offset_event_items offset_pred k.
Proof.
  unfold EventLoader.load_offset_pred, offset_event_items.
  rewrite fold_left_get with
    (c := λ (role : string * list Z) k,
       if decide ("offset_role" = k)
       then [[AStr (oe_type offset_pred); AStr role.1;
              AOff (tuple_offset role.2)]]
       else []).
  - by rewrite !get_append_to, <- !app_assoc.
  - intros d' [role_type role_offset] k'. by rewrite !get_append_to.
Qed.

Lemma load_string_pred_get (d : instance) (string_pred : string_event)
  (k : string) :
  get (EventLoader.load_string_pred d string_pred) k
  = get d k ++ string_event_items string_pred k.
Proof.
  unfold EventLoader.load_string_pred, string_event_items.
  rewrite fold_left_get with
    (c := λ (role : string * string) k,
       if decide ("string_role" = k)
       then [[AStr (se_type string_pred); AStr role.1; AStr role.2]]
       else []).
  - by rewrite !get_append_to, <- !app_assoc.
  - intros d' [role_type role_string] k'. by rewrite !get_append_to.
Qed.

Lemma load_gold_get (gold : list event) (k : string) :
  get (fold_left EventLoader.load_record gold ∅) k
  = concat ((λ record, event_items record k) <$> gold).
Proof.
  rewrite fold_left_get with (c := event_items).
  - by rewrite get_empty.
  - apply load_record_get.
Qed.

Lemma load_pred_get (pred : event_pred) (k : string) :
  get (EventLoader.load_pred pred) k
  = concat ((λ offset_pred, offset_event_items offset_pred k)
              <$> ep_offset pred)
    ++ concat ((λ string_pred, string_event_items string_pred k)
                 <$> ep_string pred).
Proof.
  unfold EventLoader.load_pred.
  rewrite fold_left_get with (c := string_event_items)
    by apply load_string_pred_get.
  rewrite fold_left_get with (c := offset_event_items)
    by apply load_offset_pred_get.
  by rewrite get_empty.
Qed.

Lemma concat_fmap_nil {A B} (l : list A) :
  concat ((λ _, @nil B) <$> l) = [].
Proof. by induction l. Qed.

Lemma concat_fmap_all_nil {A B} (f : A → list B) (l : list A) :
  (∀ x, f x = []) → concat (f <$> l) = [].
Proof. intros Hf. induction l as [|x l IH]; simpl; [done|]. by rewrite Hf. Qed.

(** Every entry is fed by one of the two lists of a prediction only. *)
Lemma event_items_axis (k : string) :
  (∀ record,
     string_event_items (string_event_of record) k = []
     ∧ event_items record k = offset_event_items (offset_event_of record) k)
  ∨ (∀ record,
       offset_event_items (offset_event_of record) k = []
       ∧ event_items record k
         = string_event_items (string_event_of record) k).
Proof.
  unfold event_items, offset_event_items, string_event_items,
    offset_event_of, string_event_of; simpl.
  repeat case_decide; simplify_eq.
  all: first
    [ left; intros record; rewrite <- !list_fmap_compose;
      rewrite ?concat_fmap_all_nil by done; done
    | right; intros record; rewrite <- !list_fmap_compose;
      rewrite ?concat_fmap_all_nil by done; done ].
Qed.

Lemma event_items_agree (gold : list event) (k : string) :
  concat ((λ record, event_items record k) <$> gold)
  = concat ((λ offset_pred, offset_event_items offset_pred k)
              <$> ep_offset (event_pred_of_gold gold))
    ++ concat ((λ string_pred, string_event_items string_pred k)
                 <$> ep_string (event_pred_of_gold gold)).
Proof.
  unfold event_pred_of_gold; simpl. rewrite <- !list_fmap_compose.
  destruct (event_items_axis k) as [Hk|Hk].
  - rewrite (concat_fmap_all_nil (_ ∘ _) gold (λ record, proj1 (Hk record))).
    rewrite app_nil_r. f_equal. apply list_fmap_ext. intros _ record _.
    exact (proj2 (Hk record)).
  - rewrite (concat_fmap_all_nil (_ ∘ _) gold (λ record, proj1 (Hk record))).
    simpl. f_equal. apply list_fmap_ext. intros _ record _.
    exact (proj2 (Hk record)).
Qed.

Lemma load_record_no_empty (d : instance) (record : event) :
  (∀ k, d !! k ≠ Some []) →
  ∀ k, EventLoader.load_record d record !! k ≠ Some [].
Proof.
  intros Hd. unfold EventLoader.load_record.
  apply fold_left_no_empty.
  - intros d' arg Hd'. by do 2 apply append_to_no_empty.
  - by do 2 apply append_to_no_empty.
Qed.

Lemma load_pred_no_empty (pred : event_pred) (k : string) :
  EventLoader.load_pred pred !! k ≠ Some [].
Proof.
  revert k. unfold EventLoader.load_pred. apply fold_left_no_empty.
  - intros d string_pred Hd. unfold EventLoader.load_string_pred.
    apply fold_left_no_empty.
    + intros d' [role_type role_string] Hd'. by apply append_to_no_empty.
    + by apply append_to_no_empty.
  - apply fold_left_no_empty.
    + intros d offset_pred Hd. unfold EventLoader.load_offset_pred.
      apply fold_left_no_empty.
      * intros d' [role_type role_offset] Hd'. by apply append_to_no_empty.
      * by apply append_to_no_empty.
    + intros k. by rewrite lookup_empty.
Qed.

(** X7. The two loaders of [EventScorer] agree: a prediction that lists the
    events of a gold example, each once on the offset axis and once on the
    string axis with its arguments as roles, is loaded by [load_pred_list]
    into the very instance [load_gold_list] makes of the gold example,
    although the one walks record by record and the other axis by axis. *)
Theorem event_loaders_agree (gold_list : list (list event)) :
  EventLoader.load_pred_list (event_pred_of_gold <$> gold_list)
  = EventLoader.load_gold_list gold_list.
Proof.
  unfold EventLoader.load_pred_list, EventLoader.load_gold_list.
  rewrite (fold_left_snoc_fmap EventLoader.load_pred).
  rewrite (fold_left_snoc_fmap (λ gold, fold_left EventLoader.load_record gold ∅)).
  simpl. rewrite <- list_fmap_compose. apply list_fmap_ext.
  intros _ gold _. simpl. apply instance_eq.
  - apply load_pred_no_empty.
  - apply fold_left_no_empty; [apply load_record_no_empty|].
    intros k. by rewrite lookup_empty.
  - intros k. by rewrite load_pred_get, load_gold_get, event_items_agree.
Qed.

(** * What the result mapping holds *)

Lemma compute_f1_entries (self : Metric) (prefix : string) :
  ∃ P R F1 : Qc,
    Metric.compute_f1 self prefix
    = Ok (score_entries prefix (Metric.of_count (tp self))
            (Metric.of_count (gold_num self))
            (Metric.of_count (pred_num self)) P R F1).
Proof. rewrite compute_f1_Ok. cbv zeta. unfold score_entries. eauto. Qed.

Lemma entity_maps (a1 a2 a3 a4 a5 a6 b1 b2 b3 b4 b5 b6 : Qc) :
  let ro := score_entries "offset-ent-" a1 a2 a3 a4 a5 a6 in
  let rs := score_entries "string-ent-" b1 b2 b3 b4 b5 b6 in
  let m := ro ∪ (rs ∪ ∅) in
  ro ⊆ m ∧ rs ⊆ m ∧ size m = 12%nat.
Proof.
  intros ro rs m. subst ro rs m. unfold score_entries.
  split_and!; [solve_entries..|by vm_compute].
Qed.

Lemma relation_maps
  (a1 a2 a3 a4 a5 a6 b1 b2 b3 b4 b5 b6 c1 c2 c3 c4 c5 c6
   d1 d2 d3 d4 d5 d6 : Qc) :
  let ro := score_entries "offset-rel-strict-" a1 a2 a3 a4 a5 a6 in
  let rs := score_entries "string-rel-strict-" b1 b2 b3 b4 b5 b6 in
  let bo := score_entries "offset-rel-boundary-" c1 c2 c3 c4 c5 c6 in
  let bs := score_entries "string-rel-boundary-" d1 d2 d3 d4 d5 d6 in
  let m := bs ∪ (bo ∪ (rs ∪ (ro ∪ ∅))) in
  ro ⊆ m ∧ rs ⊆ m ∧ bo ⊆ m ∧ bs ⊆ m ∧ size m = 24%nat.
Proof.
  intros ro rs bo bs m. subst ro rs bo bs m. unfold score_entries.
  split_and!; [solve_entries..|by vm_compute].
Qed.

Lemma event_maps
  (a1 a2 a3 a4 a5 a6 b1 b2 b3 b4 b5 b6 c1 c2 c3 c4 c5 c6
   d1 d2 d3 d4 d5 d6 : Qc) :
  let tof := score_entries "offset-evt-trigger-" a1 a2 a3 a4 a5 a6 in
  let ts := score_entries "string-evt-trigger-" b1 b2 b3 b4 b5 b6 in
  let rof := score_entries "offset-evt-role-" c1 c2 c3 c4 c5 c6 in
  let rs := score_entries "string-evt-role-" d1 d2 d3 d4 d5 d6 in
  let m := rs ∪ (rof ∪ (ts ∪ (tof ∪ ∅))) in
  tof ⊆ m ∧ ts ⊆ m ∧ rof ⊆ m ∧ rs ⊆ m ∧ size m = 24%nat.
Proof.
  intros tof ts rof rs m. subst tof ts rof rs m. unfold score_entries.
  split_and!; [solve_entries..|by vm_compute].
Qed.

Lemma entity_results_entries (metrics : axes) :
  ∃ ro rs m : gmap string Qc,
    Metric.compute_f1 (for_offset metrics) "offset-ent-" = Ok ro
    ∧ Metric.compute_f1 (for_string metrics) "string-ent-" = Ok rs
    ∧ EntityScorer.results metrics = Ok m
    ∧ ro ⊆ m ∧ rs ⊆ m ∧ size m = 12%nat.
Proof.
  unfold EntityScorer.results.
  change ("string" +:+ "-ent-") with "string-ent-".
  change ("offset" +:+ "-ent-") with "offset-ent-".
  destruct (compute_f1_entries (for_offset metrics) "offset-ent-")
    as (P & R & F1 & ->).
  destruct (compute_f1_entries (for_string metrics) "string-ent-")
    as (P' & R' & F1' & ->).
  simpl.
  pose proof (entity_maps
    (Metric.of_count (tp (for_offset metrics)))
    (Metric.of_count (gold_num (for_offset metrics)))
    (Metric.of_count (pred_num (for_offset metrics))) P R F1
    (Metric.of_count (tp (for_string metrics)))
    (Metric.of_count (gold_num (for_string metrics)))
    (Metric.of_count (pred_num (for_string metrics))) P' R' F1') as Hm.
  cbv zeta in Hm. destruct Hm as (Ho & Hs & Hsize).
  eexists _, _, _. split_and!; [reflexivity..|exact Ho|exact Hs|exact Hsize].
Qed.

Lemma relation_results_entries (ms : RelationScorer.relation_metrics) :
  ∃ ro rs bo bs m : gmap string Qc,
    Metric.compute_f1 (for_offset (RelationScorer.metrics ms))
      "offset-rel-strict-" = Ok ro
    ∧ Metric.compute_f1 (for_string (RelationScorer.metrics ms))
        "string-rel-strict-" = Ok rs
    ∧ Metric.compute_f1 (for_offset (RelationScorer.boundary_metrics ms))
        "offset-rel-boundary-" = Ok bo
    ∧ Metric.compute_f1 (for_string (RelationScorer.boundary_metrics ms))
        "string-rel-boundary-" = Ok bs
    ∧ RelationScorer.results ms = Ok m
    ∧ ro ⊆ m ∧ rs ⊆ m ∧ bo ⊆ m ∧ bs ⊆ m ∧ size m = 24%nat.
Proof.
  unfold RelationScorer.results.
  change ("offset" +:+ "-rel-strict-") with "offset-rel-strict-".
  change ("string" +:+ "-rel-strict-") with "string-rel-strict-".
  change ("offset" +:+ "-rel-boundary-") with "offset-rel-boundary-".
  change ("string" +:+ "-rel-boundary-") with "string-rel-boundary-".
  destruct (compute_f1_entries (for_offset (RelationScorer.metrics ms))
              "offset-rel-strict-") as (P1 & R1 & F1 & ->).
  destruct (compute_f1_entries (for_string (RelationScorer.metrics ms))
              "string-rel-strict-") as (P2 & R2 & F2 & ->).
  destruct (compute_f1_entries
              (for_offset (RelationScorer.boundary_metrics ms))
              "offset-rel-boundary-") as (P3 & R3 & F3 & ->).
  destruct (compute_f1_entries
              (for_string (RelationScorer.boundary_metrics ms))
              "string-rel-boundary-") as (P4 & R4 & F4 & ->).
  simpl.
  pose proof (relation_maps
    (Metric.of_count (tp (for_offset (RelationScorer.metrics ms))))
    (Metric.of_count (gold_num (for_offset (RelationScorer.metrics ms))))
    (Metric.of_count (pred_num (for_offset (RelationScorer.metrics ms)))) P1 R1 F1
    (Metric.of_count (tp (for_string (RelationScorer.metrics ms))))
    (Metric.of_count (gold_num (for_string (RelationScorer.metrics ms))))
    (Metric.of_count (pred_num (for_string (RelationScorer.metrics ms)))) P2 R2 F2
    (Metric.of_count (tp (for_offset (RelationScorer.boundary_metrics ms))))
    (Metric.of_count (gold_num (for_offset (RelationScorer.boundary_metrics ms))))
    (Metric.of_count (pred_num (for_offset (RelationScorer.boundary_metrics ms)))) P3 R3 F3
    (Metric.of_count (tp (for_string (RelationScorer.boundary_metrics ms))))
    (Metric.of_count (gold_num (for_string (RelationScorer.boundary_metrics ms))))
    (Metric.of_count (pred_num (for_string (RelationScorer.boundary_metrics ms)))) P4 R4 F4) as Hm.
  cbv zeta in Hm. destruct Hm as (H1 & H2 & H3 & H4 & Hsize).
  eexists _, _, _, _, _.
  split_and!; [reflexivity..|exact H1|exact H2|exact H3|exact H4|exact Hsize].
Qed.

Lemma event_results_entries (ms : EventScorer.event_metrics) :
  ∃ tof ts rof rs m : gmap string Qc,
    Metric.compute_f1 (for_offset (EventScorer.trigger_metrics ms))
      "offset-evt-trigger-" = Ok tof
    ∧ Metric.compute_f1 (for_string (EventScorer.trigger_metrics ms))
        "string-evt-trigger-" = Ok ts
    ∧ Metric.compute_f1 (for_offset (EventScorer.role_metrics ms))
        "offset-evt-role-" = Ok rof
    ∧ Metric.compute_f1 (for_string (EventScorer.role_metrics ms))
        "string-evt-role-" = Ok rs
    ∧ EventScorer.results ms = Ok m
    ∧ tof ⊆ m ∧ ts ⊆ m ∧ rof ⊆ m ∧ rs ⊆ m ∧ size m = 24%nat.
Proof.
  unfold EventScorer.results.
  change ("offset" +:+ "-evt-trigger-") with "offset-evt-trigger-".
  change ("string" +:+ "-evt-trigger-") with "string-evt-trigger-".
  change ("offset" +:+ "-evt-role-") with "offset-evt-role-".
  change ("string" +:+ "-evt-role-") with "string-evt-role-".
  destruct (compute_f1_entries (for_offset (EventScorer.trigger_metrics ms))
              "offset-evt-trigger-") as (P1 & R1 & F1 & ->).
  destruct (compute_f1_entries (for_string (EventScorer.trigger_metrics ms))
              "string-evt-trigger-") as (P2 & R2 & F2 & ->).
  destruct (compute_f1_entries (for_offset (EventScorer.role_metrics ms))
              "offset-evt-role-") as (P3 & R3 & F3 & ->).
  destruct (compute_f1_entries (for_string (EventScorer.role_metrics ms))
              "string-evt-role-") as (P4 & R4 & F4 & ->).
  simpl.
  pose proof (event_maps
    (Metric.of_count (tp (for_offset (EventScorer.trigger_metrics ms))))
    (Metric.of_count (gold_num (for_offset (EventScorer.trigger_metrics ms))))
    (Metric.of_count (pred_num (for_offset (EventScorer.trigger_metrics ms)))) P1 R1 F1
    (Metric.of_count (tp (for_string (EventScorer.trigger_metrics ms))))
    (Metric.of_count (gold_num (for_string (EventScorer.trigger_metrics ms))))
    (Metric.of_count (pred_num (for_string (EventScorer.trigger_metrics ms)))) P2 R2 F2
    (Metric.of_count (tp (for_offset (EventScorer.role_metrics ms))))
    (Metric.of_count (gold_num (for_offset (EventScorer.role_metrics ms))))
    (Metric.of_count (pred_num (for_offset (EventScorer.role_metrics ms)))) P3 R3 F3
    (Metric.of_count (tp (for_string (EventScorer.role_metrics ms))))
    (Metric.of_count (gold_num (for_string (EventScorer.role_metrics ms))))
    (Metric.of_count (pred_num (for_string (EventScorer.role_metrics ms)))) P4 R4 F4) as Hm.
  cbv zeta in Hm. destruct Hm as (H1 & H2 & H3 & H4 & Hsize).
  eexists _, _, _, _, _.
  split_and!; [reflexivity..|exact H1|exact H2|exact H3|exact H4|exact Hsize].
Qed.

(** X8. The [results.update(..)] calls that end the three
    [eval_instance_list] never overwrite an entry: the mapping returned
    holds every entry of every accumulator's [compute_f1], 12 entries for
    entities and 24 for relations and for events, and building it never
    raises. *)
Theorem results_keep_every_entry :
  (∀ metrics : axes,
     ∃ ro rs m : gmap string Qc,
       Metric.compute_f1 (for_offset metrics) "offset-ent-" = Ok ro
       ∧ Metric.compute_f1 (for_string metrics) "string-ent-" = Ok rs
       ∧ EntityScorer.results metrics = Ok m
       ∧ ro ⊆ m ∧ rs ⊆ m ∧ size m = 12%nat)
  ∧ (∀ ms : RelationScorer.relation_metrics,
       ∃ ro rs bo bs m : gmap string Qc,
         Metric.compute_f1 (for_offset (RelationScorer.metrics ms))
           "offset-rel-strict-" = Ok ro
         ∧ Metric.compute_f1 (for_string (RelationScorer.metrics ms))
             "string-rel-strict-" = Ok rs
         ∧ Metric.compute_f1
             (for_offset (RelationScorer.boundary_metrics ms))
             "offset-rel-boundary-" = Ok bo
         ∧ Metric.compute_f1
             (for_string (RelationScorer.boundary_metrics ms))
             "string-rel-boundary-" = Ok bs
         ∧ RelationScorer.results ms = Ok m
         ∧ ro ⊆ m ∧ rs ⊆ m ∧ bo ⊆ m ∧ bs ⊆ m ∧ size m = 24%nat)
  ∧ (∀ ms : EventScorer.event_metrics,
       ∃ tof ts rof rs m : gmap string Qc,
         Metric.compute_f1 (for_offset (EventScorer.trigger_metrics ms))
           "offset-evt-trigger-" = Ok tof
         ∧ Metric.compute_f1 (for_string (EventScorer.trigger_metrics ms))
             "string-evt-trigger-" = Ok ts
         ∧ Metric.compute_f1 (for_offset (EventScorer.role_metrics ms))
             "offset-evt-role-" = Ok rof
         ∧ Metric.compute_f1 (for_string (EventScorer.role_metrics ms))
             "string-evt-role-" = Ok rs
         ∧ EventScorer.results ms = Ok m
         ∧ tof ⊆ m ∧ ts ⊆ m ∧ rof ⊆ m ∧ rs ⊆ m ∧ size m = 24%nat).
Proof.
  split_and!.
  - apply entity_results_entries.
  - apply relation_results_entries.
  - apply event_results_entries.
Qed.

(** * Loaded corpora can be scored *)

Lemma fold_left_keeps {A B} (P : B → Prop) (step : B → A → B)
  (l : list A) (b : B) :
  (∀ b x, P b → P (step b x)) → P b → P (fold_left step l b).
Proof.
  intros Hstep. revert b.
  induction l as [|x l IH]; intros b Hb; simpl; [done|].
  apply IH. by apply Hstep.
Qed.

Lemma append_to_Forall (P : item → Prop) (d : instance) (key k : string)
  (t : item) :
  Forall P (get d k) → (key = k → P t) →
  Forall P (get (RelationScorer.append_to d key t) k).
Proof.
  intros Hd Ht. rewrite get_append_to. apply Forall_app. split; [done|].
  case_decide; [|done]. constructor; [by apply Ht | done].
Qed.

Lemma for_pairs_total {S} (body : S → instance → instance → res S)
  (P Q : instance → Prop) (preds golds : list instance) (s : S) :
  (∀ s pred gold, P pred → Q gold → ∃ s', body s pred gold = Ok s') →
  Forall P preds → Forall Q golds →
  ∃ s', for_pairs body s (zip preds golds) = Ok s'.
Proof.
  intros Hbody Hp. revert golds s.
  induction Hp as [|pred preds Hpred _ IH]; intros golds s Hg; simpl;
    [eauto|].
  destruct Hg as [|gold golds Hgold Hgolds]; simpl; [eauto|].
  destruct (Hbody s pred gold Hpred Hgold) as [s' ->]. simpl. by apply IH.
Qed.

Lemma warn_returns (verbose : bool) (pre post : axes)
  (gold pred : py_instance) :
  (verbose = true → warnable gold ∧ warnable pred) →
  warn verbose pre post gold pred = inr ().
Proof.
  intros Hw. unfold warn. destruct verbose; [|done].
  destruct (Hw eq_refl) as [[Hgo Hgs] [Hpo Hps]].
  case_bool_decide; simpl; [|done].
  unfold warning_tp_increment. by rewrite Hgo, Hpo, Hgs, Hps.
Qed.

Lemma for_py_pairs_total {S}
  (body : S → py_instance → py_instance → scorer_exn + S)
  (P Q : py_instance → Prop) (preds golds : list py_instance) (s : S) :
  (∀ s pred gold, P pred → Q gold → ∃ s', body s pred gold = inr s') →
  Forall P preds → Forall Q golds →
  ∃ s', for_py_pairs body s (zip preds golds) = inr s'.
Proof.
  intros Hbody Hp. revert golds s.
  induction Hp as [|pred preds Hpred _ IH]; intros golds s Hg; simpl;
    [eauto|].
  destruct Hg as [|gold golds Hgold Hgolds]; simpl; [eauto|].
  destruct (Hbody s pred gold Hpred Hgold) as [s' ->]. simpl. by apply IH.
Qed.

Lemma for_py_pairs_self {S}
  (body : S → py_instance → py_instance → scorer_exn + S)
  (I : S → Prop) (Q : py_instance → Prop) (l : list py_instance) (s : S) :
  (∀ s inst, I s → Q inst → ∃ s', body s inst inst = inr s' ∧ I s') →
  Forall Q l → I s →
  ∃ s', for_py_pairs body s (zip l l) = inr s' ∧ I s'.
Proof.
  intros Hbody Hl. revert s.
  induction Hl as [|inst l Hinst _ IH]; intros s Hs; simpl; [eauto|].
  destruct (Hbody s inst Hs Hinst) as (s' & -> & Hs'). simpl. by apply IH.
Qed.

(** ** Entities *)

Lemma entity_load_gold_get (gold : list argument) :
  get (EntityLoader.load_gold gold) "offset"
  = (λ span, [AStr (a_type span); AOff (tuple_offset (a_offset span))])
      <$> gold
  ∧ get (EntityLoader.load_gold gold) "string"
    = (λ span, [AStr (a_type span); AStr (a_text span)]) <$> gold
  ∧ ∀ key, key ≠ "offset" → key ≠ "string" →
           get (EntityLoader.load_gold gold) key = [].
Proof.
  unfold EntityLoader.load_gold.
  assert (∀ acc : list item * list item,
            fold_left
              (λ '(gold_offset, gold_string) span,
                 (gold_offset
                    ++ [[AStr (a_type span);
                         AOff (tuple_offset (a_offset span))]],
                  gold_string
                    ++ [[AStr (a_type span); AStr (a_text span)]]))
              gold acc
            = (acc.1 ++ ((λ span, [AStr (a_type span);
                                   AOff (tuple_offset (a_offset span))])
                           <$> gold),
               acc.2 ++ ((λ span, [AStr (a_type span); AStr (a_text span)])
                           <$> gold))) as ->.
  { induction gold as [|span gold IH]; intros [o s]; simpl.
    - by rewrite !app_nil_r.
    - rewrite IH. simpl. by rewrite <- !app_assoc. }
  simpl. unfold get. split_and!.
  - by rewrite lookup_insert_ne, lookup_insert_eq.
  - by rewrite lookup_insert_eq.
  - intros key Ho Hs.
    by rewrite !lookup_insert_ne, lookup_empty.
Qed.

Lemma entity_load_gold_pairs (gold : list argument) :
  pairs (EntityLoader.load_gold gold).
Proof.
  destruct (entity_load_gold_get gold) as (Ho & Hs & Hk). intros key.
  destruct (decide (key = "offset")) as [->|Hno];
    [|destruct (decide (key = "string")) as [->|Hns]].
  - rewrite Ho. by apply Forall_fmap, Forall_true.
  - rewrite Hs. by apply Forall_fmap, Forall_true.
  - by rewrite Hk.
Qed.

Lemma entity_count_pair_total (metrics : axes) (pred gold : instance) :
  pairs pred → pairs gold →
  ∃ metrics', EntityScorer.count_pair metrics pred gold = Ok metrics'.
Proof.
  intros Hp Hg. unfold EntityScorer.count_pair.
  destruct (count_total (for_string metrics)
              (get gold "string") (get pred "string")) as [s ->];
    [by eapply same_arity_Forall|]. simpl.
  destruct (count_total (for_offset metrics)
              (get gold "offset") (get pred "offset")) as [o ->];
    [by eapply same_arity_Forall|]. simpl. eauto.
Qed.

Lemma verbose_entity_count_pair_total (verbose : bool) (metrics : axes)
  (pred gold : py_instance) :
  pairs (entries pred) ∧ (verbose = true → warnable pred) →
  pairs (entries gold) ∧ (verbose = true → warnable gold) →
  ∃ metrics',
    VerboseEntityScorer.count_pair verbose metrics pred gold = inr metrics'.
Proof.
  intros [Hp Hwp] [Hg Hwg]. unfold VerboseEntityScorer.count_pair.
  destruct (entity_count_pair_total metrics (entries pred) (entries gold))
    as [post ->]; [done..|]. simpl.
  rewrite warn_returns by (intros Hv; split; auto). simpl. eauto.
Qed.

(** X9. [EntityScorer.load_gold_list] makes one instance per gold example,
    a dict with the keys ['offset'] and ['string'] that holds one pair per
    span on either axis.  Scored against predictions that are pairs as
    well, what it returns never fails the arity assertion of
    [count_instance]: [eval_instance_list] returns in every match mode,
    with [verbose=False], and with [verbose=True] when no subscript of
    [warning_tp_increment] can fail on a prediction (it has both keys, or
    is a [defaultdict]). *)
Theorem entity_gold_is_scorable (verbose : bool) (mm : MatchMode)
  (gold_list : list (list argument))
  (pred_instance_list : list py_instance) :
  Forall (λ pred, pairs (entries pred)) pred_instance_list →
  (verbose = true → Forall warnable pred_instance_list) →
  Forall2
    (λ gold gold_instance,
       length (get gold_instance "offset") = length gold
       ∧ length (get gold_instance "string") = length gold
       ∧ pairs gold_instance
       ∧ warnable (mkPyInstance PlainDict gold_instance))
    gold_list (EntityLoader.load_gold_list gold_list)
  ∧ ∃ m, VerboseEntityScorer.eval_instance_list verbose mm
           (mkPyInstance PlainDict <$> EntityLoader.load_gold_list gold_list)
           pred_instance_list
         = inr m.
Proof.
  intros Hp Hw. unfold EntityLoader.load_gold_list.
  rewrite (fold_left_snoc_fmap EntityLoader.load_gold). simpl.
  assert (∀ gold, warnable (mkPyInstance PlainDict
                              (EntityLoader.load_gold gold))) as Hgw.
  { intros gold. unfold warnable, subscript_ok, EntityLoader.load_gold.
    simpl. destruct (fold_left _ gold _) as [o s].
    split; apply bool_decide_eq_true_2.
    - by rewrite lookup_insert_ne, lookup_insert_eq.
    - by rewrite lookup_insert_eq. }
  split.
  - apply Forall2_fmap_r, Forall2_same_length_lookup_2; [done|].
    intros i gold gold' Hi Hi'. simplify_eq. simpl.
    destruct (entity_load_gold_get gold) as (-> & -> & _).
    rewrite !length_fmap. split_and!; [done..| |done].
    apply entity_load_gold_pairs.
  - unfold VerboseEntityScorer.eval_instance_list, VerboseEntityScorer.run.
    destruct (for_py_pairs_total (VerboseEntityScorer.count_pair verbose)
                (λ pred, pairs (entries pred)
                         ∧ (verbose = true → warnable pred))
                (λ gold, pairs (entries gold)
                         ∧ (verbose = true → warnable gold))
                pred_instance_list
                (mkPyInstance PlainDict
                   <$> (EntityLoader.load_gold <$> gold_list))
                (fresh_axes mm)) as [metrics ->].
    + intros. by apply verbose_entity_count_pair_total.
    + apply Forall_forall. intros pred Hin. split.
      * rewrite Forall_forall in Hp. by apply Hp.
      * intros Hv. specialize (Hw Hv). rewrite Forall_forall in Hw.
        by apply Hw.
    + rewrite <- list_fmap_compose. apply Forall_fmap, Forall_true.
      intros gold. simpl. split; [apply entity_load_gold_pairs | done].
    + simpl. destruct (entity_results_entries metrics)
        as (ro & rs & m & _ & _ & -> & _). simpl. eauto.
Qed.

(** X9 with [verbose=True], for one gold span scored against itself. *)
Lemma entity_gold_is_scorable_witness :
  ∃ m, VerboseEntityScorer.eval_instance_list true ModeNormal
         (mkPyInstance PlainDict
            <$> EntityLoader.load_gold_list
                  [[mkArgument "PER" [0; 1] "Bob"]])
         [mkPyInstance PlainDict
            (EntityLoader.load_gold [mkArgument "PER" [0; 1] "Bob"])]
       = inr m.
Proof.
  apply (entity_gold_is_scorable true ModeNormal
           [[mkArgument "PER" [0; 1] "Bob"]]
           [mkPyInstance PlainDict
              (EntityLoader.load_gold [mkArgument "PER" [0; 1] "Bob"])]).
  - constructor; [apply entity_load_gold_pairs | constructor].
  - intros _. constructor; [by vm_compute | constructor].
Defined.

(** ** Relations *)

Lemma relation_load_record_get (d d' : instance) (record : relation) :
  RelationScorer.load_record d record = Ok d' →
  ∃ o s : item,
    length o = 5%nat ∧ length s = 5%nat
    ∧ ∀ k, get d' k
           = get d k ++ (if decide ("offset" = k) then [o] else [])
               ++ (if decide ("string" = k) then [s] else []).
Proof.
  unfold RelationScorer.load_record. case_bool_decide; [|done].
  destruct (rel_args record) as [|a0 [|a1 l]]; try done.
  intros [= <-]. eexists _, _.
  split_and!; [..|intros k; by rewrite !get_append_to, <- app_assoc]; done.
Qed.

Lemma relation_load_records_get (gold : list relation) (d d' : instance) :
  RelationScorer.load_records d gold = Ok d' →
  five_tuples d →
  five_tuples d'
  ∧ length (get d' "offset") = (length (get d "offset") + length gold)%nat
  ∧ length (get d' "string") = (length (get d "string") + length gold)%nat.
Proof.
  revert d. induction gold as [|record gold IH]; intros d; simpl.
  - intros [= <-] Hd. split_and!; [done|lia..].
  - destruct (RelationScorer.load_record d record) as [d1|e] eqn:Hr;
      [|done]. simpl. intros Hrest Hd.
    destruct (relation_load_record_get _ _ _ Hr) as (o & s & Ho & Hs & Hget).
    destruct (IH d1 Hrest) as (H5 & Hlo & Hls).
    + intros k. rewrite Hget. rewrite !Forall_app. split_and!; [apply Hd|..];
        case_decide; by repeat constructor.
    + split_and!; [done|..].
      * rewrite Hlo, Hget. simpl. rewrite length_app. simpl. lia.
      * rewrite Hls, Hget. simpl. rewrite length_app. simpl. lia.
Qed.

Lemma five_tuples_empty : five_tuples ∅.
Proof. intros k. by rewrite get_empty. Qed.

Lemma relation_load_gold_list_shape (gold_list : list (list relation))
  (gold_instance_list : list instance) :
  RelationScorer.load_gold_list gold_list = Ok gold_instance_list →
  Forall2
    (λ gold gold_instance,
       length (get gold_instance "offset") = length gold
       ∧ length (get gold_instance "string") = length gold
       ∧ five_tuples gold_instance)
    gold_list gold_instance_list.
Proof.
  unfold RelationScorer.load_gold_list. revert gold_instance_list.
  induction gold_list as [|gold gold_list IH]; intros insts; simpl.
  - intros [= <-]. constructor.
  - destruct (RelationScorer.load_records ∅ gold) as [d|e] eqn:Hd; [|done].
    simpl.
    destruct (res_mapM (RelationScorer.load_records ∅) gold_list)
      as [ds|e]; [|done].
    simpl. intros [= <-]. constructor; [|by apply IH].
    destruct (relation_load_records_get _ _ _ Hd five_tuples_empty)
      as (H5 & Hlo & Hls).
    rewrite get_empty in Hlo, Hls. done.
Qed.

Lemma verbose_relation_count_pair_total (verbose : bool)
  (ms : RelationScorer.relation_metrics) (pred gold : py_instance) :
  five_tuples (entries pred) ∧ (verbose = true → warnable pred) →
  five_tuples (entries gold) ∧ (verbose = true → warnable gold) →
  ∃ ms', VerboseRelationScorer.count_pair verbose ms pred gold = inr ms'.
Proof.
  intros [Hp Hwp] [Hg Hwg]. unfold VerboseRelationScorer.count_pair.
  cbv zeta.
  destruct (count_total (for_offset (RelationScorer.metrics ms))
              (get (entries gold) "offset") (get (entries pred) "offset"))
    as [o ->]; [by eapply same_arity_Forall|]. simpl.
  destruct (count_total (for_string (RelationScorer.metrics ms))
              (get (entries gold) "string") (get (entries pred) "string"))
    as [s ->]; [by eapply same_arity_Forall|]. simpl.
  rewrite warn_returns by (intros Hv; split; auto). simpl.
  unfold RelationScorer.count_boundary.
  destruct (boundary_mapM_total (get (entries gold) "offset") (Hg _))
    as (go & -> & Hgo).
  destruct (boundary_mapM_total (get (entries pred) "offset") (Hp _))
    as (po & -> & Hpo). simpl.
  destruct (count_total (for_offset (RelationScorer.boundary_metrics ms))
              go po) as [bo ->]; [by eapply same_arity_Forall|]. simpl.
  destruct (boundary_mapM_total (get (entries gold) "string") (Hg _))
    as (gs & -> & Hgs).
  destruct (boundary_mapM_total (get (entries pred) "string") (Hp _))
    as (ps & -> & Hps). simpl.
  destruct (count_total (for_string (RelationScorer.boundary_metrics ms))
              gs ps) as [bs ->]; [by eapply same_arity_Forall|]. simpl.
  rewrite warn_returns by (intros Hv; split; auto). simpl. eauto.
Qed.

(** X10. When every gold relation has exactly two arguments,
    [RelationScorer.load_gold_list] returns one instance per gold example,
    a [defaultdict] with one 5-tuple per relation on either axis.  Scored
    against predictions that are 5-tuples, [eval_instance_list] returns in
    every match mode: the arity assertion holds and the boundary view finds
    its three fields; with [verbose=True] this needs that no subscript of
    [warning_tp_increment] can fail on a prediction. *)
Theorem relation_gold_is_scorable (verbose : bool) (mm : MatchMode)
  (gold_list : list (list relation))
  (pred_instance_list : list py_instance) :
  Forall (Forall (λ record, length (rel_args record) = 2%nat)) gold_list →
  Forall (λ pred, five_tuples (entries pred)) pred_instance_list →
  (verbose = true → Forall warnable pred_instance_list) →
  ∃ gold_instance_list,
    RelationScorer.load_gold_list gold_list = Ok gold_instance_list
    ∧ Forall2
        (λ gold gold_instance,
           length (get gold_instance "offset") = length gold
           ∧ length (get gold_instance "string") = length gold
           ∧ five_tuples gold_instance)
        gold_list gold_instance_list
    ∧ ∃ m, VerboseRelationScorer.eval_instance_list verbose mm
             (mkPyInstance DefaultDict <$> gold_instance_list)
             pred_instance_list
           = inr m.
Proof.
  intros Hargs Hp Hw.
  destruct (load_gold_list_cases gold_list) as [(_ & gs & Hgs)|(Hex & _)].
  - exists gs. pose proof (relation_load_gold_list_shape _ _ Hgs) as Hshape.
    split_and!; [done..|].
    unfold VerboseRelationScorer.eval_instance_list,
      VerboseRelationScorer.run.
    destruct (for_py_pairs_total (VerboseRelationScorer.count_pair verbose)
                (λ pred, five_tuples (entries pred)
                         ∧ (verbose = true → warnable pred))
                (λ gold, five_tuples (entries gold)
                         ∧ (verbose = true → warnable gold))
                pred_instance_list (mkPyInstance DefaultDict <$> gs)
                (RelationScorer.mkRelationMetrics
                   (fresh_axes mm) (fresh_axes mm))) as [ms ->].
    + intros. by apply verbose_relation_count_pair_total.
    + apply Forall_forall. intros pred Hin. split.
      * rewrite Forall_forall in Hp. by apply Hp.
      * intros Hv. specialize (Hw Hv). rewrite Forall_forall in Hw.
        by apply Hw.
    + apply Forall_fmap. clear -Hshape.
      induction Hshape as [|???? (_ & _ & ?)]; by constructor.
    + simpl. destruct (relation_results_entries ms)
        as (? & ? & ? & ? & m & _ & _ & _ & _ & -> & _). simpl. eauto.
  - exfalso. apply Exists_exists in Hex as (gold & Hin & Hex).
    apply Exists_exists in Hex as (record & Hin' & Hne).
    rewrite Forall_forall in Hargs. specialize (Hargs gold Hin).
    rewrite Forall_forall in Hargs. by specialize (Hargs record Hin').
Qed.

(** X10 with [verbose=True], for one gold relation and one predicted
    relation. *)
Lemma relation_gold_is_scorable_witness :
  ∃ gold_instance_list,
    RelationScorer.load_gold_list
      [[mkRelation "REL" [mkArgument "PER" [0; 1] "Bob";
                          mkArgument "ORG" [2; 3] "ACME"]]]
    = Ok gold_instance_list
    ∧ ∃ m, VerboseRelationScorer.eval_instance_list true ModeNormal
             (mkPyInstance DefaultDict <$> gold_instance_list)
             [mkPyInstance DefaultDict (<["offset" := [rel_per_org]]> ∅)]
           = inr m.
Proof.
  destruct (relation_gold_is_scorable true ModeNormal
              [[mkRelation "REL" [mkArgument "PER" [0; 1] "Bob";
                                  mkArgument "ORG" [2; 3] "ACME"]]]
              [mkPyInstance DefaultDict (<["offset" := [rel_per_org]]> ∅)])
    as (gold_instance_list & Hload & _ & Heval).
  - by repeat constructor.
  - constructor; [|constructor]. intros key. unfold get. simpl.
    destruct (decide (key = "offset")) as [->|Hne].
    + rewrite lookup_insert_eq. by repeat constructor.
    + rewrite lookup_insert_ne, lookup_empty by done. constructor.
  - intros _. by repeat constructor.
  - by exists gold_instance_list.
Defined.

(** ** Events *)

Lemma append_to_event_tuples (d : instance) (key : string) (t : item) :
  event_tuples d →
  (key = "offset_trigger" ∨ key = "string_trigger" → length t = 2%nat) →
  (key = "offset_role" ∨ key = "string_role" → length t = 3%nat) →
  event_tuples (RelationScorer.append_to d key t).
Proof.
  intros (H1 & H2 & H3 & H4) Ht Hr.
  split_and!; apply append_to_Forall; auto.
Qed.

Lemma event_tuples_empty : event_tuples ∅.
Proof. unfold event_tuples. by rewrite !get_empty. Qed.

Lemma event_load_gold_tuples (gold : list event) :
  event_tuples (fold_left EventLoader.load_record gold ∅).
Proof.
  apply fold_left_keeps; [|apply event_tuples_empty].
  intros d record Hd. unfold EventLoader.load_record.
  apply fold_left_keeps.
  - intros d' arg Hd'.
    do 2 (apply append_to_event_tuples; [|by intros [|]..]). done.
  - do 2 (apply append_to_event_tuples; [|by intros [|]..]). done.
Qed.

Lemma event_load_pred_tuples (pred : event_pred) :
  event_tuples (EventLoader.load_pred pred).
Proof.
  unfold EventLoader.load_pred. apply fold_left_keeps.
  - intros d string_pred Hd. unfold EventLoader.load_string_pred.
    apply fold_left_keeps.
    + intros d' [role_type role_string] Hd'.
      by apply append_to_event_tuples; [|intros [|]..].
    + by apply append_to_event_tuples; [|intros [|]..].
  - apply fold_left_keeps; [|apply event_tuples_empty].
    intros d offset_pred Hd. unfold EventLoader.load_offset_pred.
    apply fold_left_keeps.
    + intros d' [role_type role_offset] Hd'.
      by apply append_to_event_tuples; [|intros [|]..].
    + by apply append_to_event_tuples; [|intros [|]..].
Qed.

Lemma event_count_pair_total (ms : EventScorer.event_metrics)
  (pred gold : instance) :
  event_tuples pred → event_tuples gold →
  ∃ ms', EventScorer.count_pair ms pred gold = Ok ms'.
Proof.
  intros (Hp1 & Hp2 & Hp3 & Hp4) (Hg1 & Hg2 & Hg3 & Hg4).
  unfold EventScorer.count_pair.
  change ("offset" +:+ "_trigger") with "offset_trigger".
  change ("string" +:+ "_trigger") with "string_trigger".
  change ("offset" +:+ "_role") with "offset_role".
  change ("string" +:+ "_role") with "string_role".
  destruct (count_total (for_offset (EventScorer.trigger_metrics ms))
              (get gold "offset_trigger") (get pred "offset_trigger"))
    as [tof ->]; [by eapply same_arity_Forall|]. simpl.
  destruct (count_total (for_string (EventScorer.trigger_metrics ms))
              (get gold "string_trigger") (get pred "string_trigger"))
    as [ts ->]; [by eapply same_arity_Forall|]. simpl.
  destruct (count_total (for_offset (EventScorer.role_metrics ms))
              (get gold "offset_role") (get pred "offset_role"))
    as [rof ->]; [by eapply same_arity_Forall|]. simpl.
  destruct (count_total (for_string (EventScorer.role_metrics ms))
              (get gold "string_role") (get pred "string_role"))
    as [rs ->]; [by eapply same_arity_Forall|]. simpl. eauto.
Qed.

(** X11. Whatever the gold events and the predicted events are, scoring
    what [EventScorer.load_gold_list] and [EventScorer.load_pred_list] make
    of them never raises, in every match mode, and returns the 24 entries:
    triggers are pairs and roles are triples on both sides. *)
Theorem event_scorer_never_raises (mm : MatchMode)
  (gold_list : list (list event)) (pred_list : list event_pred) :
  ∃ m, EventScorer.eval_instance_list mm
         (EventLoader.load_gold_list gold_list)
         (EventLoader.load_pred_list pred_list)
       = Ok m
       ∧ size m = 24%nat.
Proof.
  unfold EventLoader.load_pred_list, EventLoader.load_gold_list.
  rewrite (fold_left_snoc_fmap EventLoader.load_pred).
  rewrite (fold_left_snoc_fmap
             (λ gold, fold_left EventLoader.load_record gold ∅)).
  simpl. unfold EventScorer.eval_instance_list, EventScorer.run.
  destruct (for_pairs_total EventScorer.count_pair event_tuples event_tuples
              (EventLoader.load_pred <$> pred_list)
              ((λ gold, fold_left EventLoader.load_record gold ∅)
                 <$> gold_list)
              (EventScorer.mkEventMetrics (fresh_axes mm) (fresh_axes mm)))
    as [ms ->].
  - intros. by apply event_count_pair_total.
  - apply Forall_fmap, Forall_true. apply event_load_pred_tuples.
  - apply Forall_fmap, Forall_true. apply event_load_gold_tuples.
  - simpl. destruct (event_results_entries ms)
      as (? & ? & ? & ? & m & _ & _ & _ & _ & -> & _ & _ & _ & _ & Hsize).
    eauto.
Qed.

(** * A corpus scored against itself *)

Lemma count_self (m : Metric) (l : list item) :
  balanced m → ∃ m', count m l l = Ok m' ∧ balanced m'.
Proof.
  intros [Hg Hp]. unfold count, balanced. destruct (match_mode m) eqn:Hm.
  - rewrite count_instance_set by done. eexists. split; [done|]. simpl.
    replace (list_to_set l ∩ list_to_set l : gset item)
      with (list_to_set l : gset item) by set_solver.
    lia.
  - rewrite count_instance_normal by (done || apply same_arity_diag).
    eexists. split; [done|]. simpl.
    replace (list_to_set_disj l ∩ list_to_set_disj l : gmultiset item)
      with (list_to_set_disj l : gmultiset item) by multiset_solver.
    rewrite size_list_to_set_disj. lia.
  - rewrite count_instance_multimatch by (done || apply same_arity_diag).
    eexists. split; [done|]. simpl. rewrite filter_elem_of_self. lia.
Qed.

Lemma count_boundary_self (m : Metric) (l : list item) :
  Forall (λ x : item, length x = 5%nat) l →
  balanced m → ∃ m', RelationScorer.count_boundary m l l = Ok m' ∧ balanced m'.
Proof.
  intros Hl Hm. unfold RelationScorer.count_boundary.
  destruct (boundary_mapM_total l Hl) as (l' & -> & _). simpl.
  by apply count_self.
Qed.

Lemma balanced_init (mm : MatchMode) : balanced (Metric.init mm).
Proof. by split. Qed.

(** X12. A corpus scored against itself is scored as fully correct by the
    three scorers, in every match mode: the run returns and in each of its
    accumulators [tp], [gold_num] and [pred_num] are equal.  For relations
    the tuples must have the five fields the boundary view reads; with
    [verbose=True] no subscript of [warning_tp_increment] may fail on an
    instance. *)
Theorem scoring_a_corpus_against_itself (verbose : bool) (mm : MatchMode)
  (instance_list : list py_instance) :
  (verbose = true → Forall warnable instance_list) →
  (∃ metrics,
     VerboseEntityScorer.run verbose mm instance_list instance_list
     = inr metrics
     ∧ balanced (for_offset metrics) ∧ balanced (for_string metrics))
  ∧ (Forall (λ inst, five_tuples (entries inst)) instance_list →
     ∃ ms,
       VerboseRelationScorer.run verbose mm instance_list instance_list
       = inr ms
       ∧ balanced (for_offset (RelationScorer.metrics ms))
       ∧ balanced (for_string (RelationScorer.metrics ms))
       ∧ balanced (for_offset (RelationScorer.boundary_metrics ms))
       ∧ balanced (for_string (RelationScorer.boundary_metrics ms)))
  ∧ (∃ ms,
       VerboseEventScorer.run verbose mm instance_list instance_list
       = inr ms
       ∧ balanced (for_offset (EventScorer.trigger_metrics ms))
       ∧ balanced (for_string (EventScorer.trigger_metrics ms))
       ∧ balanced (for_offset (EventScorer.role_metrics ms))
       ∧ balanced (for_string (EventScorer.role_metrics ms))).
Proof.
  intros Hw.
  assert (Forall (λ inst, verbose = true → warnable inst) instance_list)
    as Hw'.
  { apply Forall_forall. intros inst Hin Hv. specialize (Hw Hv).
    rewrite Forall_forall in Hw. by apply Hw. }
  split_and!.
  - unfold VerboseEntityScorer.run.
    apply (for_py_pairs_self (VerboseEntityScorer.count_pair verbose)
             (λ metrics, balanced (for_offset metrics)
                         ∧ balanced (for_string metrics))
             (λ inst, verbose = true → warnable inst)); [|done|].
    + intros metrics inst [Ho Hs] Hinst.
      unfold VerboseEntityScorer.count_pair, EntityScorer.count_pair.
      destruct (count_self _ (get (entries inst) "string") Hs)
        as (s & -> & Hs'). simpl.
      destruct (count_self _ (get (entries inst) "offset") Ho)
        as (o & -> & Ho'). simpl.
      rewrite warn_returns by (intros Hv; split; auto). simpl. eauto.
    + split; apply balanced_init.
  - intros H5. unfold VerboseRelationScorer.run.
    apply (for_py_pairs_self (VerboseRelationScorer.count_pair verbose)
             (λ ms, balanced (for_offset (RelationScorer.metrics ms))
                    ∧ balanced (for_string (RelationScorer.metrics ms))
                    ∧ balanced
                        (for_offset (RelationScorer.boundary_metrics ms))
                    ∧ balanced
                        (for_string (RelationScorer.boundary_metrics ms)))
             (λ inst, five_tuples (entries inst)
                      ∧ (verbose = true → warnable inst))).
    + intros ms inst (Ho & Hs & Hbo & Hbs) [Hinst Hwi].
      unfold VerboseRelationScorer.count_pair. cbv zeta.
      destruct (count_self _ (get (entries inst) "offset") Ho)
        as (o & -> & Ho'). simpl.
      destruct (count_self _ (get (entries inst) "string") Hs)
        as (s & -> & Hs'). simpl.
      rewrite warn_returns by (intros Hv; split; auto). simpl.
      destruct (count_boundary_self _ (get (entries inst) "offset")
                  (Hinst _) Hbo) as (bo & -> & Hbo'). simpl.
      destruct (count_boundary_self _ (get (entries inst) "string")
                  (Hinst _) Hbs) as (bs & -> & Hbs'). simpl.
      rewrite warn_returns by (intros Hv; split; auto). simpl. eauto 10.
    + apply Forall_forall. intros inst Hin.
      rewrite Forall_forall in H5, Hw'. split; [by apply H5 | by apply Hw'].
    + split_and!; apply balanced_init.
  - unfold VerboseEventScorer.run.
    apply (for_py_pairs_self (VerboseEventScorer.count_pair verbose)
             (λ ms, balanced (for_offset (EventScorer.trigger_metrics ms))
                    ∧ balanced (for_string (EventScorer.trigger_metrics ms))
                    ∧ balanced (for_offset (EventScorer.role_metrics ms))
                    ∧ balanced (for_string (EventScorer.role_metrics ms)))
             (λ inst, verbose = true → warnable inst)); [|done|].
    + intros ms inst (Ho & Hs & Hro & Hrs) Hwi.
      unfold VerboseEventScorer.count_pair. cbv zeta.
      destruct (count_self _ (get (entries inst) ("offset" +:+ "_trigger"))
                  Ho) as (o & -> & Ho'). simpl.
      destruct (count_self _ (get (entries inst) ("string" +:+ "_trigger"))
                  Hs) as (s & -> & Hs'). simpl.
      rewrite warn_returns by (intros Hv; split; auto). simpl.
      destruct (count_self _ (get (entries inst) ("offset" +:+ "_role"))
                  Hro) as (ro & -> & Hro'). simpl.
      destruct (count_self _ (get (entries inst) ("string" +:+ "_role"))
                  Hrs) as (rs & -> & Hrs'). simpl.
      rewrite warn_returns by (intros Hv; split; auto). simpl. eauto 10.
    + split_and!; apply balanced_init.
Qed.

(** X12 with [verbose=True], for an instance without offsets. *)
Lemma scoring_a_corpus_against_itself_witness :
  ∃ metrics,
    VerboseEntityScorer.run true ModeNormal
      [mkPyInstance DefaultDict (<["string" := [PER_a]]> ∅)]
      [mkPyInstance DefaultDict (<["string" := [PER_a]]> ∅)]
    = inr metrics
    ∧ balanced (for_offset metrics) ∧ balanced (for_string metrics).
Proof.
  apply (scoring_a_corpus_against_itself true ModeNormal
           [mkPyInstance DefaultDict (<["string" := [PER_a]]> ∅)]).
  intros _. by repeat constructor.
Defined.

(** With [verbose=True], a dict without the key ['offset'] and a tp
    increment that differs between the axes: the warning raises. *)
Example verbose_warning_raises_KeyError :
  VerboseEntityScorer.run true ModeNormal
    [mkPyInstance PlainDict (<["string" := [PER_a]]> ∅)]
    [mkPyInstance PlainDict (<["string" := [PER_a]]> ∅)]
  = inl KeyError
  ∧ VerboseEntityScorer.run false ModeNormal
      [mkPyInstance PlainDict (<["string" := [PER_a]]> ∅)]
      [mkPyInstance PlainDict (<["string" := [PER_a]]> ∅)]
    = inr (mkAxes (mkMetric 0 0 0 ModeNormal) (mkMetric 1 1 1 ModeNormal)).
Proof. by vm_compute. Qed.

(** * Records as unordered collections of roles *)

(** X13. When Python's [<] is a strict total order on the values of the
    roles, [RecordMetric.is_equal] holds iff the two records have the same
    type, the same spot and the same roles with the same multiplicities, in
    whatever order they are listed. *)
Theorem record_is_equal_ignores_role_order (V : Type)
  (eq_dec : EqDecision V) (value_ltb : V → V → bool) :
  (∀ a, value_ltb a a = false) →
  (∀ a b c, value_ltb a b = true → value_ltb b c = true →
            value_ltb a c = true) →
  (∀ a b, a ≠ b → value_ltb a b = true ∨ value_ltb b a = true) →
  ∀ gold pred : record V,
    RecordMetric.is_equal value_ltb gold pred = true
    ↔ r_type gold = r_type pred
      ∧ r_spot gold = r_spot pred
      ∧ r_asocs gold ≡ₚ r_asocs pred.
Proof.
  intros Hirr Htrans Htot gold pred. unfold RecordMetric.is_equal.
  rewrite record_is_equal_sorted_eq. split.
  - intros (? & ? & Heq). split_and!; [done..|].
    by eapply sorted_eq_Permutation.
  - intros (? & ? & Hperm). split_and!; [done..|]. by apply sorted_unique.
Qed.

(** X13 for the two event records of the example data, text axis. *)
Lemma record_is_equal_ignores_role_order_witness :
  RecordMetric.is_equal String.ltb attack_record attack_record_swapped = true.
Proof.
  apply (record_is_equal_ignores_role_order string _ String.ltb
           string_ltb_irrefl string_ltb_trans string_ltb_total).
  split_and!; [done..|]. apply perm_swap.
Defined.

(** X14. [RecordMetric.is_equal] and [OrderedRecordMetric.is_equal] are
    equivalence relations: a record equals itself, gold and prediction can
    be exchanged, and equality passes along a chain.  Records that are equal
    for [OrderedRecordMetric] are equal for [RecordMetric]. *)
Theorem is_equal_equivalence (V : Type) (eq_dec : EqDecision V)
  (value_ltb : V → V → bool) (cls : record_class) :
  (∀ r : record V, is_equal value_ltb cls r r = true)
  ∧ (∀ gold pred : record V,
       is_equal value_ltb cls gold pred = is_equal value_ltb cls pred gold)
  ∧ (∀ r1 r2 r3 : record V,
       is_equal value_ltb cls r1 r2 = true →
       is_equal value_ltb cls r2 r3 = true →
       is_equal value_ltb cls r1 r3 = true)
  ∧ (∀ gold pred : record V,
       OrderedRecordMetric.is_equal gold pred = true →
       RecordMetric.is_equal value_ltb gold pred = true).
Proof.
  assert (∀ gold pred : record V,
            ordered_record_is_equal gold pred = true
            ↔ r_type gold = r_type pred ∧ r_spot gold = r_spot pred
              ∧ r_asocs gold = r_asocs pred) as Hord.
  { intros gold pred. rewrite ordered_record_is_equal_spec. split.
    - intros (? & ? & Hlen & Hall). split_and!; [done..|].
      apply list_eq_same_length with (length (r_asocs gold)); [done..|].
      intros i a b _. apply Hall.
    - intros (? & ? & Heq). rewrite Heq. split_and!; [done..|]. congruence. }
  assert (∀ gold pred : record V,
            is_equal value_ltb cls gold pred = true
            ↔ r_type gold = r_type pred ∧ r_spot gold = r_spot pred
              ∧ (match cls with
                 | RecordMetricClass => sorted value_ltb
                 | OrderedRecordMetricClass => id
                 end) (r_asocs gold)
                = (match cls with
                   | RecordMetricClass => sorted value_ltb
                   | OrderedRecordMetricClass => id
                   end) (r_asocs pred)) as Hcls.
  { intros gold pred. destruct cls; simpl.
    - apply record_is_equal_sorted_eq.
    - apply Hord. }
  split_and!.
  - intros r. by apply Hcls.
  - intros gold pred. apply eq_true_iff_eq. rewrite !Hcls.
    split; intros (? & ? & ?); by split_and!.
  - intros r1 r2 r3. rewrite !Hcls.
    intros (? & ? & ?) (? & ? & ?). split_and!; congruence.
  - intros gold pred. unfold OrderedRecordMetric.is_equal,
      RecordMetric.is_equal.
    rewrite Hord, record_is_equal_sorted_eq.
    intros (? & ? & ->). by split_and!.
Qed.

(** * Label trees *)

Lemma walk_empty_tree (seq : list Z) :
  LabelTree.walk seq LabelTree.empty_tree = if decide (seq = []) then Some LabelTree.empty_tree else None.
Proof. destruct seq; simpl; [done|]. by rewrite lookup_empty. Qed.

Lemma walk_add_label (a seq : list Z) (tree : LabelTree.token_tree) :
  LabelTree.walk seq (LabelTree.add_label a tree)
  = if decide (seq `prefix_of` a)
    then Some (LabelTree.add_label (drop (length seq) a)
                 (default LabelTree.empty_tree (LabelTree.walk seq tree)))
    else LabelTree.walk seq tree.
Proof.
  revert seq tree. induction a as [|x a IH]; intros [|v seq] tree.
  - by case_decide.
  - case_decide as Hp; [|done]. by apply prefix_nil_inv in Hp.
  - case_decide as Hp; [done|]. destruct Hp. apply prefix_nil.
  - cbn [LabelTree.walk LabelTree.add_label LabelTree.children]. destruct (decide (v = x)) as [->|Hne].
    + rewrite lookup_insert_eq. cbn [mbind option_bind]. rewrite IH.
      destruct (decide (seq `prefix_of` a)) as [Hp|Hp].
      * rewrite decide_True by by apply prefix_cons. cbn [length drop].
        f_equal. f_equal.
        destruct (LabelTree.children tree !! x) as [c|]; simpl; [done|].
        rewrite walk_empty_tree. by case_decide.
      * rewrite decide_False by (by intros ?%prefix_cons_inv_2).
        destruct (LabelTree.children tree !! x) as [c|]; simpl; [done|].
        rewrite walk_empty_tree. rewrite decide_False; [done|].
        intros ->. apply Hp, prefix_nil.
    + rewrite lookup_insert_ne by done.
      rewrite decide_False; [done|]. by intros ?%prefix_cons_inv_1.
Qed.

Lemma has_end_add_label (a : list Z) (tree : LabelTree.token_tree) :
  LabelTree.has_end (LabelTree.add_label a tree) = if decide (a = []) then true else LabelTree.has_end tree.
Proof. by destruct a. Qed.

Lemma prefix_drop_nil {A} (l k : list A) :
  l `prefix_of` k → drop (length l) k = [] → l = k.
Proof.
  intros [m ->]. rewrite drop_app_length. intros ->. by rewrite app_nil_r.
Qed.

Lemma accepts_add_label (a seq : list Z) (tree : LabelTree.token_tree) :
  LabelTree.accepts (LabelTree.add_label a tree) seq ↔ seq = a ∨ LabelTree.accepts tree seq.
Proof.
  unfold LabelTree.accepts. rewrite walk_add_label.
  destruct (decide (seq `prefix_of` a)) as [Hp|Hp].
  - split.
    + intros (node & [= <-] & Hend). rewrite has_end_add_label in Hend.
      case_decide as Hd; [left; by apply prefix_drop_nil|].
      right. destruct (LabelTree.walk seq tree) as [node|]; simpl in *; [eauto|done].
    + intros Hor. eexists. split; [done|]. rewrite has_end_add_label.
      case_decide as Hd; [done|]. destruct Hor as [->|(node & -> & Hend)].
      * by rewrite drop_all in Hd.
      * done.
  - split; [by right|]. intros [->|H]; [|done]. by destruct Hp.
Qed.

Lemma accepts_empty_tree (seq : list Z) : ¬ LabelTree.accepts LabelTree.empty_tree seq.
Proof.
  intros (node & Hw & Hend). rewrite walk_empty_tree in Hw.
  case_decide; by simplify_eq.
Qed.

Lemma walk_app (s1 s2 : list Z) (tree : LabelTree.token_tree) :
  LabelTree.walk (s1 ++ s2) tree = LabelTree.walk s1 tree ≫= LabelTree.walk s2.
Proof.
  revert tree. induction s1 as [|v s1 IH]; intros tree; simpl; [done|].
  destruct (LabelTree.children tree !! v) as [c|]; simpl; [apply IH | done].
Qed.

Lemma walk_add_label_is_Some (a seq : list Z) (tree : LabelTree.token_tree) :
  is_Some (LabelTree.walk seq (LabelTree.add_label a tree))
  ↔ seq `prefix_of` a ∨ is_Some (LabelTree.walk seq tree).
Proof.
  rewrite walk_add_label. case_decide.
  - split; [by left | by eexists].
  - split; [by right | by intros [?|?]].
Qed.

Section LabelTreeFacts.
Variable encode : string → list Z.

Lemma dict_set_encode (d : list (string * list Z)) (key : string) :
  Forall (λ p, p.2 = encode p.1) d →
  LabelTree.dict_set d key (encode key)
  = if decide (key ∈ d.*1) then d else d ++ [(key, encode key)].
Proof.
  induction 1 as [|[k w] d Hk _ IH].
  - done.
  - cbn [LabelTree.dict_set]. simpl in Hk. rewrite fmap_cons. cbn [fst].
    destruct (decide (k = key)) as [->|Hne].
    + rewrite decide_True by left. by rewrite Hk.
    + rewrite IH. destruct (decide (key ∈ d.*1)) as [Hin|Hin].
      * rewrite decide_True; [done|]. by right.
      * rewrite decide_False; [done|].
        intros [?|?]%elem_of_cons; congruence.
Qed.

Lemma label_tree_items (label_name_list : list string)
  (d : list (string * list Z)) :
  Forall (λ p, p.2 = encode p.1) d →
  ∀ p, p ∈ fold_left (λ label_tree typename,
                        LabelTree.dict_set label_tree typename (encode typename))
             label_name_list d
       ↔ p ∈ d ∨ ∃ typename, typename ∈ label_name_list
                             ∧ p = (typename, encode typename).
Proof.
  revert d. induction label_name_list as [|name names IH]; intros d Hd p;
    simpl.
  - split; [by left|]. intros [?|(? & ?%elem_of_nil & _)]; done.
  - rewrite dict_set_encode by done.
    destruct (decide (name ∈ d.*1)) as [Hin|Hin].
    + rewrite IH by done. split.
      * intros [?|(n & ? & ->)]; [by left|]. right. exists n.
        split; [by right | done].
      * intros [?|(n & [->|?]%elem_of_cons & ->)]; [by left| |].
        -- left. apply list_elem_of_fmap in Hin as ([k w] & -> & Hin).
           rewrite Forall_forall in Hd. specialize (Hd _ Hin).
           simpl in Hd. simpl. by rewrite <- Hd.
        -- right. eauto.
    + rewrite IH.
      * rewrite elem_of_app, list_elem_of_singleton. split.
        -- intros [[?| ->]|(n & ? & ->)]; [by left| |].
           ++ right. exists name. split; [left | done].
           ++ right. exists n. split; [by right | done].
        -- intros [?|(n & [->|?]%elem_of_cons & ->)];
             [by left; left | by left; right | right; eauto].
      * apply Forall_app. split; [done|]. by repeat constructor.
Qed.

Lemma accepts_fold (items : list (string * list Z)) (tree : LabelTree.token_tree)
  (seq : list Z) :
  LabelTree.accepts (fold_left (λ sub_token_tree '(_, sub_label_seq),
                        LabelTree.add_label sub_label_seq sub_token_tree)
             items tree) seq
  ↔ LabelTree.accepts tree seq ∨ ∃ p, p ∈ items ∧ p.2 = seq.
Proof.
  revert tree. induction items as [|[name a] items IH]; intros tree; simpl.
  - split; [by left|]. intros [?|(? & ?%elem_of_nil & _)]; done.
  - rewrite IH, accepts_add_label. split.
    + intros [[->|?]|(p & ? & ?)]; [|by left|].
      * right. exists (name, a). split; [left | done].
      * right. exists p. split; [by right | done].
    + intros [?|(p & [->|?]%elem_of_cons & <-)];
        [by left; right | by left; left | right; eauto].
Qed.

Lemma walk_fold_is_Some (items : list (string * list Z)) (tree : LabelTree.token_tree)
  (seq : list Z) :
  is_Some (LabelTree.walk seq (fold_left (λ sub_token_tree '(_, sub_label_seq),
                                  LabelTree.add_label sub_label_seq sub_token_tree)
                       items tree))
  ↔ is_Some (LabelTree.walk seq tree) ∨ ∃ p, p ∈ items ∧ seq `prefix_of` p.2.
Proof.
  revert tree. induction items as [|[name a] items IH]; intros tree; simpl.
  - split; [by left|]. intros [?|(? & ?%elem_of_nil & _)]; done.
  - rewrite IH, walk_add_label_is_Some. split.
    + intros [[?|?]|(p & ? & ?)]; [|by left|].
      * right. exists (name, a). split; [left | done].
      * right. exists p. split; [by right | done].
    + intros [?|(p & [->|?]%elem_of_cons & ?)];
        [by left; right | by left; left | right; eauto].
Qed.

Lemma accepts_get_label_name_tree (label_name_list : list string)
  (seq : list Z) :
  LabelTree.accepts (LabelTree.get_label_name_tree encode label_name_list) seq
  ↔ ∃ typename, typename ∈ label_name_list ∧ encode typename = seq.
Proof.
  unfold LabelTree.get_label_name_tree. rewrite accepts_fold. split.
  - intros [?%accepts_empty_tree|(p & Hp & <-)]; [done|].
    apply label_tree_items in Hp; [|done].
    destruct Hp as [?%elem_of_nil|(n & ? & ->)]; [done|]. eauto.
  - intros (n & Hn & <-). right. exists (n, encode n). split; [|done].
    apply label_tree_items; [done|]. right. eauto.
Qed.

Lemma walk_get_label_name_tree (label_name_list : list string)
  (seq : list Z) :
  is_Some (LabelTree.walk seq (LabelTree.get_label_name_tree encode label_name_list))
  ↔ seq = [] ∨ ∃ typename, typename ∈ label_name_list
                           ∧ seq `prefix_of` encode typename.
Proof.
  unfold LabelTree.get_label_name_tree. rewrite walk_fold_is_Some.
  rewrite walk_empty_tree. split.
  - intros [Hs|(p & Hp & Hpre)].
    + case_decide; [by left | by destruct Hs].
    + apply label_tree_items in Hp; [|done].
      destruct Hp as [?%elem_of_nil|(n & ? & ->)]; [done|]. right. eauto.
  - intros [->|(n & Hn & Hpre)]; [left; by eexists|].
    right. exists (n, encode n). split; [|done].
    apply label_tree_items; [done|]. right. eauto.
Qed.

End LabelTreeFacts.

Lemma is_end_of_tree_spec (tree : LabelTree.token_tree) :
  LabelTree.is_end_of_tree tree = true ↔ LabelTree.has_end tree = true ∧ LabelTree.children tree = ∅.
Proof.
  unfold LabelTree.is_end_of_tree, LabelTree.tree_len. rewrite andb_true_iff, bool_decide_eq_true.
  split.
  - intros [Hlen Hend]. split; [done|]. rewrite Hend in Hlen.
    apply map_size_empty_iff. lia.
  - intros [-> ->]. by rewrite map_size_empty.
Qed.

(** X15. The tree of [get_label_name_tree] holds the labels and nothing
    else: a sequence of tokens leads from the root to a node that has
    [end_symbol] iff it is the encoding of one of the label names. *)
Theorem label_tree_accepts_the_labels (encode : string → list Z)
  (label_name_list : list string) (seq : list Z) :
  LabelTree.accepts (LabelTree.get_label_name_tree encode label_name_list) seq
  ↔ ∃ typename, typename ∈ label_name_list ∧ encode typename = seq.
Proof. apply accepts_get_label_name_tree. Qed.

(** X16. At the node a sequence of tokens leads to,
    [PrefixTree.is_end_of_tree] holds iff the sequence is the encoding of a
    label name and no label name has an encoding that goes on from it. *)
Theorem is_end_of_tree_at_maximal_labels (encode : string → list Z)
  (label_name_list : list string) (seq : list Z) (node : LabelTree.token_tree) :
  LabelTree.walk seq (LabelTree.get_label_name_tree encode label_name_list) = Some node →
  LabelTree.is_end_of_tree node = true
  ↔ (∃ typename, typename ∈ label_name_list ∧ encode typename = seq)
    ∧ ∀ typename, typename ∈ label_name_list →
                  seq `prefix_of` encode typename → encode typename = seq.
Proof.
  intros Hnode. rewrite is_end_of_tree_spec.
  rewrite <- accepts_get_label_name_tree.
  assert (LabelTree.has_end node = true
          ↔ LabelTree.accepts (LabelTree.get_label_name_tree encode label_name_list) seq) as ->.
  { unfold LabelTree.accepts. rewrite Hnode.
    split; [eauto | by intros (? & [= <-] & ?)]. }
  apply and_iff_compat_l.
  assert (∀ v, is_Some (LabelTree.children node !! v)
               ↔ ∃ typename, typename ∈ label_name_list
                             ∧ (seq ++ [v]) `prefix_of` encode typename)
    as Hchild.
  { intros v.
    pose proof (walk_get_label_name_tree encode label_name_list (seq ++ [v]))
      as Hw.
    rewrite walk_app, Hnode in Hw. simpl in Hw.
    assert (is_Some (LabelTree.children node !! v ≫= Some)
            ↔ is_Some (LabelTree.children node !! v)) as Hb
        by (by destruct (LabelTree.children node !! v)).
    rewrite Hb in Hw. rewrite Hw. split; [|by right].
    intros [Hnil|?]; [|done]. by destruct seq. }
  split.
  - intros Hempty n Hn [rest Hrest].
    destruct rest as [|v rest]; [by rewrite app_nil_r in Hrest|].
    assert (is_Some (LabelTree.children node !! v)) as [c Hc].
    { apply Hchild. exists n. split; [done|]. exists rest.
      by rewrite <- app_assoc. }
    by rewrite Hempty, lookup_empty in Hc.
  - intros Hmax. apply map_empty. intros v.
    apply eq_None_not_Some. intros (n & Hn & Hpre)%Hchild.
    assert (seq `prefix_of` encode n) as Hseq
        by (etrans; [by apply prefix_app_r|done]).
    rewrite (Hmax n Hn Hseq) in Hpre.
    apply prefix_length in Hpre. rewrite length_app in Hpre. simpl in Hpre.
    lia.
Qed.

(** X16 at the node of the label [ab], with the labels [a] and [ab]. *)
Lemma is_end_of_tree_at_maximal_labels_witness :
  LabelTree.is_end_of_tree (LabelTree.TokenTree true ∅) = true
  ↔ (∃ typename, typename ∈ ["a"; "ab"] ∧ char_codes typename = [97; 98])
    ∧ ∀ typename, typename ∈ ["a"; "ab"] →
                  [97; 98] `prefix_of` char_codes typename →
                  char_codes typename = [97; 98].
Proof.
  apply (is_end_of_tree_at_maximal_labels char_codes ["a"; "ab"] [97; 98]).
  by vm_compute.
Defined.

Lemma add_label_comm (a b : list Z) (tree : LabelTree.token_tree) :
  LabelTree.add_label a (LabelTree.add_label b tree) = LabelTree.add_label b (LabelTree.add_label a tree).
Proof.
  revert b tree. induction a as [|x a IH]; intros [|y b] tree; try done.
  cbn [LabelTree.add_label LabelTree.children LabelTree.has_end].
  destruct (decide (x = y)) as [->|Hne].
  - rewrite !lookup_insert_eq, !insert_insert_eq. simpl. by rewrite IH.
  - rewrite !lookup_insert_ne by done. f_equal. by apply insert_insert_ne.
Qed.

Lemma add_label_idemp (a : list Z) (tree : LabelTree.token_tree) :
  LabelTree.add_label a (LabelTree.add_label a tree) = LabelTree.add_label a tree.
Proof.
  revert tree. induction a as [|x a IH]; intros tree; [done|].
  cbn [LabelTree.add_label LabelTree.children LabelTree.has_end].
  rewrite lookup_insert_eq, insert_insert_eq. simpl. by rewrite IH.
Qed.

Lemma fold_add_label_foldr (items : list (string * list Z))
  (tree : LabelTree.token_tree) :
  fold_left (λ sub_token_tree '(_, sub_label_seq),
               LabelTree.add_label sub_label_seq sub_token_tree) items tree
  = foldr LabelTree.add_label tree (items.*2).
Proof.
  revert tree. induction items as [|[name a] items IH]; intros tree;
    [done|].
  cbn [fold_left]. rewrite IH, fmap_cons. cbn [foldr snd]. clear IH.
  generalize (items.*2). intros l.
  induction l as [|b l IH]; simpl; [done|].
  by rewrite IH, add_label_comm.
Qed.

Lemma foldr_add_label_absorb (a : list Z) (l : list (list Z))
  (tree : LabelTree.token_tree) :
  a ∈ l → LabelTree.add_label a (foldr LabelTree.add_label tree l) = foldr LabelTree.add_label tree l.
Proof.
  induction l as [|b l IH]; simpl; [by intros ?%elem_of_nil|].
  intros [->|Hin]%elem_of_cons; [apply add_label_idemp|].
  by rewrite add_label_comm, IH.
Qed.

Lemma foldr_add_label_remove_dups (l : list (list Z)) (tree : LabelTree.token_tree) :
  foldr LabelTree.add_label tree (remove_dups l) = foldr LabelTree.add_label tree l.
Proof.
  induction l as [|a l IH]; simpl; [done|].
  case_decide as Hin; simpl; rewrite IH; [|done].
  by rewrite foldr_add_label_absorb.
Qed.

Lemma foldr_add_label_Permutation (l k : list (list Z)) (tree : LabelTree.token_tree) :
  l ≡ₚ k → foldr LabelTree.add_label tree l = foldr LabelTree.add_label tree k.
Proof.
  induction 1 as [|a l k _ IH|a b l|l k m _ IH1 _ IH2]; simpl.
  - done.
  - by rewrite IH.
  - apply add_label_comm.
  - by rewrite IH1.
Qed.

Lemma foldr_add_label_same_elements (l k : list (list Z))
  (tree : LabelTree.token_tree) :
  (∀ a, a ∈ l ↔ a ∈ k) →
  foldr LabelTree.add_label tree l = foldr LabelTree.add_label tree k.
Proof.
  intros Hlk. rewrite <- (foldr_add_label_remove_dups l),
    <- (foldr_add_label_remove_dups k).
  apply foldr_add_label_Permutation.
  apply NoDup_Permutation; [apply NoDup_remove_dups..|].
  intros a. by rewrite !elem_of_remove_dups.
Qed.

(** X17. [get_label_name_tree] returns the same tree for two lists of
    label names with the same members: neither the order of the names nor a
    repeated name matters. *)
Theorem label_tree_ignores_order_and_repeats (encode : string → list Z)
  (label_name_list label_name_list' : list string) :
  (∀ typename, typename ∈ label_name_list ↔ typename ∈ label_name_list') →
  LabelTree.get_label_name_tree encode label_name_list
  = LabelTree.get_label_name_tree encode label_name_list'.
Proof.
  intros Hsame. unfold LabelTree.get_label_name_tree.
  rewrite !fold_add_label_foldr. apply foldr_add_label_same_elements.
  intros a. rewrite !list_elem_of_fmap. split.
  - intros (p & -> & Hp). apply label_tree_items in Hp; [|done].
    destruct Hp as [?%elem_of_nil|(n & Hn & ->)]; [done|].
    exists (n, encode n). split; [done|].
    apply label_tree_items; [done|]. right. exists n. by rewrite <- Hsame.
  - intros (p & -> & Hp). apply label_tree_items in Hp; [|done].
    destruct Hp as [?%elem_of_nil|(n & Hn & ->)]; [done|].
    exists (n, encode n). split; [done|].
    apply label_tree_items; [done|]. right. exists n. by rewrite Hsame.
Qed.

(** X17 for a list with a repeated name. *)
Lemma label_tree_ignores_order_and_repeats_witness :
  LabelTree.get_label_name_tree char_codes ["ab"; "a"; "ab"]
  = LabelTree.get_label_name_tree char_codes ["a"; "ab"].
Proof.
  apply label_tree_ignores_order_and_repeats. intros typename.
  rewrite !elem_of_cons, !elem_of_nil. tauto.
Defined.

(** ** The role trees of the types *)

Section TypeRoleTree.
Variable encode : string → list Z.
Variable role_tree : LabelTree.token_tree.

Lemma add_role_inr (sub sub' : gmap Z LabelTree.token_tree) (role : string) :
  LabelTree.add_role encode role_tree sub role = inr sub'
  ↔ ∃ tok t, head (encode role) = Some tok
             ∧ LabelTree.children role_tree !! tok = Some t
             ∧ sub' = <[tok := t]> sub.
Proof.
  unfold LabelTree.add_role. destruct (encode role) as [|tok rest]; simpl.
  - split; [done|]. by intros (? & ? & ? & _).
  - destruct (LabelTree.children role_tree !! tok) as [t|] eqn:Ht.
    + split.
      * intros [= <-]. eauto.
      * intros (tok' & t' & [= <-] & Ht' & ->). congruence.
    + split; [done|]. intros (tok' & t' & [= <-] & Ht' & _). congruence.
Qed.

Lemma add_roles_inr (role_list : list string)
  (sub sub' : gmap Z LabelTree.token_tree) :
  LabelTree.add_roles encode role_tree sub role_list = inr sub' →
  (∀ tok t, sub !! tok = Some t →
            LabelTree.children role_tree !! tok = Some t) →
  (∀ role, role ∈ role_list →
           ∃ tok, head (encode role) = Some tok
                  ∧ is_Some (LabelTree.children role_tree !! tok))
  ∧ ∀ tok t,
      sub' !! tok = Some t
      ↔ (LabelTree.children role_tree !! tok = Some t
         ∧ ∃ role, role ∈ role_list ∧ head (encode role) = Some tok)
        ∨ sub !! tok = Some t.
Proof.
  revert sub. induction role_list as [|role rest IH]; intros sub; simpl.
  - intros [= <-] _. split; [by intros ? ?%elem_of_nil|].
    intros tok t. split; [by right|].
    by intros [(_ & ? & ?%elem_of_nil & _)|?].
  - destruct (LabelTree.add_role encode role_tree sub role) as [e|sub1]
      eqn:Hrole; [done|].
    apply add_role_inr in Hrole as (tok0 & t0 & Hhead & Ht0 & ->).
    intros Hrest Hsub. apply IH in Hrest as (Hok & Hsub').
    + split.
      * intros r [->|Hr]%elem_of_cons; [eauto|by apply Hok].
      * intros tok t. rewrite Hsub'. clear Hsub' IH. split.
        -- intros [(Ht & r & Hr & Hrt)|Ht].
           ++ left. split; [done|]. exists r. split; [by right | done].
           ++ destruct (decide (tok0 = tok)) as [->|Hne].
              ** rewrite lookup_insert_eq in Ht. simplify_eq. left.
                 split; [done|]. exists role. split; [left | done].
              ** rewrite lookup_insert_ne in Ht by done. by right.
        -- intros [(Ht & r & [->|Hr]%elem_of_cons & Hrt)|Ht].
           ++ simplify_eq. right. by rewrite lookup_insert_eq.
           ++ left. split; [done|]. eauto.
           ++ right. destruct (decide (tok0 = tok)) as [->|Hne].
              ** rewrite lookup_insert_eq. apply Hsub in Ht. congruence.
              ** by rewrite lookup_insert_ne.
    + intros tok t. destruct (decide (tok0 = tok)) as [->|Hne].
      * rewrite lookup_insert_eq. congruence.
      * rewrite lookup_insert_ne by done. apply Hsub.
Qed.

Lemma add_roles_total (role_list : list string)
  (sub : gmap Z LabelTree.token_tree) :
  (∀ role, role ∈ role_list →
           ∃ tok, head (encode role) = Some tok
                  ∧ is_Some (LabelTree.children role_tree !! tok)) →
  ∃ sub', LabelTree.add_roles encode role_tree sub role_list = inr sub'.
Proof.
  revert sub. induction role_list as [|role rest IH]; intros sub Hok; simpl;
    [eauto|].
  destruct (Hok role) as (tok & Hhead & t & Ht); [left|].
  assert (LabelTree.add_role encode role_tree sub role
          = inr (<[tok := t]> sub)) as ->
      by (apply add_role_inr; eauto).
  apply IH. intros r Hr. apply Hok. by right.
Qed.

(** What [get_type_role_tree] needs of a role, and what it makes of a
    role list. *)
Lemma add_types_inr (items : list (string * list string))
  (acc result : gmap (list Z) LabelTree.token_tree) :
  LabelTree.add_types encode items role_tree acc = inr result →
  (∀ typename role_list role,
     (typename, role_list) ∈ items → role ∈ role_list →
     ∃ tok, head (encode role) = Some tok
            ∧ is_Some (LabelTree.children role_tree !! tok))
  ∧ (∀ key, is_Some (result !! key)
            ↔ is_Some (acc !! key)
              ∨ ∃ item, item ∈ items ∧ encode item.1 = key)
  ∧ ∀ key sub,
      result !! key = Some sub →
      acc !! key = Some sub
      ∨ ∃ typename role_list,
          (typename, role_list) ∈ items ∧ encode typename = key
          ∧ LabelTree.has_end sub = false
          ∧ ∀ tok t,
              LabelTree.children sub !! tok = Some t
              ↔ LabelTree.children role_tree !! tok = Some t
                ∧ ∃ role, role ∈ role_list
                          ∧ head (encode role) = Some tok.
Proof.
  revert acc. induction items as [|[typename role_list] items IH];
    intros acc; simpl.
  - intros [= <-]. split_and!.
    + by intros ??? ?%elem_of_nil.
    + intros key. split; [by left|].
      by intros [?|(? & ?%elem_of_nil & _)].
    + intros key sub ?. by left.
  - destruct (LabelTree.add_roles encode role_tree ∅ role_list) as [e|sub0]
      eqn:Hroles; [done|].
    apply add_roles_inr in Hroles as (Hok & Hsub0);
      [|intros ??; by rewrite lookup_empty].
    intros (Hoks & Hdom & Hentries)%IH. split_and!.
    + intros tn rl r [[= -> ->]|Hin]%elem_of_cons Hr; [by apply Hok|].
      by eapply Hoks.
    + intros key. rewrite Hdom. split.
      * intros [Hs|(item & Hin & Hkey)].
        -- destruct (decide (encode typename = key)) as [<-|Hne].
           ++ right. exists (typename, role_list). split; [left | done].
           ++ left. by rewrite lookup_insert_ne in Hs.
        -- right. exists item. split; [by right | done].
      * intros [Hs|(item & [->|Hin]%elem_of_cons & Hkey)].
        -- left. destruct (decide (encode typename = key)) as [<-|Hne].
           ++ by rewrite lookup_insert_eq.
           ++ by rewrite lookup_insert_ne.
        -- left. simpl in Hkey. subst key. by rewrite lookup_insert_eq.
        -- right. eauto.
    + intros key sub Hsub. apply Hentries in Hsub as [Hs|Hs].
      * destruct (decide (encode typename = key)) as [<-|Hne].
        -- rewrite lookup_insert_eq in Hs. simplify_eq. right.
           exists typename, role_list. split_and!; [left|done..|].
           simpl. intros tok t. rewrite Hsub0, lookup_empty.
           split; [by intros [?|?] | by left].
        -- rewrite lookup_insert_ne in Hs by done. by left.
      * right. destruct Hs as (tn & rl & Hin & Hrest).
        exists tn, rl. split; [by right | done].
Qed.

Lemma add_types_total (items : list (string * list string))
  (acc : gmap (list Z) LabelTree.token_tree) :
  (∀ typename role_list role,
     (typename, role_list) ∈ items → role ∈ role_list →
     ∃ tok, head (encode role) = Some tok
            ∧ is_Some (LabelTree.children role_tree !! tok)) →
  ∃ result, LabelTree.add_types encode items role_tree acc = inr result.
Proof.
  revert acc. induction items as [|[typename role_list] items IH];
    intros acc Hok; simpl; [eauto|].
  destruct (add_roles_total role_list ∅) as [sub ->].
  - intros role Hrole. eapply Hok; [left | done].
  - apply IH. intros tn rl r Hin Hr. eapply Hok; [by right | done].
Qed.

End TypeRoleTree.

(** X18. [get_type_role_tree] returns iff every role of every type has a
    first token and this token is a key of [role_tree]; otherwise a
    subscript raises.  What it returns has the encoded type names as its
    keys, and the tree of a key is that of one of the types with this
    encoding: it has no [end_symbol] and its children are the children of
    [role_tree] under the first tokens of the roles of the type. *)
Theorem get_type_role_tree_spec (encode : string → list Z)
  (type_role_dict : list (string * list string))
  (role_tree : LabelTree.token_tree) :
  ((∃ type_role_tree,
      LabelTree.get_type_role_tree encode type_role_dict role_tree
      = inr type_role_tree)
   ↔ ∀ typename role_list role,
       (typename, role_list) ∈ type_role_dict → role ∈ role_list →
       ∃ tok, head (encode role) = Some tok
              ∧ is_Some (LabelTree.children role_tree !! tok))
  ∧ ∀ type_role_tree,
      LabelTree.get_type_role_tree encode type_role_dict role_tree
      = inr type_role_tree →
      (∀ key, is_Some (type_role_tree !! key)
              ↔ ∃ item, item ∈ type_role_dict ∧ encode item.1 = key)
      ∧ ∀ key sub,
          type_role_tree !! key = Some sub →
          ∃ typename role_list,
            (typename, role_list) ∈ type_role_dict
            ∧ encode typename = key
            ∧ LabelTree.has_end sub = false
            ∧ ∀ tok t,
                LabelTree.children sub !! tok = Some t
                ↔ LabelTree.children role_tree !! tok = Some t
                  ∧ ∃ role, role ∈ role_list
                            ∧ head (encode role) = Some tok.
Proof.
  unfold LabelTree.get_type_role_tree. split.
  - split.
    + intros (result & Hres). by apply add_types_inr in Hres as (Hok & _).
    + apply add_types_total.
  - intros result (_ & Hdom & Hentries)%add_types_inr. split.
    + intros key. rewrite Hdom, lookup_empty. split.
      * by intros [[? ?]|?].
      * by right.
    + intros key sub Hsub. apply Hentries in Hsub as [Hs|Hs]; [|done].
      by rewrite lookup_empty in Hs.
Qed.

Lemma walk_singleton (tok : Z) (tree : LabelTree.token_tree) :
  LabelTree.walk [tok] tree = LabelTree.children tree !! tok.
Proof. simpl. by destruct (LabelTree.children tree !! tok). Qed.

(** X19. With the role tree that [get_label_name_tree] builds from role
    names among which are the roles of every type, none with an empty
    encoding, [get_type_role_tree] returns, and the tree of a type leads to
    [end_symbol] by exactly the encodings of the role names that start with
    the first token of one of the roles of the type. *)
Theorem type_role_tree_accepts (encode : string → list Z)
  (role_name_list : list string)
  (type_role_dict : list (string * list string)) :
  (∀ typename role_list role,
     (typename, role_list) ∈ type_role_dict → role ∈ role_list →
     role ∈ role_name_list ∧ encode role ≠ []) →
  ∃ type_role_tree,
    LabelTree.get_type_role_tree encode type_role_dict
      (LabelTree.get_label_name_tree encode role_name_list)
    = inr type_role_tree
    ∧ ∀ key sub,
        type_role_tree !! key = Some sub →
        ∃ typename role_list,
          (typename, role_list) ∈ type_role_dict
          ∧ encode typename = key
          ∧ ∀ seq,
              LabelTree.accepts sub seq
              ↔ (∃ role, role ∈ role_name_list ∧ encode role = seq)
                ∧ ∃ role, role ∈ role_list
                          ∧ head (encode role) = head seq.
Proof.
  intros Hroles. unfold LabelTree.get_type_role_tree.
  set (role_tree := LabelTree.get_label_name_tree encode role_name_list).
  destruct (add_types_total encode role_tree type_role_dict ∅)
    as [result Hresult].
  { intros typename role_list role Hin Hrole.
    destruct (Hroles _ _ _ Hin Hrole) as [Hname Hne].
    destruct (encode role) as [|tok rest] eqn:Henc; [done|].
    exists tok. split; [done|]. rewrite <- walk_singleton.
    apply walk_get_label_name_tree. right. exists role. split; [done|].
    rewrite Henc. by apply prefix_cons, prefix_nil. }
  exists result. split; [done|]. intros key sub Hsub.
  apply add_types_inr in Hresult as (_ & _ & Hentries).
  apply Hentries in Hsub as [Hs|(typename & role_list & Hin & Hkey & Hend
                                  & Hchildren)];
    [by rewrite lookup_empty in Hs|].
  exists typename, role_list. split_and!; [done..|]. intros seq.
  rewrite <- accepts_get_label_name_tree. fold role_tree.
  destruct seq as [|tok rest].
  - split.
    + intros (node & [= <-] & Hnode). congruence.
    + intros (_ & role & Hrole & Hhead).
      destruct (Hroles _ _ _ Hin Hrole) as [_ Hne].
      by destruct (encode role).
  - unfold LabelTree.accepts. simpl. split.
    + intros (node & Hwalk & Hnode).
      destruct (LabelTree.children sub !! tok) as [t|] eqn:Ht; [|done].
      apply Hchildren in Ht as [-> Hrole]. split; [eauto|done].
    + intros ((node & Hwalk & Hnode) & Hrole).
      destruct (LabelTree.children role_tree !! tok) as [t|] eqn:Ht;
        [|done].
      assert (LabelTree.children sub !! tok = Some t) as ->
          by by apply Hchildren.
      eauto.
Qed.

(** X19 for one type with one role among three role names. *)
Lemma type_role_tree_accepts_witness :
  ∃ type_role_tree,
    LabelTree.get_type_role_tree char_codes [("t", ["ab"])]
      (LabelTree.get_label_name_tree char_codes ["ab"; "ac"; "b"])
    = inr type_role_tree.
Proof.
  destruct (type_role_tree_accepts char_codes ["ab"; "ac"; "b"]
              [("t", ["ab"])]) as (type_role_tree & Htree & _).
  - intros typename role_list role [= -> ->]%list_elem_of_singleton
      ->%list_elem_of_singleton.
    split; [left | done].
  - by exists type_role_tree.
Defined.

(** * Raw predictions *)

Lemma res_mapM_Forall2 {A B} (f : A → res B) (l : list A) (l' : list B) :
  res_mapM f l = Ok l' ↔ Forall2 (λ x y, f x = Ok y) l l'.
Proof.
  revert l'. induction l as [|x l IH]; intros l'; simpl.
  - split; [intros [= <-]; constructor | by intros ->%Forall2_nil_inv_l].
  - split.
    + destruct (f x) as [y|e] eqn:Hx; simpl; [|done].
      destruct (res_mapM f l) as [ys|e] eqn:Hl; simpl; [|done].
      intros [= <-]. constructor; [done | by apply IH].
    + intros (y & ys & Hy & Hys & ->)%Forall2_cons_inv_l.
      apply IH in Hys. by rewrite Hy, Hys.
Qed.

Lemma res_mapM_fmap {A B C} (f : B → res C) (g : A → B) (h : A → C)
  (l : list A) :
  Forall (λ x, f (g x) = Ok (h x)) l → res_mapM f (g <$> l) = Ok (h <$> l).
Proof.
  induction 1 as [|x l Hx _ IH]; [done|].
  rewrite !fmap_cons. cbn [res_mapM]. rewrite Hx. cbn [res_bind].
  by rewrite IH.
Qed.

Lemma tuple_offset_raw_Ok (x y : pyval) :
  tuple_offset_raw x = Ok y →
  ∃ l, y = PTuple l ∧ (x = PTuple l ∨ x = PList l ∨ ∃ s, x = PStr s).
Proof. destruct x; simpl; intros [= <-]; eauto 10. Qed.

Lemma normalise_field_tuple_at (i : nat) (x : pyval) :
  tuple_at i x → normalise_field i x = Ok x.
Proof.
  intros (l & tl & [-> | ->] & Hi); unfold normalise_field; simpl;
    by rewrite Hi.
Qed.

Lemma normalise_field_Ok (i : nat) (x y : pyval) :
  normalise_field i x = Ok y →
  tuple_at i y
  ∧ (y = x
     ∨ ∃ l t, x = PList l ∧ y = PList (<[i := t]> l) ∧ (i < length l)%nat).
Proof.
  unfold normalise_field. destruct x as [s|z|l|l]; simpl.
  - destruct (chars s !! i) as [v|] eqn:Hc; simpl; [|done].
    unfold chars in Hc. apply list_lookup_fmap_Some in Hc as (c & -> & _).
    done.
  - done.
  - destruct (l !! i) as [v|] eqn:Hv; simpl; [|done].
    destruct v as [s|z|lv|tl]; simpl; try done.
    + case_decide; [|done]. intros [= <-]. split; [|right; eauto].
      exists (<[i := PTuple (chars s)]> l), (chars s).
      split; [by left | by apply list_lookup_insert_eq].
    + case_decide; [|done]. intros [= <-]. split; [|right; eauto].
      exists (<[i := PTuple lv]> l), lv.
      split; [by left | by apply list_lookup_insert_eq].
    + intros [= <-]. split; [|by left]. exists l, tl. by split; [left|].
  - destruct (l !! i) as [v|] eqn:Hv; simpl; [|done].
    destruct v as [s|z|lv|tl]; simpl; try done.
    intros [= <-]. split; [|by left]. exists l, tl. by split; [right|].
Qed.

Lemma mixed_nil (x : item) : mixed [] x = atom_json <$> x.
Proof.
  apply list_eq. intros i. unfold mixed.
  rewrite list_lookup_imap, list_lookup_fmap.
  by destruct (x !! i) as [a|].
Qed.

Lemma mixed_all (positions : list nat) (x : item) :
  offsets_at positions x → mixed positions x = atom_value <$> x.
Proof.
  intros Hx. apply list_eq. intros i. unfold mixed.
  rewrite list_lookup_imap, list_lookup_fmap. specialize (Hx i).
  unfold item in *.
  destruct (decide (i ∈ positions)) as [Hi|Hi];
    by destruct (x !! i) as [[s|o]|].
Qed.

Lemma normalise_field_mixed (i : nat) (done : list nat) (x : item) :
  (match x !! i with Some (AOff _) => True | _ => False end) →
  normalise_field i (PList (mixed done x)) = Ok (PList (mixed (i :: done) x)).
Proof.
  unfold item in *.
  destruct (x !! i) as [[s|o]|] eqn:Hi; try done. intros _.
  assert (mixed done x !! i
          = Some (if decide (i ∈ done) then atom_value (AOff o)
                  else atom_json (AOff o))) as Hm.
  { unfold mixed. by rewrite list_lookup_imap, Hi. }
  assert (<[i := PTuple (PInt <$> o)]> (mixed done x) = mixed (i :: done) x)
    as Hins.
  { apply list_eq. intros j. unfold mixed.
    destruct (decide (i = j)) as [<-|Hne].
    - rewrite list_lookup_insert_eq
        by (rewrite length_imap; by eapply lookup_lt_Some).
      rewrite list_lookup_imap, Hi. simpl.
      rewrite decide_True by left. done.
    - rewrite list_lookup_insert_ne by done. rewrite !list_lookup_imap.
      destruct (x !! j) as [a|]; simpl; [|done].
      f_equal. repeat case_decide; try done; exfalso; set_solver. }
  unfold normalise_field. simpl. rewrite Hm.
  destruct (decide (i ∈ done)) as [Hd|Hd]; simpl.
  - f_equal. f_equal. rewrite <- Hins. symmetry.
    apply list_insert_id. rewrite Hm. by destruct (decide (i ∈ done)).
  - destruct (decide (i < length (mixed done x))%nat) as [Hlt|Hlt].
    + by rewrite Hins.
    + destruct Hlt. unfold mixed. rewrite length_imap.
      by eapply lookup_lt_Some.
Qed.

Lemma offsets_at_lookup (positions : list nat) (x : item) (i : nat) :
  offsets_at positions x → i ∈ positions →
  match x !! i with Some (AOff _) => True | _ => False end.
Proof. intros Hx Hi. specialize (Hx i). by destruct (x !! i) as [[|]|]. Qed.

Lemma item_json_value (x : item) :
  offsets_at [] x → item_json x = PList (atom_value <$> x).
Proof.
  intros Hx. unfold item_json. by rewrite <- mixed_nil, (mixed_all [] x).
Qed.

Lemma normalise_entity_json (x : item) :
  offsets_at [1%nat] x →
  normalise_field 1 (item_json x) = Ok (PList (atom_value <$> x)).
Proof.
  intros Hx. unfold item_json. rewrite <- mixed_nil, <- (mixed_all [1%nat] x Hx).
  apply normalise_field_mixed. eapply offsets_at_lookup; [done | left].
Qed.

Lemma normalise_relation_json (x : item) :
  offsets_at [2%nat; 4%nat] x →
  (offset_pred <-! normalise_field 2 (item_json x);
   normalise_field 4 offset_pred)
  = Ok (PList (atom_value <$> x)).
Proof.
  intros Hx. unfold item_json. rewrite <- mixed_nil.
  rewrite normalise_field_mixed
    by (eapply offsets_at_lookup; [done | left]).
  simpl. rewrite normalise_field_mixed
    by (eapply offsets_at_lookup; [done | right; left]).
  f_equal. f_equal. rewrite <- (mixed_all [2%nat; 4%nat] x Hx).
  apply list_eq. intros i. unfold mixed. rewrite !list_lookup_imap.
  unfold item in *. destruct (x !! i) as [a|]; simpl; [|done]. f_equal.
  destruct (decide (i ∈ [4%nat; 2%nat])) as [H1|H1];
    destruct (decide (i ∈ [2%nat; 4%nat])) as [H2|H2];
    try done; exfalso; set_solver.
Qed.

Lemma load_axes_json (normalise : pyval → res pyval) (positions : list nat)
  (axes : list item * list item) :
  (∀ x, offsets_at positions x →
        normalise (item_json x) = Ok (PList (atom_value <$> x))) →
  Forall (offsets_at positions) axes.1 →
  Forall (offsets_at []) axes.2 →
  (offset <-! res_mapM normalise (raw_offset (raw_pred_of item_json axes));
   offset <-! res_mapM tuple_offset_raw offset;
   string <-! res_mapM tuple_offset_raw
                (raw_string (raw_pred_of item_json axes));
   Ok (mkRawPred offset string))
  = Ok (raw_pred_of item_value axes).
Proof.
  intros Hnorm Ho Hs. unfold raw_pred_of. cbn [raw_offset raw_string].
  rewrite (res_mapM_fmap normalise item_json
             (λ x, PList (atom_value <$> x)))
    by (eapply Forall_impl; [exact Ho | exact Hnorm]).
  cbn [res_bind].
  rewrite (res_mapM_fmap tuple_offset_raw (λ x, PList (atom_value <$> x))
             item_value) by by apply Forall_true.
  cbn [res_bind].
  rewrite (res_mapM_fmap tuple_offset_raw item_json item_value); [done|].
  eapply Forall_impl; [exact Hs|]. intros x Hx. cbn beta.
  by rewrite item_json_value.
Qed.

Lemma entity_load_pred_list_json (pred_list : list (list item * list item)) :
  Forall (λ pred, Forall (offsets_at [1%nat]) pred.1
                  ∧ Forall (offsets_at []) pred.2) pred_list →
  EntityPredLoader.load_pred_list (raw_pred_of item_json <$> pred_list)
  = Ok (raw_pred_of item_value <$> pred_list).
Proof.
  intros Hall. unfold EntityPredLoader.load_pred_list.
  apply res_mapM_fmap. eapply Forall_impl; [exact Hall|].
  intros pred [Ho Hs]. unfold EntityPredLoader.load_pred.
  by apply (load_axes_json (normalise_field 1) [1%nat]);
    [apply normalise_entity_json|..].
Qed.

Lemma relation_load_pred_list_json
  (pred_list : list (list item * list item)) :
  Forall (λ pred, Forall (offsets_at [2%nat; 4%nat]) pred.1
                  ∧ Forall (offsets_at []) pred.2) pred_list →
  RelationPredLoader.load_pred_list (raw_pred_of item_json <$> pred_list)
  = Ok (raw_pred_of item_value <$> pred_list).
Proof.
  intros Hall. unfold RelationPredLoader.load_pred_list.
  apply res_mapM_fmap. eapply Forall_impl; [exact Hall|].
  intros pred [Ho Hs]. unfold RelationPredLoader.load_pred.
  by apply (load_axes_json
              (λ offset_pred,
                 offset_pred <-! normalise_field 2 offset_pred;
                 normalise_field 4 offset_pred) [2%nat; 4%nat]);
    [apply normalise_relation_json|..].
Qed.

Lemma axes_of_get (inst : instance) :
  is_Some (inst !! "offset") → is_Some (inst !! "string") →
  axes_of inst = Some (get inst "offset", get inst "string").
Proof. unfold axes_of, get. by intros [o ->] [s ->]. Qed.

Lemma get_is_Some (inst : instance) (key : string) :
  get inst key ≠ [] → is_Some (inst !! key).
Proof. unfold get. destruct (inst !! key); [eauto | done]. Qed.

(** The shapes the gold loaders give their tuples. *)
Lemma entity_load_gold_offsets (gold : list argument) :
  Forall (offsets_at [1%nat]) (get (EntityLoader.load_gold gold) "offset")
  ∧ Forall (offsets_at []) (get (EntityLoader.load_gold gold) "string").
Proof.
  destruct (entity_load_gold_get gold) as (-> & -> & _). split.
  - apply Forall_fmap, Forall_true. intros span [|[|[|i]]]; simpl;
      rewrite ?elem_of_cons, ?elem_of_nil; lia.
  - apply Forall_fmap, Forall_true. intros span [|[|[|i]]]; simpl;
      apply not_elem_of_nil.
Qed.

Lemma entity_load_gold_keys (gold : list argument) :
  is_Some (EntityLoader.load_gold gold !! "offset")
  ∧ is_Some (EntityLoader.load_gold gold !! "string").
Proof.
  unfold EntityLoader.load_gold. destruct (fold_left _ gold _) as [o s].
  split.
  - by rewrite lookup_insert_ne, lookup_insert_eq.
  - by rewrite lookup_insert_eq.
Qed.

Lemma relation_load_record_offsets (d d' : instance) (record : relation) :
  RelationScorer.load_record d record = Ok d' →
  Forall (offsets_at [2%nat; 4%nat]) (get d "offset")
  ∧ Forall (offsets_at []) (get d "string") →
  Forall (offsets_at [2%nat; 4%nat]) (get d' "offset")
  ∧ Forall (offsets_at []) (get d' "string").
Proof.
  unfold RelationScorer.load_record. case_bool_decide; [|done].
  destruct (rel_args record) as [|a0 [|a1 l]]; try done.
  intros [= <-] [Ho Hs]. rewrite !get_append_to.
  rewrite (decide_True (P := "offset" = "offset")) by done.
  rewrite (decide_True (P := "string" = "string")) by done.
  rewrite (decide_False (P := "offset" = "string")) by done.
  rewrite (decide_False (P := "string" = "offset")) by done.
  rewrite !app_nil_r, !Forall_app. split_and!; [done| |done|].
  - constructor; [|done]. intros [|[|[|[|[|[|i]]]]]]; simpl;
      rewrite ?elem_of_cons, ?elem_of_nil; lia.
  - constructor; [|done]. intros [|[|[|[|[|[|i]]]]]]; simpl;
      apply not_elem_of_nil.
Qed.

Lemma relation_load_records_offsets (gold : list relation) (d d' : instance) :
  RelationScorer.load_records d gold = Ok d' →
  Forall (offsets_at [2%nat; 4%nat]) (get d "offset")
  ∧ Forall (offsets_at []) (get d "string") →
  Forall (offsets_at [2%nat; 4%nat]) (get d' "offset")
  ∧ Forall (offsets_at []) (get d' "string").
Proof.
  revert d. induction gold as [|record gold IH]; intros d; simpl.
  - by intros [= <-].
  - destruct (RelationScorer.load_record d record) as [d1|e] eqn:Hr;
      [|done]. simpl. intros Hrest Hd. apply (IH d1 Hrest).
    by eapply relation_load_record_offsets.
Qed.

(** What [RelationScorer.load_gold_list] makes of the examples that have a
    relation: both keys are there. *)
Lemma relation_load_gold_list_axes (gold_list : list (list relation))
  (gold_instance_list : list instance) :
  RelationScorer.load_gold_list gold_list = Ok gold_instance_list →
  Forall (λ gold, gold ≠ []) gold_list →
  Forall (λ inst,
            axes_of inst = Some (get inst "offset", get inst "string")
            ∧ Forall (offsets_at [2%nat; 4%nat]) (get inst "offset")
            ∧ Forall (offsets_at []) (get inst "string"))
    gold_instance_list.
Proof.
  unfold RelationScorer.load_gold_list. intros Hload Hne.
  apply res_mapM_Forall2 in Hload.
  induction Hload as [|gold inst golds insts Hinst _ IH];
    [constructor|].
  apply Forall_cons in Hne as [Hgold Hne]. constructor; [|by apply IH].
  destruct (relation_load_records_get _ _ _ Hinst five_tuples_empty)
    as (_ & Hlo & Hls).
  rewrite get_empty in Hlo, Hls. simpl in Hlo, Hls.
  destruct (relation_load_records_offsets _ _ _ Hinst) as [Ho Hs];
    [by rewrite !get_empty|].
  split_and!; [|done..].
  apply axes_of_get; apply get_is_Some; intros Hnil;
    [rewrite Hnil in Hlo | rewrite Hnil in Hls]; by destruct gold.
Qed.

Lemma mapM_fmap_Some {A B} (f : A → option B) (g : A → B) (l : list A) :
  Forall (λ x, f x = Some (g x)) l → mapM f l = Some (g <$> l).
Proof.
  intros Hl. apply mapM_Some. apply Forall2_fmap_r.
  by apply Forall_Forall2_diag.
Qed.

(** X20. [EntityScorer.load_pred_list] and [RelationScorer.load_pred_list]
    read predictions as [json.loads] delivers them, with lists where the
    scorers compare tuples: when the offsets are the field 1 of the entity
    tuples and the fields 2 and 4 of the relation tuples, and nothing else
    is a list, they return the tuples themselves.  In particular the
    instances that [EntityScorer.load_gold_list] returns, written to JSON
    and read back as predictions, are loaded as these instances, and so are
    those of [RelationScorer.load_gold_list] for the examples that have a
    relation.  (An example without relations is loaded as an empty
    [defaultdict]: it has neither key.) *)
Theorem load_pred_list_reads_json :
  (∀ pred_list : list (list item * list item),
     Forall (λ pred, Forall (offsets_at [1%nat]) pred.1
                     ∧ Forall (offsets_at []) pred.2) pred_list →
     EntityPredLoader.load_pred_list (raw_pred_of item_json <$> pred_list)
     = Ok (raw_pred_of item_value <$> pred_list))
  ∧ (∀ pred_list : list (list item * list item),
       Forall (λ pred, Forall (offsets_at [2%nat; 4%nat]) pred.1
                       ∧ Forall (offsets_at []) pred.2) pred_list →
       RelationPredLoader.load_pred_list
         (raw_pred_of item_json <$> pred_list)
       = Ok (raw_pred_of item_value <$> pred_list))
  ∧ (∀ gold_list : list (list argument),
       ∃ axes,
         mapM axes_of (EntityLoader.load_gold_list gold_list) = Some axes
         ∧ EntityPredLoader.load_pred_list (raw_pred_of item_json <$> axes)
           = Ok (raw_pred_of item_value <$> axes))
  ∧ (∀ (gold_list : list (list relation)) gold_instance_list,
       RelationScorer.load_gold_list gold_list = Ok gold_instance_list →
       Forall (λ gold, gold ≠ []) gold_list →
       ∃ axes,
         mapM axes_of gold_instance_list = Some axes
         ∧ RelationPredLoader.load_pred_list
             (raw_pred_of item_json <$> axes)
           = Ok (raw_pred_of item_value <$> axes))
  ∧ (RelationScorer.load_gold_list [[]] = Ok [∅] ∧ axes_of ∅ = None).
Proof.
  split_and!.
  - apply entity_load_pred_list_json.
  - apply relation_load_pred_list_json.
  - intros gold_list. unfold EntityLoader.load_gold_list.
    rewrite (fold_left_snoc_fmap EntityLoader.load_gold). simpl.
    exists ((λ inst, (get inst "offset", get inst "string"))
              <$> (EntityLoader.load_gold <$> gold_list)).
    split.
    + apply mapM_fmap_Some, Forall_fmap, Forall_true. intros gold.
      simpl. apply axes_of_get; apply entity_load_gold_keys.
    + apply entity_load_pred_list_json.
      rewrite <- list_fmap_compose. apply Forall_fmap, Forall_true.
      intros gold. apply entity_load_gold_offsets.
  - intros gold_list gold_instance_list Hload Hne.
    pose proof (relation_load_gold_list_axes _ _ Hload Hne) as Hall.
    exists ((λ inst, (get inst "offset", get inst "string"))
              <$> gold_instance_list).
    split.
    + apply mapM_fmap_Some. eapply Forall_impl; [exact Hall|].
      by intros inst (? & _).
    + apply relation_load_pred_list_json. apply Forall_fmap.
      eapply Forall_impl; [exact Hall|]. by intros inst (_ & ? & ?).
  - done.
  - done.
Qed.

(** ** What the loaders return is in normal form *)

Lemma tuple_at_normalise_field (i j : nat) (x y : pyval) :
  tuple_at j x → normalise_field i x = Ok y → tuple_at j y.
Proof.
  intros Hj Hn.
  destruct (normalise_field_Ok _ _ _ Hn)
    as [Hi [->|(l & t & -> & -> & Hlt)]]; [done|].
  destruct Hj as (l' & tl & [[= <-]|[=]] & Hl).
  destruct (decide (i = j)) as [<-|Hne]; [exact Hi|].
  exists (<[i := t]> l), tl. split; [by left|].
  by rewrite list_lookup_insert_ne.
Qed.

Lemma tuple_offset_raw_tuple_at (y z : pyval) :
  tuple_offset_raw y = Ok z →
  (∃ l, z = PTuple l) ∧ ∀ i, tuple_at i y → tuple_at i z.
Proof.
  intros (l & -> & Hy)%tuple_offset_raw_Ok. split; [eauto|].
  intros i (l' & tl & Hl' & Hi). exists l, tl. split; [by right|].
  destruct Hy as [->|[->|[s ->]]], Hl' as [[=]|[=]]; by subst.
Qed.

Lemma tuple_offset_raw_tuple (l : list pyval) :
  tuple_offset_raw (PTuple l) = Ok (PTuple l).
Proof. done. Qed.

Lemma res_mapM_fixed {A} (f : A → res A) (l : list A) :
  Forall (λ x, f x = Ok x) l → res_mapM f l = Ok l.
Proof.
  intros Hl. rewrite <- (list_fmap_id l) at 1.
  rewrite (res_mapM_fmap f id id) by done. by rewrite list_fmap_id.
Qed.

(** A loop over the entries that leaves tuples at [positions], followed by
    the two comprehensions. *)
Lemma load_axes_normal (normalise : pyval → res pyval)
  (positions : list nat) (pred pred' : raw_pred) :
  (∀ x y, normalise x = Ok y → ∀ i, i ∈ positions → tuple_at i y) →
  (∀ x, (∀ i, i ∈ positions → tuple_at i x) → normalise x = Ok x) →
  (offset <-! res_mapM normalise (raw_offset pred);
   offset <-! res_mapM tuple_offset_raw offset;
   string <-! res_mapM tuple_offset_raw (raw_string pred);
   Ok (mkRawPred offset string)) = Ok pred' →
  Forall (λ z, (∃ l, z = PTuple l) ∧ ∀ i, i ∈ positions → tuple_at i z)
    (raw_offset pred')
  ∧ Forall (λ z, ∃ l, z = PTuple l) (raw_string pred')
  ∧ (offset <-! res_mapM normalise (raw_offset pred');
     offset <-! res_mapM tuple_offset_raw offset;
     string <-! res_mapM tuple_offset_raw (raw_string pred');
     Ok (mkRawPred offset string)) = Ok pred'.
Proof.
  intros Hnorm Hfix.
  destruct (res_mapM normalise (raw_offset pred)) as [mid|e] eqn:Hmid;
    [|done]. cbn [res_bind].
  destruct (res_mapM tuple_offset_raw mid) as [out|e] eqn:Hout; [|done].
  cbn [res_bind].
  destruct (res_mapM tuple_offset_raw (raw_string pred)) as [str|e]
    eqn:Hstr; [|done].
  cbn [res_bind]. intros [= <-]. cbn [raw_offset raw_string].
  apply res_mapM_Forall2 in Hmid, Hout, Hstr.
  assert (Forall (λ y, ∀ i, i ∈ positions → tuple_at i y) mid) as Hmid'.
  { clear -Hmid Hnorm. induction Hmid; constructor; eauto. }
  assert (Forall (λ z, (∃ l, z = PTuple l)
                       ∧ ∀ i, i ∈ positions → tuple_at i z) out) as Hout'.
  { clear -Hout Hmid'. induction Hout as [|y z mid out Hz _ IH];
      [constructor|].
    apply Forall_cons in Hmid' as [Hy Hmid']. constructor; [|by apply IH].
    apply tuple_offset_raw_tuple_at in Hz as [Hz Hat]. split; [done|].
    intros i Hi. by apply Hat, Hy. }
  assert (Forall (λ z, ∃ l, z = PTuple l) str) as Hstr'.
  { clear -Hstr. induction Hstr as [|y z ? ? Hz _ IH]; constructor; [|done].
    by apply tuple_offset_raw_tuple_at in Hz as [Hz _]. }
  split_and!; [done..|].
  rewrite (res_mapM_fixed normalise out).
  - cbn [res_bind]. rewrite (res_mapM_fixed tuple_offset_raw out).
    + cbn [res_bind]. rewrite (res_mapM_fixed tuple_offset_raw str); [done|].
      eapply Forall_impl; [exact Hstr'|]. by intros z [l ->].
    + eapply Forall_impl; [exact Hout'|]. by intros z [[l ->] _].
  - eapply Forall_impl; [exact Hout'|]. intros z [_ Hz]. by apply Hfix.
Qed.

(** X21. What the two [load_pred_list] return is in normal form: every
    entry of either axis is a tuple, the offset fields of the entries of the
    offset axis are tuples, and loading it once more returns it as it
    is. *)
Theorem load_pred_list_normal_form :
  (∀ pred_list out,
     EntityPredLoader.load_pred_list pred_list = Ok out →
     Forall (λ pred,
               Forall (λ z, (∃ l, z = PTuple l) ∧ tuple_at 1 z)
                 (raw_offset pred)
               ∧ Forall (λ z, ∃ l, z = PTuple l) (raw_string pred)) out
     ∧ EntityPredLoader.load_pred_list out = Ok out)
  ∧ (∀ pred_list out,
       RelationPredLoader.load_pred_list pred_list = Ok out →
       Forall (λ pred,
                 Forall (λ z, (∃ l, z = PTuple l)
                              ∧ tuple_at 2 z ∧ tuple_at 4 z)
                   (raw_offset pred)
                 ∧ Forall (λ z, ∃ l, z = PTuple l) (raw_string pred)) out
       ∧ RelationPredLoader.load_pred_list out = Ok out).
Proof.
  split.
  - intros pred_list out Hload.
    unfold EntityPredLoader.load_pred_list in *.
    apply res_mapM_Forall2 in Hload.
    assert (Forall (λ pred',
                      (Forall (λ z, (∃ l, z = PTuple l) ∧ tuple_at 1 z)
                         (raw_offset pred')
                       ∧ Forall (λ z, ∃ l, z = PTuple l) (raw_string pred'))
                      ∧ EntityPredLoader.load_pred pred' = Ok pred') out)
      as Hout.
    { induction Hload as [|pred pred' ? ? Hpred _ IH]; constructor; [|done].
      destruct (load_axes_normal (normalise_field 1) [1%nat] pred pred')
        as (Ho & Hs & Hagain).
      - intros x y Hxy i ->%list_elem_of_singleton.
        by apply normalise_field_Ok in Hxy as [? _].
      - intros x Hx. apply normalise_field_tuple_at, Hx. left.
      - exact Hpred.
      - split_and!; [|done..].
        eapply Forall_impl; [exact Ho|]. intros z [Hz Hat].
        split; [done|]. apply Hat. left. }
    split.
    + eapply Forall_impl; [exact Hout|]. by intros pred' [? _].
    + apply res_mapM_fixed. eapply Forall_impl; [exact Hout|].
      by intros pred' [_ ?].
  - intros pred_list out Hload.
    unfold RelationPredLoader.load_pred_list in *.
    apply res_mapM_Forall2 in Hload.
    assert (Forall (λ pred',
                      (Forall (λ z, (∃ l, z = PTuple l)
                                    ∧ tuple_at 2 z ∧ tuple_at 4 z)
                         (raw_offset pred')
                       ∧ Forall (λ z, ∃ l, z = PTuple l) (raw_string pred'))
                      ∧ RelationPredLoader.load_pred pred' = Ok pred') out)
      as Hout.
    { induction Hload as [|pred pred' ? ? Hpred _ IH]; constructor; [|done].
      destruct (load_axes_normal
                  (λ offset_pred,
                     offset_pred <-! normalise_field 2 offset_pred;
                     normalise_field 4 offset_pred)
                  [2%nat; 4%nat] pred pred') as (Ho & Hs & Hagain).
      - intros x y Hxy i Hi.
        destruct (normalise_field 2 x) as [x2|e] eqn:H2; [|done].
        simpl in Hxy. pose proof (normalise_field_Ok _ _ _ H2) as [Hx2 _].
        pose proof (normalise_field_Ok _ _ _ Hxy) as [Hy4 _].
        apply elem_of_cons in Hi as [->|Hi].
        + by eapply tuple_at_normalise_field.
        + by apply list_elem_of_singleton in Hi as ->.
      - intros x Hx.
        rewrite (normalise_field_tuple_at 2 x) by (apply Hx; left).
        simpl. apply normalise_field_tuple_at, Hx. right. left.
      - exact Hpred.
      - split_and!; [|done..].
        eapply Forall_impl; [exact Ho|]. intros z [Hz Hat].
        split_and!; [done|apply Hat..]; [left | right; left]. }
    split.
    + eapply Forall_impl; [exact Hout|]. by intros pred' [? _].
    + apply res_mapM_fixed. eapply Forall_impl; [exact Hout|].
      by intros pred' [_ ?].
Qed.

(** ** What the loaders do not accept *)







